(** * cachelib: an LRU cache with TTL expiry and a memoizing decorator

    Shallow embedding of [src/cachelib/lrucache.py] and the properties of
    its specification.

    - [Py]       the Python values, exceptions and built-ins the code uses
                 ([==], [<], [sorted], [isinstance(_, Hashable)]);
    - [OD]       [collections.OrderedDict] as an association list, oldest
                 entry first;
    - [Engine]   class [LRUCache];
    - [Memo]     [make_hashable] and [cache_decorator];
    - the theorems, one block per property.

    What is not modelled: the lock (every method body runs inside
    [with self.lock], so bodies are atomic steps here), [bool] and [float]
    arguments, and re-entrant calls of a wrapped function into its own
    wrapper. *)

From Stdlib Require Import List ZArith Bool String Ascii Lia.
From Stdlib Require Import Permutation Sorted OrderedTypeEx.
Import ListNotations.

Local Open Scope Z_scope.

(* ================================================================== *)
(** * Python values and exceptions *)
(* ================================================================== *)

Module Py.

(** The exceptions the code can raise, with the message that tells the
    raising site. *)
Inductive exn : Type :=
| TypeError (msg : string)
| KeyError (msg : string)
| Raised (tag : string).          (* whatever a wrapped function raises *)

Definition is_TypeError (e : exn) : bool :=
  match e with TypeError _ => true | _ => false end.

Definition is_KeyError (e : exn) : bool :=
  match e with KeyError _ => true | _ => false end.

(** [raise TypeError(f"Unhashable type: {type(obj)}")], line 164. *)
Definition unhashable_type : exn := TypeError "Unhashable type".
(** The TypeError of [sorted] when two items do not support [<]. *)
Definition not_orderable : exn := TypeError "'<' not supported".
(** [OrderedDict.popitem] on an empty dictionary. *)
Definition dictionary_is_empty : exn := KeyError "dictionary is empty".
(** [move_to_end] and [del] on a key that is not there. *)
Definition missing_key : exn := KeyError "key".

(** A computation that returns or raises. *)
Definition result (A : Type) : Type := (exn + A)%type.

Definition rbind {A B} (r : result A) (k : A -> result B) : result B :=
  match r with
  | inl e => inl e
  | inr a => k a
  end.

Declare Scope result_scope.
Delimit Scope result_scope with result.
Notation "x <-? r ;; k" := (rbind r (fun x => k))
  (at level 61, r at next level, right associativity) : result_scope.

Section MapM.
Context {A B : Type} (f : A -> result B).

(** A generator expression consumed from left to right: the first item
    that raises ends it. *)
Fixpoint mapM (l : list A) : result (list B) :=
  match l with
  | [] => inr []
  | x :: r =>
      match f x with
      | inl e => inl e
      | inr y =>
          match mapM r with
          | inl e => inl e
          | inr ys => inr (y :: ys)
          end
      end
  end.
End MapM.

Section Sequences.
Context {A : Type} (eq : A -> A -> bool) (lt : A -> A -> result bool).

(** [==] of two tuples or two lists: same length, items pairwise [==]. *)
Fixpoint seq_eq (l1 l2 : list A) {struct l1} : bool :=
  match l1, l2 with
  | [], [] => true
  | a :: r1, b :: r2 => eq a b && seq_eq r1 r2
  | _, _ => false
  end.

(** [<] of two tuples or two lists: the first pair of items that are not
    [==] decides with its own [<]; without one the shorter is smaller. *)
Fixpoint seq_lt (l1 l2 : list A) {struct l1} : result bool :=
  match l1, l2 with
  | [], [] => inr false
  | [], _ :: _ => inr true
  | _ :: _, [] => inr false
  | a :: r1, b :: r2 => if eq a b then seq_lt r1 r2 else lt a b
  end.
End Sequences.

(** Python objects.  A [dict] is the list of its items in insertion order,
    a [set] or [frozenset] the list of its elements in iteration order.
    [PyObject hashable id] is an instance of any other class: [hashable]
    says whether the class defines [__hash__] ([bytearray] does not,
    [object] does), and two such objects are equal when they are the same
    object. *)
#[warnings="-register-all"]
Inductive pyobj : Type :=
| PyNone
| PyInt (z : Z)
| PyStr (s : string)
| PyTuple (items : list pyobj)
| PyList (items : list pyobj)
| PyDict (items : list (pyobj * pyobj))
| PySet (items : list pyobj)
| PyFrozenset (items : list pyobj)
| PyObject (hashable : bool) (id : nat).

(** [x is None] *)
Definition is_None (x : pyobj) : bool :=
  match x with PyNone => true | _ => false end.

(** [isinstance(obj, (tuple, list))], [isinstance(obj, dict)],
    [isinstance(obj, set)]: the containers [make_hashable] recognises. *)
Definition is_sequence (x : pyobj) : bool :=
  match x with PyTuple _ | PyList _ => true | _ => false end.
Definition is_dict (x : pyobj) : bool :=
  match x with PyDict _ => true | _ => false end.
Definition is_set (x : pyobj) : bool :=
  match x with PySet _ => true | _ => false end.
Definition is_container (x : pyobj) : bool :=
  is_sequence x || is_dict x || is_set x.

(** [isinstance(obj, Hashable)]: the class of [obj] has a [__hash__]. *)
Definition isinstance_Hashable (x : pyobj) : bool :=
  match x with
  | PyNone | PyInt _ | PyStr _ | PyTuple _ | PyFrozenset _ => true
  | PyList _ | PyDict _ | PySet _ => false
  | PyObject h _ => h
  end.

(** [x == y].  Sequences compare item by item, sets and dicts by mutual
    inclusion, a set is equal to a frozenset with the same elements, and
    objects of different kinds are different. *)
Fixpoint py_eq (x y : pyobj) {struct x} : bool :=
  match x, y with
  | PyNone, PyNone => true
  | PyInt a, PyInt b => Z.eqb a b
  | PyStr a, PyStr b => String.eqb a b
  | PyTuple l1, PyTuple l2 => seq_eq py_eq l1 l2
  | PyList l1, PyList l2 => seq_eq py_eq l1 l2
  | PyDict d1, PyDict d2 =>
      forallb (fun kv2 : pyobj * pyobj =>
                 existsb (fun kv1 : pyobj * pyobj =>
                            py_eq (fst kv1) (fst kv2)
                            && py_eq (snd kv1) (snd kv2)) d1) d2
      && forallb (fun kv1 : pyobj * pyobj =>
                    existsb (fun kv2 : pyobj * pyobj =>
                               py_eq (fst kv1) (fst kv2)
                               && py_eq (snd kv1) (snd kv2)) d2) d1
  | PySet l1, PySet l2 | PySet l1, PyFrozenset l2
  | PyFrozenset l1, PySet l2 | PyFrozenset l1, PyFrozenset l2 =>
      forallb (fun a => existsb (fun b => py_eq a b) l2) l1
      && forallb (fun b => existsb (fun a => py_eq a b) l1) l2
  | PyObject _ i, PyObject _ j => Nat.eqb i j
  | _, _ => false
  end.

(** [all(any(a == b for b in l2) for a in l1)] *)
Definition subset (l1 l2 : list pyobj) : bool :=
  forallb (fun a => existsb (fun b => py_eq a b) l2) l1.

(** [x < y]: integers by value, strings lexicographically, tuples and lists
    lexicographically on the first pair of items that are not [==]
    (a proper prefix is smaller), sets by proper inclusion.  Every other
    pair raises TypeError. *)
Fixpoint py_lt (x y : pyobj) {struct x} : result bool :=
  match x, y with
  | PyInt a, PyInt b => inr (Z.ltb a b)
  | PyStr a, PyStr b => inr (String.ltb a b)
  | PyTuple l1, PyTuple l2 => seq_lt py_eq py_lt l1 l2
  | PyList l1, PyList l2 => seq_lt py_eq py_lt l1 l2
  | PySet l1, PySet l2 | PySet l1, PyFrozenset l2
  | PyFrozenset l1, PySet l2 | PyFrozenset l1, PyFrozenset l2 =>
      inr (subset l1 l2 && negb (subset l2 l1))
  | _, _ => inl not_orderable
  end.

(** [sorted(iterable)]: a stable sort that only uses [<].  Each item is
    placed in the sorted prefix before the first item it is smaller than;
    a comparison that raises ends the sort.  Where [<] orders the items
    totally, as it does the names of keyword arguments, every stable sort
    returns this list; where it does not (sets, ordered by inclusion), the
    list that [list.sort] returns depends on the comparisons it makes, and
    the model stands for one such choice: there it can order the items
    differently from [list.sort] and can raise where [list.sort] returns.
    What is proved through it is proved of totally ordered items, of
    whether the items come out at all, or of items no sort can compare. *)
Fixpoint insert_sorted (x : pyobj) (l : list pyobj) : result (list pyobj) :=
  match l with
  | [] => inr [x]
  | y :: r =>
      match py_lt x y with
      | inl e => inl e
      | inr true => inr (x :: y :: r)
      | inr false =>
          match insert_sorted x r with
          | inl e => inl e
          | inr r' => inr (y :: r')
          end
      end
  end.

Fixpoint sorted_onto (acc l : list pyobj) : result (list pyobj) :=
  match l with
  | [] => inr acc
  | x :: r =>
      match insert_sorted x acc with
      | inl e => inl e
      | inr acc' => sorted_onto acc' r
      end
  end.

Definition sorted (l : list pyobj) : result (list pyobj) := sorted_onto [] l.

(** [frozenset(iterable)]: later items equal to an earlier one are dropped. *)
Fixpoint frozenset_items (seen l : list pyobj) : list pyobj :=
  match l with
  | [] => []
  | x :: r =>
      if existsb (fun s => py_eq s x) seen then frozenset_items seen r
      else x :: frozenset_items (seen ++ [x]) r
  end.

Definition frozenset (l : list pyobj) : pyobj :=
  PyFrozenset (frozenset_items [] l).

(** [==] of two dict items: the keys are [==] and the values are. *)
Definition item_eq (kv1 kv2 : pyobj * pyobj) : bool :=
  py_eq (fst kv1) (fst kv2) && py_eq (snd kv1) (snd kv2).


(** [isinstance(x, Hashable)] of [x] and, through tuples, of every item:
    no list, dict or set is left at any depth of tuples.  This is the test
    of the class, not a call of [hash]: an instance of [Hashable] whose
    [__hash__] raises passes it. *)
Fixpoint Hashable_through_tuples (x : pyobj) : bool :=
  match x with
  | PyTuple items => forallb Hashable_through_tuples items
  | _ => isinstance_Hashable x
  end.

End Py.

(* ================================================================== *)
(** * collections.OrderedDict *)
(* ================================================================== *)

(** [==] on keys, as the dictionary uses it after hashing. *)
Class KeyEq (K : Type) : Type := key_eqb : K -> K -> bool.

#[export] Instance KeyEq_string : KeyEq string := String.eqb.
#[export] Instance KeyEq_pyobj : KeyEq Py.pyobj := Py.py_eq.

(** The laws of [==] that unique keys rest on. *)
Class KeyEqLaws (K : Type) `{KeyEq K} : Prop := {
  key_eqb_refl : forall k, key_eqb k k = true;
  key_eqb_sym : forall k1 k2, key_eqb k1 k2 = key_eqb k2 k1;
  key_eqb_trans : forall k1 k2 k3,
      key_eqb k1 k2 = true -> key_eqb k2 k3 = true -> key_eqb k1 k3 = true
}.

(** [==] on strings is an equivalence. *)
#[global] Instance KeyEqLaws_string : KeyEqLaws string.
Proof.
  split; unfold key_eqb, KeyEq_string.
  - apply String.eqb_refl.
  - apply String.eqb_sym.
  - intros k1 k2 k3 H12 H23.
    apply String.eqb_eq in H12, H23. subst. apply String.eqb_refl.
Qed.

Module OD.
Import Py.

Section OrderedDict.
Context {K E : Type} `{KeyEq K}.

(** The items, least recently inserted or moved first. *)
Definition t : Type := list (K * E).

Definition len (d : t) : Z := Z.of_nat (List.length d).

(** The first item whose stored key is [==] to [key]. *)
Fixpoint lookup (key : K) (d : t) : option (K * E) :=
  match d with
  | [] => None
  | (k, e) :: r => if key_eqb k key then Some (k, e) else lookup key r
  end.

(** [key in d] *)
Definition contains (key : K) (d : t) : bool :=
  match lookup key d with Some _ => true | None => false end.

(** [d[key]] *)
Definition getitem (key : K) (d : t) : result E :=
  match lookup key d with
  | Some (_, e) => inr e
  | None => inl missing_key
  end.

(** [d] without the item found by [lookup]. *)
Fixpoint remove (key : K) (d : t) : t :=
  match d with
  | [] => []
  | (k, e) :: r => if key_eqb k key then r else (k, e) :: remove key r
  end.

(** [del d[key]] *)
Definition delitem (key : K) (d : t) : result t :=
  if contains key d then inr (remove key d) else inl missing_key.

(** [d.move_to_end(key)]: the item keeps its stored key and its value. *)
Definition move_to_end (key : K) (d : t) : result t :=
  match lookup key d with
  | Some kv => inr (remove key d ++ [kv])
  | None => inl missing_key
  end.

(** [d[key] = e]: an existing item keeps its place and its stored key, a
    new one goes to the end. *)
Fixpoint setitem (key : K) (e : E) (d : t) : t :=
  match d with
  | [] => [(key, e)]
  | (k, e') :: r =>
      if key_eqb k key then (k, e) :: r else (k, e') :: setitem key e r
  end.

(** [d.popitem(last=False)] *)
Definition popitem_first (d : t) : result ((K * E) * t) :=
  match d with
  | [] => inl dictionary_is_empty
  | kv :: r => inr (kv, r)
  end.

(** [d.clear()] *)
Definition clear (d : t) : t := [].

Definition keys (d : t) : list K := map fst d.

(** No two stored keys are [==]: what a dictionary maintains. *)
Fixpoint unique_keys (d : t) : bool :=
  match d with
  | [] => true
  | (k, _) :: r => negb (contains k r) && unique_keys r
  end.
End OrderedDict.

Arguments t : clear implicits.

End OD.

(* ================================================================== *)
(** * class LRUCache *)
(* ================================================================== *)

(** [time.time()] values: what the code does with them is compare two of
    them and add a [ttl] to one. *)
Class Clock (T : Type) : Type := {
  time_gt : T -> T -> bool;
  time_plus : T -> Z -> T
}.

(** Timestamps as integer ticks, for concrete runs. *)
#[export] Instance Clock_Z : Clock Z := {| time_gt := Z.gtb; time_plus := Z.add |}.

Module Engine.
Import Py.

Section LRUCache.
Context {K V T : Type} `{KeyEq K} `{Clock T}.

Record LRUCache : Type := mkLRUCache {
  max_size : Z;
  ttl : option Z;
  store : OD.t K (V * option T);
  hits : Z;
  misses : Z;
  evictions : Z
}.

(** The dictionary returned by [stats()]. *)
Record Stats : Type := mkStats {
  stats_hits : Z;
  stats_misses : Z;
  stats_evictions : Z;
  stats_current_size : Z
}.

(** A method body: it runs on [self], leaves [self] as it has mutated it,
    and returns or raises.  What was mutated before a [raise] stays. *)
Definition M (A : Type) : Type := LRUCache -> LRUCache * result A.

Definition ret {A} (a : A) : M A := fun self => (self, inr a).
Definition raise {A} (e : exn) : M A := fun self => (self, inl e).
Definition bind {A B} (m : M A) (k : A -> M B) : M B :=
  fun self =>
    match m self with
    | (self', inl e) => (self', inl e)
    | (self', inr a) => k a self'
    end.
Definition read : M LRUCache := fun self => (self, inr self).
Definition lift {A} (r : result A) : M A := fun self => (self, r).

Notation "x <- m ;; k" := (bind m (fun x => k))
  (at level 61, m at next level, right associativity).
Notation "m ;;; k" := (bind m (fun _ => k))
  (at level 61, right associativity).

Definition with_store (st : OD.t K (V * option T)) (self : LRUCache) :=
  mkLRUCache (max_size self) (ttl self) st
             (hits self) (misses self) (evictions self).

Definition write_store (st : OD.t K (V * option T)) : M unit :=
  fun self => (with_store st self, inr tt).
Definition write_max_size (n : Z) : M unit :=
  fun self => (mkLRUCache n (ttl self) (store self)
                          (hits self) (misses self) (evictions self), inr tt).
(** [self.hits += 1], [self.misses += 1] *)
Definition incr_hits : M unit :=
  fun self => (mkLRUCache (max_size self) (ttl self) (store self)
                          (hits self + 1) (misses self) (evictions self), inr tt).
Definition incr_misses : M unit :=
  fun self => (mkLRUCache (max_size self) (ttl self) (store self)
                          (hits self) (misses self + 1) (evictions self), inr tt).

(** [LRUCache(max_size, ttl)] *)
Definition __init__ (max_size : Z) (ttl : option Z) : result LRUCache :=
  inr (mkLRUCache max_size ttl [] 0 0 0).

(** [now] is what [time.time()] returns when the body reads the clock. *)
Definition _is_expired (now : T) (expiration_time : option T) : bool :=
  match expiration_time with
  | None => false
  | Some t => time_gt now t
  end.

(** [while len(self.store) > self.max_size: popitem(last=False);
    evictions += 1], on the two fields it touches.  Every turn of the
    loop pops the head of the store, so the loop is a recursion on it. *)
Fixpoint evict_loop (max_size : Z) (st : OD.t K (V * option T)) (ev : Z)
  : (OD.t K (V * option T) * Z) * result unit :=
  if OD.len st >? max_size then
    match st with
    | [] => (([], ev), inl dictionary_is_empty)
    | _ :: rest => evict_loop max_size rest (ev + 1)
    end
  else ((st, ev), inr tt).

Definition _evict_if_needed : M unit :=
  fun self =>
    let '((st, ev), r) := evict_loop (max_size self) (store self) (evictions self) in
    (mkLRUCache (max_size self) (ttl self) st (hits self) (misses self) ev, r).

Definition set (key : K) (value : V) (now : T) : M unit :=
  self <- read ;;
  let expiration_time :=
    match ttl self with
    | Some d => Some (time_plus now d)
    | None => None
    end in
  (if OD.contains key (store self) then
     st <- lift (OD.move_to_end key (store self)) ;;
     write_store st
   else ret tt) ;;;
  self <- read ;;
  write_store (OD.setitem key (value, expiration_time) (store self)) ;;;
  _evict_if_needed.

Definition get (key : K) (now : T) : M (option V) :=
  self <- read ;;
  if negb (OD.contains key (store self)) then
    incr_misses ;;; ret None
  else
    entry <- lift (OD.getitem key (store self)) ;;
    let '(value, expiration_time) := entry in
    if _is_expired now expiration_time then
      st <- lift (OD.delitem key (store self)) ;;
      write_store st ;;;
      incr_misses ;;;
      ret None
    else
      st <- lift (OD.move_to_end key (store self)) ;;
      write_store st ;;;
      incr_hits ;;;
      ret (Some value).

Definition stats : M Stats :=
  self <- read ;;
  ret (mkStats (hits self) (misses self) (evictions self)
               (OD.len (store self))).

Definition delete (key : K) : M bool :=
  self <- read ;;
  if OD.contains key (store self) then
    st <- lift (OD.delitem key (store self)) ;;
    write_store st ;;;
    ret true
  else ret false.

Definition clear : M unit :=
  self <- read ;;
  write_store (OD.clear (store self)).

Definition __contains__ (key : K) (now : T) : M bool :=
  self <- read ;;
  if negb (OD.contains key (store self)) then ret false
  else
    entry <- lift (OD.getitem key (store self)) ;;
    let '(_, expiration_time) := entry in
    if _is_expired now expiration_time then
      st <- lift (OD.delitem key (store self)) ;;
      write_store st ;;;
      ret false
    else ret true.

Definition resize (new_max_size : Z) : M unit :=
  write_max_size new_max_size ;;;
  _evict_if_needed.

(** ** Sequences of calls *)

Inductive op : Type :=
| Set_ (key : K) (value : V) (now : T)
| Get (key : K) (now : T)
| Contains (key : K) (now : T)
| Delete (key : K)
| Clear
| Resize (new_max_size : Z)
| StatsOp.

Definition void {A} (m : M A) : M unit := _ <- m ;; ret tt.

Definition call (o : op) : M unit :=
  match o with
  | Set_ key value now => set key value now
  | Get key now => void (get key now)
  | Contains key now => void (__contains__ key now)
  | Delete key => void (delete key)
  | Clear => clear
  | Resize n => resize n
  | StatsOp => void stats
  end.

(** The calls in order; the first one that raises ends the run. *)
Fixpoint run (ops : list op) : M unit :=
  match ops with
  | [] => ret tt
  | o :: rest => call o ;;; run rest
  end.

Definition current_size (self : LRUCache) : Z := OD.len (store self).

(** The capacity bound. *)
Definition bounded (self : LRUCache) : Prop :=
  0 <= max_size self /\ current_size self <= max_size self.

(** From [self] to [self']: no counter is lower, the lifetime is the
    same. *)
Definition grown (self self' : LRUCache) : Prop :=
  hits self <= hits self' /\ misses self <= misses self'
  /\ evictions self <= evictions self' /\ ttl self' = ttl self.

(** The expiration time [set] gives an entry when the clock reads [now]. *)
Definition expiration (self : LRUCache) (now : T) : option T :=
  match ttl self with
  | Some d => Some (time_plus now d)
  | None => None
  end.

(** The store of [set] between the assignment and the eviction. *)
Definition store_after_assign (self : LRUCache) (key : K) (value : V) (now : T)
  : OD.t K (V * option T) :=
  OD.setitem key (value, expiration self now)
    (match OD.lookup key (store self) with
     | Some kv => OD.remove key (store self) ++ [kv]
     | None => store self
     end).

(** A call that is not a [resize] to a capacity of zero or less. *)
Definition resize_positive (o : op) : Prop :=
  match o with
  | Resize n => 0 < n
  | _ => True
  end.

End LRUCache.

Arguments LRUCache : clear implicits.
Arguments M : clear implicits.
Arguments op : clear implicits.

End Engine.

(* ================================================================== *)
(** * make_hashable and cache_decorator *)
(* ================================================================== *)

Module Memo.
Import Py.
Local Open Scope result_scope.

(** [make_hashable(obj)], branch by branch. *)
Fixpoint make_hashable (obj : pyobj) : result pyobj :=
  match obj with
  | PyTuple items | PyList items =>
      l <-? mapM make_hashable items ;;
      inr (PyTuple l)
  | PyDict items =>
      pairs <-? mapM (fun kv : pyobj * pyobj =>
                        let '(k, v) := kv in
                        hk <-? make_hashable k ;;
                        hv <-? make_hashable v ;;
                        inr (PyTuple [hk; hv])) items ;;
      s <-? sorted pairs ;;
      inr (PyTuple s)
  | PySet items =>
      l <-? mapM make_hashable items ;;
      inr (frozenset l)
  | _ =>
      if isinstance_Hashable obj then inr obj else inl unhashable_type
  end.

(** The positional-argument tuple and the keyword-argument dict of a call. *)
Definition args_tuple (args : list pyobj) : pyobj := PyTuple args.
Definition kwargs_dict (kwargs : list (string * pyobj)) : pyobj :=
  PyDict (map (fun kv : string * pyobj => (PyStr (fst kv), snd kv)) kwargs).

(** [key = (make_hashable(args), make_hashable(kwargs))] *)
Definition make_key (args : list pyobj) (kwargs : list (string * pyobj))
  : result pyobj :=
  a <-? make_hashable (args_tuple args) ;;
  k <-? make_hashable (kwargs_dict kwargs) ;;
  inr (PyTuple [a; k]).

(** The item a keyword argument becomes: the pair of its name and its
    canonical value. *)
Definition kw_pair (kv : string * pyobj) : pyobj :=
  PyTuple [PyStr (fst kv); snd kv].

(** Ascending order of keyword names. *)
Definition name_lt (kv1 kv2 : string * pyobj) : Prop :=
  String.ltb (fst kv1) (fst kv2) = true.

(** The keyword items with their values canonicalized, in call order. *)
Definition canon_kw (kwargs : list (string * pyobj))
  : result (list (string * pyobj)) :=
  mapM (fun kv : string * pyobj =>
          hv <-? make_hashable (snd kv) ;; inr (fst kv, hv)) kwargs.


(** Two arguments that are the same, or two sets with the same elements
    in another iteration order. *)
Definition set_reordered (a b : pyobj) : Prop :=
  a = b \/ exists l1 l2, a = PySet l1 /\ b = PySet l2 /\ Permutation l1 l2.

(** What a call of the wrapper does that a caller can observe. *)
Inductive event : Type :=
| CacheGet (key : pyobj)
| Invoked (args : list pyobj) (kwargs : list (string * pyobj))
| CacheSet (key value : pyobj).

Definition is_Invoked (e : event) : bool :=
  match e with Invoked _ _ => true | _ => false end.
Definition is_CacheSet (e : event) : bool :=
  match e with CacheSet _ _ => true | _ => false end.

Section Decorator.
Context {T : Type} `{Clock T}.
(** The state a wrapped function works on. *)
Context {U : Type}.

(** A function to wrap: it may change the caller's state, and it returns
    or raises.  It does not reach the cache of its own wrapper: a function
    that calls its wrapped self, as a memoized recursion does, is outside
    this type. *)
Definition pyfunc : Type :=
  list pyobj -> list (string * pyobj) -> U -> U * result pyobj.

(** The closure of [wrapper]: its private cache, the state of the
    wrapped function, and the log of what happened so far. *)
Record world : Type := mkWorld {
  cache : Engine.LRUCache pyobj pyobj T;
  user : U;
  trace : list event
}.

Definition W (A : Type) : Type := world -> world * result A.

Definition wret {A} (a : A) : W A := fun w => (w, inr a).
Definition wbind {A B} (m : W A) (k : A -> W B) : W B :=
  fun w =>
    match m w with
    | (w', inl e) => (w', inl e)
    | (w', inr a) => k a w'
    end.
Definition wlift {A} (r : result A) : W A := fun w => (w, r).

Notation "x <- m ;; k" := (wbind m (fun x => k))
  (at level 61, m at next level, right associativity).
Notation "m ;;; k" := (wbind m (fun _ => k))
  (at level 61, right associativity).

(** A method call on the private cache. *)
Definition on_cache {A} (ev : event) (m : Engine.M pyobj pyobj T A) : W A :=
  fun w =>
    let '(c, r) := m (cache w) in
    (mkWorld c (user w) (trace w ++ [ev]), r).

(** [Optional[V]] as the Python value it is. *)
Definition of_optional (o : option pyobj) : pyobj :=
  match o with Some v => v | None => PyNone end.

(** [cache.get(key)] *)
Definition cache_get (key : pyobj) (now : T) : W pyobj :=
  o <- on_cache (CacheGet key) (Engine.get key now) ;;
  wret (of_optional o).

(** [cache.set(key, value)] *)
Definition cache_set (key value : pyobj) (now : T) : W unit :=
  on_cache (CacheSet key value) (Engine.set key value now).

(** The call of [func] on the arguments of the wrapper. *)
Definition invoke (func : pyfunc) (args : list pyobj)
           (kwargs : list (string * pyobj)) : W pyobj :=
  fun w =>
    let '(u, r) := func args kwargs (user w) in
    (mkWorld (cache w) u (trace w ++ [Invoked args kwargs]), r).

(** The body of [wrapper]; [now_get] and [now_set] are the clock
    readings inside [cache.get] and [cache.set]. *)
Definition wrapper (func : pyfunc) (args : list pyobj)
           (kwargs : list (string * pyobj)) (now_get now_set : T) : W pyobj :=
  key <- wlift (make_key args kwargs) ;;
  cached <- cache_get key now_get ;;
  if negb (is_None cached) then wret cached
  else
    value <- invoke func args kwargs ;;
    cache_set key value now_set ;;;
    wret value.

(** [cache_decorator(ttl, max_size)(func)]: a fresh cache and the wrapper
    closed over it. *)
Definition cache_decorator (ttl : option Z) (max_size : Z) (func : pyfunc)
           (u : U)
  : result (world * (list pyobj -> list (string * pyobj) -> T -> T -> W pyobj)) :=
  c <-? Engine.__init__ max_size ttl ;;
  inr (mkWorld c u [], wrapper func).

(** Every item stored under [key] holds [None]. *)
Definition only_None_under (key : pyobj) (c : Engine.LRUCache pyobj pyobj T)
  : Prop :=
  Forall (fun kv : pyobj * (pyobj * option T) =>
            key_eqb (fst kv) key = true -> fst (snd kv) = PyNone)
         (Engine.store c).

(** The cache after a call that has run [cache.get(key)] and then
    [cache.set(key, None)], the clock reading [gs] in the two. *)
Definition after_call (key : pyobj) (gs : T * T)
           (c : Engine.LRUCache pyobj pyobj T)
  : Engine.LRUCache pyobj pyobj T :=
  fst (Engine.set key PyNone (snd gs) (fst (Engine.get key (fst gs) c))).

(** How often the wrapped function ran. *)
Definition invocations (w : world) : nat :=
  List.length (filter is_Invoked (trace w)).

(** How often [cache.set] was called. *)
Definition set_calls (w : world) : nat :=
  List.length (filter is_CacheSet (trace w)).

(** Calls of the wrapper one after the other, all with the same
    arguments; the first that raises ends the run. *)
Fixpoint repeat_call (func : pyfunc) (args : list pyobj)
         (kwargs : list (string * pyobj)) (clock : list (T * T)) : W unit :=
  match clock with
  | [] => wret tt
  | (now_get, now_set) :: rest =>
      wrapper func args kwargs now_get now_set ;;;
      repeat_call func args kwargs rest
  end.

(** The same calls, with what each returned. *)
Fixpoint call_results (func : pyfunc) (args : list pyobj)
         (kwargs : list (string * pyobj)) (clock : list (T * T))
  : W (list pyobj) :=
  match clock with
  | [] => wret []
  | (now_get, now_set) :: rest =>
      v <- wrapper func args kwargs now_get now_set ;;
      vs <- call_results func args kwargs rest ;;
      wret (v :: vs)
  end.
End Decorator.

Arguments world : clear implicits.
Arguments pyfunc : clear implicits.
Arguments W : clear implicits.

End Memo.

(* ================================================================== *)
(** * Facts about the Python built-ins *)
(* ================================================================== *)

Module PyFacts.
Import Py.

Section NestedInduction.
Variable P : pyobj -> Prop.
Hypothesis HNone : P PyNone.
Hypothesis HInt : forall z, P (PyInt z).
Hypothesis HStr : forall s, P (PyStr s).
Hypothesis HTuple : forall l, Forall P l -> P (PyTuple l).
Hypothesis HList : forall l, Forall P l -> P (PyList l).
Hypothesis HDict :
  forall d, Forall (fun kv => P (fst kv) /\ P (snd kv)) d -> P (PyDict d).
Hypothesis HSet : forall l, Forall P l -> P (PySet l).
Hypothesis HFrozenset : forall l, Forall P l -> P (PyFrozenset l).
Hypothesis HObject : forall h i, P (PyObject h i).

(** Induction on a Python object that reaches the items of its
    containers. *)
Fixpoint pyobj_nested_ind (x : pyobj) : P x :=
  let items :=
    fix items (l : list pyobj) : Forall P l :=
      match l with
      | [] => Forall_nil _
      | a :: r => Forall_cons _ (pyobj_nested_ind a) (items r)
      end in
  match x with
  | PyNone => HNone
  | PyInt z => HInt z
  | PyStr s => HStr s
  | PyTuple l => HTuple l (items l)
  | PyList l => HList l (items l)
  | PyDict d =>
      HDict d
        ((fix pairs (l : list (pyobj * pyobj))
            : Forall (fun kv => P (fst kv) /\ P (snd kv)) l :=
            match l with
            | [] => Forall_nil _
            | (k, v) :: r =>
                Forall_cons (k, v)
                  (conj (pyobj_nested_ind k) (pyobj_nested_ind v)) (pairs r)
            end) d)
  | PySet l => HSet l (items l)
  | PyFrozenset l => HFrozenset l (items l)
  | PyObject h i => HObject h i
  end.
End NestedInduction.

Lemma seq_eq_refl (l : list pyobj) :
  Forall (fun a => py_eq a a = true) l -> seq_eq py_eq l l = true.
Proof.
  induction 1 as [|a r Ha _ IH]; simpl; [reflexivity|].
  now rewrite Ha, IH.
Qed.

Lemma subset_refl (l : list pyobj) :
  Forall (fun a => py_eq a a = true) l ->
  forallb (fun a => existsb (fun b => py_eq a b) l) l = true.
Proof.
  intros HF. apply forallb_forall. intros a Ha.
  apply existsb_exists. exists a. split; [exact Ha|].
  rewrite Forall_forall in HF. now apply HF.
Qed.

Lemma subset_refl_flip (l : list pyobj) :
  Forall (fun a => py_eq a a = true) l ->
  forallb (fun b => existsb (fun a => py_eq a b) l) l = true.
Proof.
  intros HF. apply forallb_forall. intros a Ha.
  apply existsb_exists. exists a. split; [exact Ha|].
  rewrite Forall_forall in HF. now apply HF.
Qed.

(** [x == x] holds of every modelled object. *)
Lemma py_eq_refl (x : pyobj) : py_eq x x = true.
Proof.
  induction x as [ | z | s | l IH | l IH | d IH | l IH | l IH | h i ]
    using pyobj_nested_ind; simpl.
  - reflexivity.
  - apply Z.eqb_refl.
  - apply String.eqb_refl.
  - now apply seq_eq_refl.
  - now apply seq_eq_refl.
  - assert (Hd : forallb (fun kv2 : pyobj * pyobj =>
                   existsb (fun kv1 : pyobj * pyobj =>
                              py_eq (fst kv1) (fst kv2)
                              && py_eq (snd kv1) (snd kv2)) d) d = true).
    { apply forallb_forall. intros kv Hkv. apply existsb_exists.
      exists kv. split; [exact Hkv|].
      rewrite Forall_forall in IH. destruct (IH kv Hkv) as [Hk Hv].
      now rewrite Hk, Hv. }
    assert (Hd' : forallb (fun kv1 : pyobj * pyobj =>
                   existsb (fun kv2 : pyobj * pyobj =>
                              py_eq (fst kv1) (fst kv2)
                              && py_eq (snd kv1) (snd kv2)) d) d = true).
    { apply forallb_forall. intros kv Hkv. apply existsb_exists.
      exists kv. split; [exact Hkv|].
      rewrite Forall_forall in IH. destruct (IH kv Hkv) as [Hk Hv].
      now rewrite Hk, Hv. }
    now rewrite Hd, Hd'.
  - now rewrite subset_refl, subset_refl_flip.
  - now rewrite subset_refl, subset_refl_flip.
  - apply Nat.eqb_refl.
Qed.

(** ** Errors *)

Lemma seq_lt_error (l1 : list pyobj) :
  Forall (fun a => forall b e, py_lt a b = inl e -> e = not_orderable) l1 ->
  forall l2 e, seq_lt py_eq py_lt l1 l2 = inl e -> e = not_orderable.
Proof.
  induction 1 as [|a r Ha _ IH]; intros [|b l2] e; simpl; try discriminate.
  destruct (py_eq a b); [apply IH | apply Ha].
Qed.

(** The only thing [<] raises is the TypeError of unorderable operands. *)
Lemma py_lt_error (x y : pyobj) (e : exn) :
  py_lt x y = inl e -> e = not_orderable.
Proof.
  revert y e.
  induction x as [ | z | s | l IH | l IH | d IH | l IH | l IH | h i ]
    using pyobj_nested_ind; intros y e; destruct y; simpl;
    try discriminate; try (intros [= <-]; reflexivity).
  - now apply seq_lt_error.
  - now apply seq_lt_error.
Qed.

Lemma insert_sorted_error (x : pyobj) (l : list pyobj) (e : exn) :
  insert_sorted x l = inl e -> e = not_orderable.
Proof.
  induction l as [|y r IH]; simpl; [discriminate|].
  destruct (py_lt x y) as [e'|[|]] eqn:Hlt.
  - intros [= <-]. eapply py_lt_error; eassumption.
  - discriminate.
  - destruct (insert_sorted x r); [intros [= <-]; now apply IH | discriminate].
Qed.

Lemma sorted_onto_error (l acc : list pyobj) (e : exn) :
  sorted_onto acc l = inl e -> e = not_orderable.
Proof.
  revert acc. induction l as [|x r IH]; intros acc; simpl; [discriminate|].
  destruct (insert_sorted x acc) as [e'|acc'] eqn:Hins.
  - intros [= <-]. eapply insert_sorted_error; eassumption.
  - apply IH.
Qed.

Lemma sorted_error (l : list pyobj) (e : exn) :
  sorted l = inl e -> e = not_orderable.
Proof. apply sorted_onto_error. Qed.

(** ** mapM *)

Lemma mapM_error_inv {A B} (f : A -> result B) (l : list A) (e : exn) :
  mapM f l = inl e -> exists x, In x l /\ f x = inl e.
Proof.
  induction l as [|x r IH]; simpl; [discriminate|].
  destruct (f x) as [e'|y] eqn:Hx.
  - intros [= <-]. exists x. auto.
  - destruct (mapM f r) as [e'|ys]; [|discriminate].
    intros [= <-]. destruct (IH eq_refl) as (x' & Hin & Hx').
    exists x'. auto.
Qed.

Lemma mapM_fails {A B} (f : A -> result B) (l : list A) (x : A) (e : exn) :
  In x l -> f x = inl e -> exists e', mapM f l = inl e'.
Proof.
  induction l as [|y r IH]; simpl; [tauto|].
  intros [<-|Hin] Hx.
  - rewrite Hx. eauto.
  - destruct (f y) as [e'|y']; [eauto|].
    destruct (IH Hin Hx) as [e' ->]. eauto.
Qed.

Lemma mapM_ok_Forall2 {A B} (f : A -> result B) (l : list A) (ys : list B) :
  mapM f l = inr ys <-> Forall2 (fun x y => f x = inr y) l ys.
Proof.
  revert ys. induction l as [|x r IH]; intros ys; simpl.
  - split.
    + intros [= <-]. constructor.
    + intros HF. inversion HF. reflexivity.
  - split.
    + destruct (f x) as [e|y] eqn:Hx; [discriminate|].
      destruct (mapM f r) as [e|ys'] eqn:Hr; [discriminate|].
      intros [= <-]. constructor; [exact Hx | now apply IH].
    + intros HF. inversion HF as [|x' y l' ys' Hx Hr]; subst.
      rewrite Hx. apply IH in Hr. now rewrite Hr.
Qed.

(** The items of a generator may come in another order: it still yields
    the same results, in that other order. *)
Lemma mapM_Permutation {A B} (f : A -> result B) (l1 l2 : list A) :
  Permutation l1 l2 ->
  forall ys1, mapM f l1 = inr ys1 ->
  exists ys2, mapM f l2 = inr ys2 /\ Permutation ys1 ys2.
Proof.
  induction 1 as [ | x l1 l2 _ IH | x y l | l1 l2 l3 _ IH1 _ IH2 ];
    intros ys1; simpl.
  - intros [= <-]. exists []. auto.
  - destruct (f x) as [e|y]; [discriminate|].
    destruct (mapM f l1) as [e|ys] eqn:H1; [discriminate|].
    intros [= <-]. destruct (IH ys eq_refl) as (ys2 & -> & Hp).
    exists (y :: ys2). auto.
  - destruct (f y) as [e|y']; [discriminate|].
    destruct (f x) as [e|x']; [discriminate|].
    destruct (mapM f l) as [e|ys]; [discriminate|].
    intros [= <-]. exists (x' :: y' :: ys). split; [reflexivity|].
    apply perm_swap.
  - intros H1. destruct (IH1 ys1 H1) as (ys2 & H2 & Hp12).
    destruct (IH2 ys2 H2) as (ys3 & H3 & Hp23).
    exists ys3. split; [exact H3|]. now transitivity ys2.
Qed.

End PyFacts.

(* ================================================================== *)
(** * Canonical form of keyword arguments *)
(* ================================================================== *)

Module KwargsFacts.
Import Py Memo.

(** ** The order of strings *)

Lemma ltb_irrefl (a : string) : String.ltb a a = false.
Proof.
  unfold String.ltb. destruct (String.compare a a) eqn:Hc; try reflexivity.
  pose proof (String.compare_antisym a a) as Ha. rewrite Hc in Ha.
  discriminate.
Qed.

Lemma ltb_trans (a b c : string) :
  String.ltb a b = true -> String.ltb b c = true -> String.ltb a c = true.
Proof.
  unfold String.ltb.
  destruct (String.compare a b) eqn:Hab; try discriminate.
  destruct (String.compare b c) eqn:Hbc; try discriminate.
  intros _ _.
  apply String_as_OT.cmp_lt in Hab, Hbc.
  pose proof (String_as_OT.lt_trans _ _ _ Hab Hbc) as Hac.
  apply String_as_OT.cmp_lt in Hac. unfold String_as_OT.cmp in Hac.
  now rewrite Hac.
Qed.

Lemma ltb_total (a b : string) :
  a <> b -> String.ltb a b = false -> String.ltb b a = true.
Proof.
  unfold String.ltb. intros Hne.
  rewrite (String.compare_antisym b a).
  destruct (String.compare a b) eqn:Hab; simpl; try discriminate.
  - apply String.compare_eq_iff in Hab. contradiction.
  - reflexivity.
Qed.

(** ** Sorted lists of named items *)

Lemma name_lt_trans (x y z : string * pyobj) :
  name_lt x y -> name_lt y z -> name_lt x z.
Proof. unfold name_lt. apply ltb_trans. Qed.

(** Two ascending lists with the same items are the same list. *)
Lemma sorted_unique (l1 l2 : list (string * pyobj)) :
  StronglySorted name_lt l1 -> StronglySorted name_lt l2 ->
  Permutation l1 l2 -> l1 = l2.
Proof.
  revert l2. induction l1 as [|a r1 IH]; intros l2 H1 H2 Hp.
  - apply Permutation_nil in Hp. now subst.
  - destruct l2 as [|b r2].
    { apply Permutation_sym, Permutation_nil in Hp. discriminate. }
    apply StronglySorted_inv in H1 as [Hr1 Ha].
    apply StronglySorted_inv in H2 as [Hr2 Hb].
    assert (Hab : a = b).
    { assert (Hin_a : In a (b :: r2))
        by (eapply Permutation_in; [exact Hp | now left]).
      assert (Hin_b : In b (a :: r1))
        by (eapply Permutation_in;
            [apply Permutation_sym; exact Hp | now left]).
      destruct Hin_a as [Hba|Hin_a]; [now symmetry|].
      destruct Hin_b as [Hab|Hin_b]; [exact Hab|].
      rewrite Forall_forall in Ha, Hb.
      pose proof (name_lt_trans _ _ _ (Ha _ Hin_b) (Hb _ Hin_a)) as Haa.
      unfold name_lt in Haa. rewrite ltb_irrefl in Haa. discriminate. }
    subst b. f_equal. apply IH; try assumption.
    eapply Permutation_cons_inv. exact Hp.
Qed.

(** ** [<] and [sorted] on named items *)

Lemma py_lt_kw_pair (x y : string * pyobj) :
  fst x <> fst y ->
  py_lt (kw_pair x) (kw_pair y) = inr (String.ltb (fst x) (fst y)).
Proof.
  intros Hne. unfold kw_pair. simpl.
  apply String.eqb_neq in Hne. now rewrite Hne.
Qed.

Lemma insert_sorted_kw (x : string * pyobj) (l : list (string * pyobj)) :
  ~ In (fst x) (map fst l) -> StronglySorted name_lt l ->
  exists l', insert_sorted (kw_pair x) (map kw_pair l) = inr (map kw_pair l')
             /\ Permutation (x :: l) l' /\ StronglySorted name_lt l'.
Proof.
  induction l as [|y r IH]; intros Hnin Hs.
  - exists [x]. simpl. repeat split; auto. constructor; constructor.
  - simpl in Hnin.
    assert (Hne : fst x <> fst y) by (intros Heq; apply Hnin; now left).
    assert (Hnin' : ~ In (fst x) (map fst r))
      by (intros Hin; apply Hnin; now right).
    pose proof Hs as Hs0.
    apply StronglySorted_inv in Hs as [Hr Hy].
    cbn [map insert_sorted]. rewrite (py_lt_kw_pair x y Hne).
    destruct (String.ltb (fst x) (fst y)) eqn:Hlt.
    + exists (x :: y :: r). repeat split; auto.
      constructor; [exact Hs0|].
      constructor; [exact Hlt|].
      eapply Forall_impl; [|exact Hy].
      intros z Hz. eapply name_lt_trans; [exact Hlt | exact Hz].
    + destruct (IH Hnin' Hr) as (r' & -> & Hp & Hs').
      exists (y :: r'). repeat split.
      * apply perm_trans with (y :: x :: r); [apply perm_swap|].
        now apply perm_skip.
      * constructor; [exact Hs'|].
        eapply Permutation_Forall; [exact Hp|].
        constructor; [|exact Hy].
        apply ltb_total; [congruence | exact Hlt].
Qed.

Lemma sorted_onto_kw (l acc : list (string * pyobj)) :
  NoDup (map fst (acc ++ l)) -> StronglySorted name_lt acc ->
  exists s, sorted_onto (map kw_pair acc) (map kw_pair l) = inr (map kw_pair s)
            /\ Permutation (acc ++ l) s /\ StronglySorted name_lt s.
Proof.
  revert acc. induction l as [|x r IH]; intros acc Hnd Hs.
  - exists acc. rewrite app_nil_r. simpl. auto.
  - assert (Hnin : ~ In (fst x) (map fst acc)).
    { rewrite map_app in Hnd. simpl in Hnd.
      apply NoDup_remove_2 in Hnd. intros Hin. apply Hnd.
      apply in_or_app. now left. }
    destruct (insert_sorted_kw x acc Hnin Hs) as (acc' & Hins & Hp & Hs').
    cbn [map sorted_onto]. rewrite Hins.
    assert (Hperm : Permutation (acc ++ x :: r) (acc' ++ r)).
    { apply perm_trans with ((x :: acc) ++ r).
      - apply Permutation_sym. apply Permutation_middle.
      - now apply Permutation_app_tail. }
    destruct (IH acc') as (s & Hso & Hps & Hss).
    + eapply Permutation_NoDup; [|exact Hnd].
      now apply Permutation_map.
    + exact Hs'.
    + exists s. repeat split; auto.
      now apply perm_trans with (acc' ++ r).
Qed.

(** On items with distinct names [sorted] returns them in ascending order
    of name. *)
Lemma sorted_kw (l : list (string * pyobj)) :
  NoDup (map fst l) ->
  exists s, sorted (map kw_pair l) = inr (map kw_pair s)
            /\ Permutation l s /\ StronglySorted name_lt s.
Proof.
  intros Hnd. apply (sorted_onto_kw l []); [exact Hnd | constructor].
Qed.

(** ** [make_hashable] on a keyword dict *)

Lemma canon_kw_names (kw hvs : list (string * pyobj)) :
  canon_kw kw = inr hvs -> map fst hvs = map fst kw.
Proof.
  unfold canon_kw. revert hvs. induction kw as [|[k v] r IH]; intros hvs; simpl.
  - intros [= <-]. reflexivity.
  - destruct (make_hashable v) as [e|hv]; [discriminate|]. simpl.
    destruct (mapM _ r) as [e|hr]; [discriminate|].
    intros [= <-]. simpl. f_equal. now apply IH.
Qed.

(** The generator of the [dict] branch, on a keyword dict. *)
Lemma dict_items_kw (kw : list (string * pyobj)) :
  mapM (fun kv : pyobj * pyobj =>
          let '(k, v) := kv in
          rbind (make_hashable k) (fun hk =>
          rbind (make_hashable v) (fun hv => inr (PyTuple [hk; hv]))))
       (map (fun kv : string * pyobj => (PyStr (fst kv), snd kv)) kw)
  = rbind (canon_kw kw) (fun hvs => inr (map kw_pair hvs)).
Proof.
  unfold canon_kw. induction kw as [|[k v] r IH]; simpl; [reflexivity|].
  destruct (make_hashable v) as [e|hv]; [reflexivity|]. simpl.
  rewrite IH. destruct (mapM _ r); reflexivity.
Qed.

Lemma make_hashable_kwargs (kw : list (string * pyobj)) :
  make_hashable (kwargs_dict kw)
  = rbind (canon_kw kw) (fun hvs =>
    rbind (sorted (map kw_pair hvs)) (fun s => inr (PyTuple s))).
Proof.
  unfold kwargs_dict. cbn [make_hashable]. rewrite dict_items_kw.
  destruct (canon_kw kw); reflexivity.
Qed.

(** The canonical form of a keyword dict is the tuple of its items, values
    canonicalized, in ascending order of name. *)
Lemma make_hashable_kwargs_sorted (kw : list (string * pyobj)) (c : pyobj) :
  NoDup (map fst kw) ->
  make_hashable (kwargs_dict kw) = inr c ->
  exists hvs s, canon_kw kw = inr hvs /\ Permutation hvs s
                /\ StronglySorted name_lt s /\ c = PyTuple (map kw_pair s).
Proof.
  intros Hnd. rewrite make_hashable_kwargs.
  destruct (canon_kw kw) as [e|hvs] eqn:Hc; [discriminate|]. simpl.
  destruct (sorted_kw hvs) as (s & Hs & Hp & Hss).
  { now rewrite (canon_kw_names kw hvs Hc). }
  rewrite Hs. simpl. intros [= <-]. eauto 6.
Qed.

Lemma make_hashable_kwargs_perm (kw1 kw2 : list (string * pyobj)) (c : pyobj) :
  Permutation kw1 kw2 -> NoDup (map fst kw1) ->
  make_hashable (kwargs_dict kw1) = inr c ->
  make_hashable (kwargs_dict kw2) = inr c.
Proof.
  intros Hp Hnd H1.
  destruct (make_hashable_kwargs_sorted kw1 c Hnd H1)
    as (hvs1 & s1 & Hc1 & Hp1 & Hs1 & ->).
  destruct (PyFacts.mapM_Permutation _ kw1 kw2 Hp hvs1 Hc1)
    as (hvs2 & Hc2 & Hp12).
  fold (canon_kw kw2) in Hc2.
  rewrite make_hashable_kwargs, Hc2. simpl.
  destruct (sorted_kw hvs2) as (s2 & Hso2 & Hp2 & Hs2).
  { rewrite (canon_kw_names kw2 hvs2 Hc2).
    eapply Permutation_NoDup; [|exact Hnd]. now apply Permutation_map. }
  rewrite Hso2. simpl. do 3 f_equal.
  apply sorted_unique; try assumption.
  apply perm_trans with hvs2; [now apply Permutation_sym|].
  apply perm_trans with hvs1; [now apply Permutation_sym | exact Hp1].
Qed.

End KwargsFacts.

(* ================================================================== *)
(** * Facts about the ordered dictionary *)
(* ================================================================== *)

Module ODFacts.
Import Py.

Section Lookup.
Context {K E : Type} `{KeyEq K}.
Implicit Types (d : OD.t K E) (key k : K) (e : E).

Lemma lookup_key key d k e :
  OD.lookup key d = Some (k, e) -> key_eqb k key = true.
Proof.
  induction d as [|[k0 e0] r IH]; simpl; [discriminate|].
  destruct (key_eqb k0 key) eqn:Hk; [|exact IH].
  intros [= <- <-]. exact Hk.
Qed.

Lemma contains_lookup key d :
  OD.contains key d = true <-> exists kv, OD.lookup key d = Some kv.
Proof.
  unfold OD.contains. destruct (OD.lookup key d) as [kv|].
  - split; eauto.
  - split; [discriminate | intros [kv Hkv]; discriminate].
Qed.

Lemma contains_false_lookup key d :
  OD.contains key d = false <-> OD.lookup key d = None.
Proof.
  unfold OD.contains. destruct (OD.lookup key d); split;
    congruence || discriminate.
Qed.

Lemma length_remove_le key d :
  (List.length (OD.remove key d) <= List.length d)%nat.
Proof.
  induction d as [|[k0 e0] r IH]; simpl; [lia|].
  destruct (key_eqb k0 key); simpl; lia.
Qed.

Lemma length_remove key d kv :
  OD.lookup key d = Some kv ->
  S (List.length (OD.remove key d)) = List.length d.
Proof.
  induction d as [|[k0 e0] r IH]; simpl; [discriminate|].
  destruct (key_eqb k0 key); simpl; [reflexivity|].
  intros Hl. now rewrite (IH Hl).
Qed.

Lemma length_setitem_le key e d :
  (List.length (OD.setitem key e d) <= S (List.length d))%nat.
Proof.
  induction d as [|[k0 e0] r IH]; simpl; [lia|].
  destruct (key_eqb k0 key); simpl; lia.
Qed.

Lemma length_setitem_present key e d :
  OD.contains key d = true ->
  List.length (OD.setitem key e d) = List.length d.
Proof.
  unfold OD.contains.
  induction d as [|[k0 e0] r IH]; simpl; [discriminate|].
  destruct (key_eqb k0 key); simpl; [reflexivity|].
  intros Hc. now rewrite IH.
Qed.

(** Assigning to a key that is not there appends the item. *)
Lemma setitem_absent key e d :
  OD.lookup key d = None -> OD.setitem key e d = d ++ [(key, e)].
Proof.
  induction d as [|[k0 e0] r IH]; simpl; [reflexivity|].
  destruct (key_eqb k0 key); [discriminate|].
  intros Hl. now rewrite IH.
Qed.

(** Assigning to a key whose only item is the last one replaces the value
    there. *)
Lemma setitem_last key e d k e0 :
  OD.lookup key d = None -> key_eqb k key = true ->
  OD.setitem key e (d ++ [(k, e0)]) = d ++ [(k, e)].
Proof.
  intros Hl Hk. induction d as [|[k0 e1] r IH]; simpl in *.
  - now rewrite Hk.
  - destruct (key_eqb k0 key); [discriminate|]. now rewrite IH.
Qed.

(** What was just assigned is what a lookup finds. *)
Lemma lookup_setitem key e d :
  key_eqb key key = true ->
  exists k, OD.lookup key (OD.setitem key e d) = Some (k, e).
Proof.
  intros Hrefl. induction d as [|[k0 e0] r IH]; simpl.
  - rewrite Hrefl. eauto.
  - destruct (key_eqb k0 key) eqn:Hk; simpl; rewrite Hk; eauto.
Qed.

Lemma lookup_app_absent key d1 d2 :
  OD.lookup key d1 = None -> OD.lookup key (d1 ++ d2) = OD.lookup key d2.
Proof.
  induction d1 as [|[k0 e0] r IH]; simpl; [reflexivity|].
  destruct (key_eqb k0 key); [discriminate | exact IH].
Qed.

Lemma lookup_app_present key d1 d2 kv :
  OD.lookup key d1 = Some kv -> OD.lookup key (d1 ++ d2) = Some kv.
Proof.
  induction d1 as [|[k0 e0] r IH]; simpl; [discriminate|].
  destruct (key_eqb k0 key); [trivial | exact IH].
Qed.

Lemma lookup_app_none key d1 d2 :
  OD.lookup key (d1 ++ d2) = None -> OD.lookup key d2 = None.
Proof.
  induction d1 as [|[k0 e0] r IH]; simpl; [trivial|].
  destruct (key_eqb k0 key); [discriminate | exact IH].
Qed.

Lemma lookup_In key d kv : OD.lookup key d = Some kv -> In kv d.
Proof.
  induction d as [|[k0 e0] r IH]; simpl; [discriminate|].
  destruct (key_eqb k0 key).
  - intros [= <-]. now left.
  - intros Hl. right. now apply IH.
Qed.

Lemma Forall_remove (P : K * E -> Prop) key d :
  Forall P d -> Forall P (OD.remove key d).
Proof.
  induction 1 as [|[k0 e0] r Hx Hr IH]; simpl; [constructor|].
  destruct (key_eqb k0 key); [assumption | now constructor].
Qed.

Lemma Forall_setitem (P : K * E -> Prop) key e d :
  (forall k, P (k, e)) -> Forall P d -> Forall P (OD.setitem key e d).
Proof.
  intros He. induction 1 as [|[k0 e0] r Hx Hr IH]; simpl.
  - constructor; [apply He | constructor].
  - destruct (key_eqb k0 key); constructor; auto.
Qed.
End Lookup.

Section UniqueKeys.
Context {K E : Type} {HK : KeyEq K} {HL : KeyEqLaws K}.
Implicit Types (d : OD.t K E) (key k : K) (e : E).

Lemma lookup_congr key k d :
  key_eqb key k = true ->
  OD.lookup key d = None -> OD.lookup k d = None.
Proof.
  intros Hk. induction d as [|[k0 e0] r IH]; simpl; [reflexivity|].
  destruct (key_eqb k0 key) eqn:Hk0; [discriminate|].
  destruct (key_eqb k0 k) eqn:Hk1; [|exact IH].
  exfalso. rewrite (key_eqb_sym key k) in Hk.
  rewrite (key_eqb_trans k0 k key Hk1 Hk) in Hk0. discriminate.
Qed.

(** In a dictionary, deleting a key leaves no item under it. *)
Lemma lookup_remove key d :
  OD.unique_keys d = true -> OD.lookup key (OD.remove key d) = None.
Proof.
  induction d as [|[k0 e0] r IH]; simpl; [reflexivity|].
  intros Hu. apply andb_true_iff in Hu as [Hk0 Hr].
  destruct (key_eqb k0 key) eqn:Hk.
  - apply negb_true_iff, contains_false_lookup in Hk0.
    eapply lookup_congr; [|exact Hk0]. exact Hk.
  - simpl. rewrite Hk. now apply IH.
Qed.
End UniqueKeys.

End ODFacts.

(* ================================================================== *)
(** * Facts about the cache engine *)
(* ================================================================== *)

Module EngineFacts.
Import Py Engine.

Section Methods.
Context {K V T : Type} {HK : KeyEq K} {HC : Clock T}.
Implicit Types (c : LRUCache K V T) (st : OD.t K (V * option T)).
Implicit Types (key : K) (value : V) (now : T).

(** ** The eviction loop *)

(** What the loop pops is a prefix of the store, and it counts it. *)
Lemma evict_loop_pops m st ev st' ev' r :
  evict_loop m st ev = ((st', ev'), r) ->
  exists popped, st = popped ++ st' /\ ev' = ev + OD.len popped.
Proof.
  revert ev. induction st as [|kv rest IH]; intros ev; simpl.
  - destruct (OD.len [] >? m); intros [= <- <- _]; exists []; simpl;
      split; (reflexivity || (unfold OD.len; simpl; lia)).
  - destruct (OD.len (kv :: rest) >? m).
    + intros Hl. destruct (IH _ Hl) as (popped & -> & ->).
      exists (kv :: popped). split; [reflexivity|].
      unfold OD.len. simpl List.length. lia.
    + intros [= <- <- _]. exists []. split; [reflexivity|].
      unfold OD.len. simpl. lia.
Qed.

(** With a capacity of zero or more the loop returns, and the store has
    come down to the capacity. *)
Lemma evict_loop_returns m st ev :
  0 <= m ->
  exists st' ev', evict_loop m st ev = ((st', ev'), inr tt)
                  /\ OD.len st' <= m
                  /\ (OD.len st <= m -> st' = st /\ ev' = ev).
Proof.
  intros Hm. revert ev. induction st as [|kv rest IH]; intros ev.
  - simpl. unfold OD.len. simpl.
    destruct (0 >? m) eqn:Hgt; [lia|].
    exists [], ev. repeat split; simpl; lia.
  - cbn [evict_loop].
    destruct (OD.len (kv :: rest) >? m) eqn:Hgt.
    + destruct (IH (ev + 1)) as (st' & ev' & Heq & Hle & _).
      exists st', ev'. repeat split; try assumption; lia.
    + exists (kv :: rest), ev. repeat split; lia.
Qed.

(** With a negative capacity the loop empties the store and then pops the
    empty store. *)
Lemma evict_loop_raises m st ev :
  m < 0 ->
  evict_loop m st ev = (([], ev + OD.len st), inl dictionary_is_empty).
Proof.
  intros Hm. revert ev. induction st as [|kv rest IH]; intros ev.
  - simpl. unfold OD.len. simpl.
    destruct (0 >? m) eqn:Hgt; [|lia]. now rewrite Z.add_0_r.
  - cbn [evict_loop].
    assert (Hgt : (OD.len (kv :: rest) >? m) = true)
      by (apply Z.gtb_lt; unfold OD.len; lia).
    rewrite Hgt, IH. do 2 f_equal.
    unfold OD.len. simpl List.length. lia.
Qed.

(** The loop keeps a last item when the capacity is positive. *)
Lemma evict_loop_keeps_last m (front : OD.t K (V * option T))
      (last_item : K * (V * option T)) ev :
  0 < m ->
  exists front' ev',
    evict_loop m (front ++ [last_item]) ev
    = ((front' ++ [last_item], ev'), inr tt).
Proof.
  intros Hm. revert ev. induction front as [|kv rest IH]; intros ev.
  - simpl. unfold OD.len. simpl.
    destruct (1 >? m) eqn:Hgt; [lia|]. exists [], ev. reflexivity.
  - cbn [app evict_loop].
    destruct (OD.len (kv :: rest ++ [last_item]) >? m).
    + apply IH.
    + exists (kv :: rest), ev. reflexivity.
Qed.

(** ** The methods as equations *)

Lemma _evict_if_needed_eq c :
  _evict_if_needed c =
  (mkLRUCache (max_size c) (ttl c)
     (fst (fst (evict_loop (max_size c) (store c) (evictions c))))
     (hits c) (misses c)
     (snd (fst (evict_loop (max_size c) (store c) (evictions c)))),
   snd (evict_loop (max_size c) (store c) (evictions c))).
Proof.
  unfold _evict_if_needed.
  now destruct (evict_loop (max_size c) (store c) (evictions c)) as [[st ev] r].
Qed.

Lemma set_eq key value now c :
  set key value now c =
  _evict_if_needed (with_store (store_after_assign c key value now) c).
Proof.
  unfold set, store_after_assign, expiration, bind, read, lift, write_store,
    ret, OD.contains, OD.move_to_end.
  destruct (OD.lookup key (store c)) as [kv|]; reflexivity.
Qed.

Lemma resize_eq n c :
  resize n c =
  _evict_if_needed (mkLRUCache n (ttl c) (store c) (hits c) (misses c)
                               (evictions c)).
Proof. reflexivity. Qed.

Lemma get_absent key now c :
  OD.lookup key (store c) = None ->
  get key now c =
  (mkLRUCache (max_size c) (ttl c) (store c) (hits c) (misses c + 1)
              (evictions c), inr None).
Proof.
  intros Hl. unfold get, bind, read, incr_misses, ret, OD.contains.
  now rewrite Hl.
Qed.

Lemma get_expired key now c k value t :
  OD.lookup key (store c) = Some (k, (value, t)) ->
  _is_expired now t = true ->
  get key now c =
  (mkLRUCache (max_size c) (ttl c) (OD.remove key (store c)) (hits c)
              (misses c + 1) (evictions c), inr None).
Proof.
  intros Hl Hx.
  unfold get, bind, read, lift, write_store, incr_misses, ret, with_store,
    OD.contains, OD.getitem, OD.delitem, OD.contains.
  rewrite Hl. simpl. now rewrite Hx.
Qed.

Lemma get_live key now c k value t :
  OD.lookup key (store c) = Some (k, (value, t)) ->
  _is_expired now t = false ->
  get key now c =
  (mkLRUCache (max_size c) (ttl c)
              (OD.remove key (store c) ++ [(k, (value, t))])
              (hits c + 1) (misses c) (evictions c), inr (Some value)).
Proof.
  intros Hl Hx.
  unfold get, bind, read, lift, write_store, incr_hits, ret, with_store,
    OD.contains, OD.getitem, OD.move_to_end.
  rewrite Hl. simpl. now rewrite Hx.
Qed.

(** [get] never raises, never grows the store, and leaves the capacity and
    the eviction counter alone. *)
Lemma get_returns key now c :
  exists c' o, get key now c = (c', inr o)
               /\ max_size c' = max_size c /\ ttl c' = ttl c
               /\ evictions c' = evictions c
               /\ OD.len (store c') <= OD.len (store c).
Proof.
  destruct (OD.lookup key (store c)) as [[k [value t]]|] eqn:Hl.
  - destruct (_is_expired now t) eqn:Hx.
    + rewrite (get_expired key now c k value t Hl Hx).
      do 2 eexists. split; [reflexivity|]. simpl. repeat split.
      unfold OD.len. pose proof (ODFacts.length_remove_le key (store c)). lia.
    + rewrite (get_live key now c k value t Hl Hx).
      do 2 eexists. split; [reflexivity|]. simpl. repeat split.
      unfold OD.len. rewrite length_app. simpl.
      pose proof (ODFacts.length_remove key (store c) _ Hl). lia.
  - rewrite (get_absent key now c Hl).
    do 2 eexists. split; [reflexivity|]. simpl. repeat split. lia.
Qed.

Lemma __contains___returns key now c :
  exists c' b, __contains__ key now c = (c', inr b)
               /\ max_size c' = max_size c
               /\ OD.len (store c') <= OD.len (store c).
Proof.
  unfold __contains__, bind, read, lift, write_store, ret, with_store,
    OD.contains, OD.getitem, OD.delitem, OD.contains.
  destruct (OD.lookup key (store c)) as [[k [value t]]|] eqn:Hl; simpl.
  - destruct (_is_expired now t); rewrite ?Hl; simpl.
    + do 2 eexists. split; [reflexivity|]. simpl. split; [reflexivity|].
      unfold OD.len. pose proof (ODFacts.length_remove_le key (store c)). lia.
    + do 2 eexists. split; [reflexivity|]. split; [reflexivity|]. lia.
  - do 2 eexists. split; [reflexivity|]. split; [reflexivity|]. lia.
Qed.

Lemma delete_returns key c :
  exists c' b, delete key c = (c', inr b)
               /\ max_size c' = max_size c
               /\ OD.len (store c') <= OD.len (store c).
Proof.
  unfold delete, bind, read, lift, write_store, ret, with_store,
    OD.delitem, OD.contains.
  destruct (OD.lookup key (store c)) as [kv|] eqn:Hl; simpl.
  - do 2 eexists. split; [reflexivity|]. simpl. split; [reflexivity|].
    unfold OD.len. pose proof (ODFacts.length_remove_le key (store c)). lia.
  - do 2 eexists. split; [reflexivity|]. split; [reflexivity|]. lia.
Qed.

Lemma clear_eq c :
  clear c =
  (mkLRUCache (max_size c) (ttl c) [] (hits c) (misses c) (evictions c),
   inr tt).
Proof. reflexivity. Qed.

Lemma stats_eq c :
  stats c = (c, inr (mkStats (hits c) (misses c) (evictions c)
                             (OD.len (store c)))).
Proof. reflexivity. Qed.

(** With a capacity of zero or more the eviction step returns and
    establishes the bound. *)
Lemma _evict_if_needed_returns c :
  0 <= max_size c ->
  exists c', _evict_if_needed c = (c', inr tt)
             /\ max_size c' = max_size c /\ ttl c' = ttl c
             /\ hits c' = hits c /\ misses c' = misses c
             /\ current_size c' <= max_size c'.
Proof.
  intros Hm. rewrite _evict_if_needed_eq.
  destruct (evict_loop_returns (max_size c) (store c) (evictions c) Hm)
    as (st' & ev' & -> & Hle & _).
  eexists. split; [reflexivity|]. simpl. repeat split. exact Hle.
Qed.

Lemma set_returns key value now c :
  0 <= max_size c ->
  exists c', set key value now c = (c', inr tt)
             /\ max_size c' = max_size c
             /\ current_size c' <= max_size c'.
Proof.
  intros Hm. rewrite set_eq.
  destruct (_evict_if_needed_returns
              (with_store (store_after_assign c key value now) c) Hm)
    as (c' & -> & Hmax & _ & _ & _ & Hle).
  exists c'. auto.
Qed.

(** With a positive capacity, a [set] on a key that is not there leaves
    the new entry in the store, under that key. *)
Lemma set_stores key value now c :
  OD.lookup key (store c) = None -> 0 < max_size c ->
  key_eqb key key = true ->
  exists c', set key value now c = (c', inr tt)
             /\ max_size c' = max_size c
             /\ OD.lookup key (store c')
                = Some (key, (value, expiration c now)).
Proof.
  intros Hl Hm Hrefl.
  rewrite set_eq, _evict_if_needed_eq. unfold store_after_assign.
  rewrite Hl, (ODFacts.setitem_absent key _ (store c) Hl).
  cbn [with_store max_size store ttl hits misses evictions].
  destruct (evict_loop_keeps_last (max_size c) (store c)
              (key, (value, expiration c now)) (evictions c) Hm)
    as (front & ev & He).
  destruct (evict_loop_pops _ _ _ _ _ _ He) as (popped & Hst & _).
  rewrite app_assoc in Hst. apply app_inv_tail in Hst.
  rewrite He. eexists. split; [reflexivity|]. simpl. split; [reflexivity|].
  rewrite Hst in Hl. apply ODFacts.lookup_app_none in Hl.
  rewrite (ODFacts.lookup_app_absent key front _ Hl). simpl.
  now rewrite Hrefl.
Qed.

Lemma resize_returns n c :
  0 <= n ->
  exists c', resize n c = (c', inr tt)
             /\ max_size c' = n /\ current_size c' <= max_size c'.
Proof.
  intros Hn. rewrite resize_eq.
  destruct (_evict_if_needed_returns
              (mkLRUCache n (ttl c) (store c) (hits c) (misses c)
                          (evictions c)) Hn)
    as (c' & -> & Hmax & _ & _ & _ & Hle).
  exists c'. auto.
Qed.

(** ** The capacity bound along a run *)

Lemma call_bounded (o : op K V T) c :
  bounded c -> resize_positive o ->
  exists c', call o c = (c', inr tt) /\ bounded c'.
Proof.
  unfold bounded, current_size. intros [Hm Hle] Ho.
  destruct o as [key value now|key now|key now|key| |n| ]; simpl in *.
  - destruct (set_returns key value now c Hm) as (c' & -> & Hmax & Hb).
    exists c'. unfold current_size in Hb. repeat split; lia.
  - destruct (get_returns key now c) as (c' & o & Hg & Hmax & _ & _ & Hlen).
    unfold void, bind, ret. rewrite Hg.
    exists c'. repeat split; lia.
  - destruct (__contains___returns key now c) as (c' & b & Hg & Hmax & Hlen).
    unfold void, bind, ret. rewrite Hg.
    exists c'. repeat split; lia.
  - destruct (delete_returns key c) as (c' & b & Hg & Hmax & Hlen).
    unfold void, bind, ret. rewrite Hg.
    exists c'. repeat split; lia.
  - rewrite clear_eq. eexists. split; [reflexivity|]. simpl.
    unfold OD.len. simpl. lia.
  - destruct (resize_returns n c) as (c' & -> & Hmax & Hb); [lia|].
    exists c'. unfold current_size in Hb. repeat split; lia.
  - unfold void, bind, ret. rewrite stats_eq.
    exists c. repeat split; lia.
Qed.

Lemma run_bounded (ops : list (op K V T)) c :
  bounded c -> Forall resize_positive ops ->
  exists c', run ops c = (c', inr tt) /\ bounded c'.
Proof.
  revert c. induction ops as [|o rest IH]; intros c Hb Hops.
  - exists c. split; [reflexivity | exact Hb].
  - inversion Hops as [|o' rest' Ho Hrest]; subst.
    destruct (call_bounded o c Hb Ho) as (c1 & Hc1 & Hb1).
    destruct (IH c1 Hb1 Hrest) as (c' & Hr & Hb').
    exists c'. split; [|exact Hb'].
    cbn [run]. unfold bind. now rewrite Hc1.
Qed.

End Methods.

End EngineFacts.

(* ================================================================== *)
(** * Facts about key derivation and the wrapper *)
(* ================================================================== *)

Module MemoFacts.
Import Py Memo.

(** ** Key derivation *)

(** Whatever [make_hashable] raises is a TypeError. *)
Lemma make_hashable_error (obj : pyobj) (e : exn) :
  make_hashable obj = inl e -> is_TypeError e = true.
Proof.
  revert e.
  induction obj as [ | z | s | l IH | l IH | d IH | l IH | l IH | h i ]
    using PyFacts.pyobj_nested_ind; intros e; cbn [make_hashable];
    try discriminate.
  - destruct (mapM make_hashable l) as [e'|l'] eqn:Hm; [|discriminate].
    simpl. intros [= <-].
    apply PyFacts.mapM_error_inv in Hm as (x & Hin & Hx).
    rewrite Forall_forall in IH. now apply (IH x Hin).
  - destruct (mapM make_hashable l) as [e'|l'] eqn:Hm; [|discriminate].
    simpl. intros [= <-].
    apply PyFacts.mapM_error_inv in Hm as (x & Hin & Hx).
    rewrite Forall_forall in IH. now apply (IH x Hin).
  - match goal with |- rbind ?m _ = _ -> _ => destruct m as [e'|ps] eqn:Hm end.
    + simpl. intros [= <-].
      apply PyFacts.mapM_error_inv in Hm as ([k v] & Hin & Hx).
      rewrite Forall_forall in IH. destruct (IH _ Hin) as [IHk IHv].
      simpl in IHk, IHv.
      destruct (make_hashable k) as [ek|hk]; simpl in Hx.
      * injection Hx as <-. now apply IHk.
      * destruct (make_hashable v) as [ev|hv]; simpl in Hx; [|discriminate].
        injection Hx as <-. now apply IHv.
    + simpl. destruct (sorted ps) as [e'|s] eqn:Hs; [|discriminate].
      simpl. intros [= <-].
      now rewrite (PyFacts.sorted_error ps e' Hs).
  - destruct (mapM make_hashable l) as [e'|l'] eqn:Hm; [|discriminate].
    simpl. intros [= <-].
    apply PyFacts.mapM_error_inv in Hm as (x & Hin & Hx).
    rewrite Forall_forall in IH. now apply (IH x Hin).
  - destruct h; simpl; [discriminate|]. now intros [= <-].
Qed.

(** An object that is no container and not hashable reaches the last line
    of [make_hashable]. *)
Lemma make_hashable_unsupported (x : pyobj) :
  is_container x = false -> isinstance_Hashable x = false ->
  make_hashable x = inl unhashable_type.
Proof.
  destruct x as [ | z | s | l | l | d | l | l | h i ]; simpl;
    try discriminate.
  intros _ ->. reflexivity.
Qed.

Lemma make_key_error (args : list pyobj) (kwargs : list (string * pyobj))
      (e : exn) :
  make_key args kwargs = inl e -> is_TypeError e = true.
Proof.
  unfold make_key.
  destruct (make_hashable (args_tuple args)) as [ea|a] eqn:Ha; cbn [rbind].
  - intros [= <-]. eapply make_hashable_error; eassumption.
  - destruct (make_hashable (kwargs_dict kwargs)) as [ek|k] eqn:Hk;
      cbn [rbind]; [|discriminate].
    intros [= <-]. eapply make_hashable_error; eassumption.
Qed.

Lemma make_key_unsupported (args : list pyobj)
      (kwargs : list (string * pyobj)) (x : pyobj) :
  make_hashable x = inl unhashable_type ->
  In x args \/ In x (map snd kwargs) ->
  exists e, make_key args kwargs = inl e.
Proof.
  intros Hx Hin. unfold make_key.
  destruct (make_hashable (args_tuple args)) as [ea|a] eqn:Ha; cbn [rbind];
    [eauto|].
  destruct Hin as [Hin|Hin].
  - exfalso. unfold args_tuple in Ha. cbn [make_hashable] in Ha.
    destruct (PyFacts.mapM_fails make_hashable args x _ Hin Hx) as [e' He'].
    rewrite He' in Ha. discriminate.
  - rewrite KwargsFacts.make_hashable_kwargs.
    apply in_map_iff in Hin as ([name v] & <- & Hin).
    unfold canon_kw.
    destruct (PyFacts.mapM_fails
                (fun kv : string * pyobj =>
                   rbind (make_hashable (snd kv))
                         (fun hv => inr (fst kv, hv)))
                kwargs (name, v) unhashable_type Hin) as [e' He'].
    { simpl in *. now rewrite Hx. }
    rewrite He'. simpl. eauto.
Qed.

(** ** The wrapper *)

Section Wrapper.
Context {T U : Type} {HC : Clock T}.
Implicit Types (w : world T U) (func : pyfunc U).
Implicit Types (args : list pyobj) (kwargs : list (string * pyobj)).

Lemma wrapper_no_key func args kwargs now_get now_set w e :
  make_key args kwargs = inl e ->
  wrapper func args kwargs now_get now_set w = (w, inl e).
Proof.
  intros Hk. unfold wrapper, wbind, wlift. now rewrite Hk.
Qed.

(** The path through the body that returns the cached value. *)
Lemma wrapper_cached func args kwargs now_get now_set w key c1 v :
  make_key args kwargs = inr key ->
  Engine.get key now_get (cache w) = (c1, inr (Some v)) ->
  is_None v = false ->
  wrapper func args kwargs now_get now_set w
  = (mkWorld c1 (user w) (trace w ++ [CacheGet key]), inr v).
Proof.
  intros Hk Hg Hv.
  unfold wrapper, cache_get, on_cache, wbind, wlift, wret.
  rewrite Hk. cbv beta iota zeta. rewrite Hg. cbv beta iota zeta.
  cbn [of_optional]. rewrite Hv. reflexivity.
Qed.

(** The path through the body that calls the function. *)
Lemma wrapper_computes func args kwargs now_get now_set w key c1 o u value :
  make_key args kwargs = inr key ->
  Engine.get key now_get (cache w) = (c1, inr o) ->
  is_None (of_optional o) = true ->
  func args kwargs (user w) = (u, inr value) ->
  wrapper func args kwargs now_get now_set w
  = (mkWorld (fst (Engine.set key value now_set c1)) u
             (trace w ++ [CacheGet key; Invoked args kwargs;
                          CacheSet key value]),
     match snd (Engine.set key value now_set c1) with
     | inl e => inl e
     | inr _ => inr value
     end).
Proof.
  intros Hk Hg Hn Hf.
  unfold wrapper, cache_get, cache_set, on_cache, invoke, wbind, wlift, wret.
  rewrite Hk. cbv beta iota zeta. rewrite Hg. cbv beta iota zeta.
  rewrite Hn. cbn [negb]. cbv beta iota zeta. cbn [cache user trace].
  rewrite Hf. cbv beta iota zeta. cbn [cache user trace].
  destruct (Engine.set key value now_set c1) as [c2 [e|[]]];
    cbn [fst snd]; now rewrite <- !app_assoc.
Qed.

Lemma invocations_app w (evs : list event)
      (c : Engine.LRUCache pyobj pyobj T) (u : U) :
  invocations (mkWorld c u (trace w ++ evs))
  = (invocations w + List.length (filter is_Invoked evs))%nat.
Proof. unfold invocations. simpl. now rewrite filter_app, length_app. Qed.

Lemma set_calls_app w (evs : list event)
      (c : Engine.LRUCache pyobj pyobj T) (u : U) :
  set_calls (mkWorld c u (trace w ++ evs))
  = (set_calls w + List.length (filter is_CacheSet evs))%nat.
Proof. unfold set_calls. simpl. now rewrite filter_app, length_app. Qed.

(** ** Cached [None] *)

Lemma get_only_None key now (c : Engine.LRUCache pyobj pyobj T) :
  only_None_under key c ->
  exists c1 o,
    Engine.get key now c = (c1, inr o)
    /\ is_None (of_optional o) = true
    /\ only_None_under key c1
    /\ Engine.max_size c1 = Engine.max_size c.
Proof.
  unfold only_None_under. intros Hn.
  destruct (OD.lookup key (Engine.store c)) as [[k [v t]]|] eqn:Hl.
  - assert (Hv : v = PyNone).
    { rewrite Forall_forall in Hn.
      apply (Hn _ (ODFacts.lookup_In key _ _ Hl)).
      exact (ODFacts.lookup_key key _ k (v, t) Hl). }
    subst v. destruct (Engine._is_expired now t) eqn:Hx.
    + rewrite (EngineFacts.get_expired key now c k PyNone t Hl Hx).
      do 2 eexists. split; [reflexivity|]. simpl.
      repeat split. now apply ODFacts.Forall_remove.
    + rewrite (EngineFacts.get_live key now c k PyNone t Hl Hx).
      do 2 eexists. split; [reflexivity|]. simpl.
      repeat split. apply Forall_app. split.
      * now apply ODFacts.Forall_remove.
      * constructor; [|constructor]. intros _. reflexivity.
  - rewrite (EngineFacts.get_absent key now c Hl).
    do 2 eexists. split; [reflexivity|]. simpl. repeat split. exact Hn.
Qed.

(** ** The two ways through a call *)

Lemma wrapper_hit func args kwargs now_get now_set w key k v t :
  make_key args kwargs = inr key ->
  OD.lookup key (Engine.store (cache w)) = Some (k, (v, t)) ->
  Engine._is_expired now_get t = false ->
  is_None v = false ->
  wrapper func args kwargs now_get now_set w
  = (mkWorld (fst (Engine.get key now_get (cache w))) (user w)
             (trace w ++ [CacheGet key]), inr v).
Proof.
  intros Hk Hl Hx Hv.
  rewrite (EngineFacts.get_live key now_get (cache w) k v t Hl Hx).
  eapply wrapper_cached; try eassumption.
  exact (EngineFacts.get_live key now_get (cache w) k v t Hl Hx).
Qed.

Lemma wrapper_miss func args kwargs now_get now_set w key u value :
  make_key args kwargs = inr key ->
  OD.lookup key (Engine.store (cache w)) = None ->
  func args kwargs (user w) = (u, inr value) ->
  0 <= Engine.max_size (cache w) ->
  exists c2,
    wrapper func args kwargs now_get now_set w
    = (mkWorld c2 u (trace w ++ [CacheGet key; Invoked args kwargs;
                                 CacheSet key value]), inr value)
    /\ Engine.max_size c2 = Engine.max_size (cache w)
    /\ (0 < Engine.max_size (cache w) ->
        OD.lookup key (Engine.store c2)
        = Some (key, (value, Engine.expiration (cache w) now_set))).
Proof.
  intros Hk Hl Hf Hm.
  pose proof (EngineFacts.get_absent key now_get (cache w) Hl) as Hg.
  rewrite (wrapper_computes func args kwargs now_get now_set w key _ None
             u value Hk Hg eq_refl Hf).
  match type of Hg with _ = (?c, _) => set (c1 := c) in * end.
  destruct (EngineFacts.set_returns key value now_set c1 Hm)
    as (c2 & Hset & Hmax & _).
  rewrite Hset. exists c2. split; [reflexivity|]. split; [exact Hmax|].
  intros Hpos.
  destruct (EngineFacts.set_stores key value now_set c1 Hl Hpos
              (PyFacts.py_eq_refl key)) as (c2' & Hset' & _ & Hlk).
  rewrite Hset in Hset'. injection Hset' as <-. exact Hlk.
Qed.

End Wrapper.

End MemoFacts.

(* ================================================================== *)
(** * Properties of the cache engine *)
(* ================================================================== *)

Import Py Engine.
Local Open Scope string_scope.
Local Open Scope list_scope.

(** C1.  An engine is constructed with a positive [max_size] and then
    called any number of times, in any order, with [set], [get], the
    membership test, [delete], [clear], [stats] and [resize] to a positive
    capacity.  No call raises, and after the calls the store holds at most
    [max_size] entries.  Every prefix of a run is a run, so the bound holds
    after each call. *)
Theorem capacity_invariant {K V T : Type} {HK : KeyEq K} {HC : Clock T}
        (capacity : Z) (lifetime : option Z) (ops : list (op K V T)) :
  0 < capacity ->
  Forall resize_positive ops ->
  exists c0 c,
    __init__ capacity lifetime = inr c0
    /\ run ops c0 = (c, inr tt)
    /\ current_size c <= max_size c.
Proof.
  intros Hpos Hops.
  set (c0 := mkLRUCache capacity lifetime [] 0 0 0 : LRUCache K V T).
  assert (Hb : bounded c0).
  { unfold bounded, current_size, OD.len. simpl. lia. }
  destruct (EngineFacts.run_bounded ops c0 Hb Hops) as (c & Hrun & _ & Hle).
  exists c0, c. auto.
Qed.

Lemma capacity_invariant_witness :
  0 < 2
  /\ Forall (@resize_positive string Z Z)
            [Set_ "a" 1 0; Set_ "b" 2 0; Set_ "c" 3 0; Get "a" 5;
             Resize 1; Delete "c"; Clear]
  /\ exists c0 c : LRUCache string Z Z,
      __init__ 2 (Some 10) = inr c0
      /\ run [Set_ "a" 1 0; Set_ "b" 2 0; Set_ "c" 3 0; Get "a" 5;
              Resize 1; Delete "c"; Clear] c0 = (c, inr tt)
      /\ current_size c <= max_size c.
Proof.
  assert (H2 : 0 < 2) by lia.
  assert (Hops : Forall (@resize_positive string Z Z)
                   [Set_ "a" 1 0; Set_ "b" 2 0; Set_ "c" 3 0; Get "a" 5;
                    Resize 1; Delete "c"; Clear]).
  { repeat constructor. }
  split; [exact H2|]. split; [exact Hops|].
  exact (capacity_invariant 2 (Some 10) _ H2 Hops).
Defined.

(** C3.  The entry stored under a key carries an expiration time [t], and
    the clock reads more than [t].  Then [get] returns [None], the entry is
    gone from the store, [misses] has grown by one, and [evictions] and
    [hits] are what they were. *)
Theorem ttl_expiry {K V T : Type} {HK : KeyEq K} {HL : KeyEqLaws K}
        {HC : Clock T} (c : LRUCache K V T) (key k : K) (value : V)
        (t now : T) :
  OD.unique_keys (store c) = true ->
  OD.lookup key (store c) = Some (k, (value, Some t)) ->
  time_gt now t = true ->
  exists c',
    get key now c = (c', inr None)
    /\ store c' = OD.remove key (store c)
    /\ OD.contains key (store c') = false
    /\ current_size c' = current_size c - 1
    /\ misses c' = misses c + 1
    /\ evictions c' = evictions c
    /\ hits c' = hits c.
Proof.
  intros Hu Hl Hgt.
  rewrite (EngineFacts.get_expired key now c k value (Some t) Hl Hgt).
  eexists. split; [reflexivity|]. simpl. repeat split.
  - apply ODFacts.contains_false_lookup. now apply ODFacts.lookup_remove.
  - unfold current_size, OD.len. simpl.
    pose proof (ODFacts.length_remove key (store c) _ Hl). lia.
Qed.

(** C8.  [clear] empties the store and leaves the three counters, the
    capacity and the lifetime alone; after [set(a,1); get(a); clear()],
    [stats()] reports one hit and a size of zero. *)
Theorem clear_preserves_counters {K V T : Type} {HK : KeyEq K} {HC : Clock T}
        (c : LRUCache K V T) :
  (exists c',
      clear c = (c', inr tt)
      /\ store c' = [] /\ current_size c' = 0
      /\ hits c' = hits c /\ misses c' = misses c
      /\ evictions c' = evictions c
      /\ max_size c' = max_size c /\ ttl c' = ttl c)
  /\ (exists c0 c1 : LRUCache string Z Z,
         __init__ 2 None = inr c0
         /\ bind (run [Set_ "a" 1 0; Get "a" 0; Clear]) (fun _ => stats) c0
            = (c1, inr (mkStats 1 0 0 0))).
Proof.
  split.
  - rewrite EngineFacts.clear_eq. eexists. split; [reflexivity|].
    simpl. repeat split.
  - do 2 eexists. split; reflexivity.
Qed.

Lemma ttl_expiry_witness :
  let c : LRUCache string Z Z :=
    mkLRUCache 2 (Some 1) [("x", (100, Some 1))] 0 0 0 in
  OD.unique_keys (store c) = true
  /\ OD.lookup "x" (store c) = Some ("x", (100, Some 1))
  /\ time_gt 2 1 = true
  /\ exists c',
      get "x" 2 c = (c', inr None)
      /\ store c' = OD.remove "x" (store c)
      /\ OD.contains "x" (store c') = false
      /\ current_size c' = current_size c - 1
      /\ misses c' = misses c + 1
      /\ evictions c' = evictions c
      /\ hits c' = hits c.
Proof.
  intros c.
  assert (Hu : OD.unique_keys (store c) = true) by reflexivity.
  assert (Hl : OD.lookup "x" (store c) = Some ("x", (100, Some 1)))
    by reflexivity.
  assert (Hgt : time_gt 2 1 = true) by reflexivity.
  split; [exact Hu|]. split; [exact Hl|]. split; [exact Hgt|].
  exact (ttl_expiry c "x" "x" 100 1 2 Hu Hl Hgt).
Defined.

(** C2.  A [get] that finds a live entry leaves it last in the store, the
    other entries in the order they had.  A [set] on a key that is there
    leaves its entry, with the new value, last.  The eviction step removes
    a prefix of the store, the least recently used entries, and counts each
    of them.  With [max_size = 2], [set(a,1); set(b,2); get(a); set(c,3)]
    leaves [a] and [c] in the store and evicts [b]. *)
Theorem recency_order {K V T : Type} {HK : KeyEq K} {HL : KeyEqLaws K}
        {HC : Clock T} (c : LRUCache K V T) (key : K) (value : V) (now : T) :
  (forall k v t,
      OD.lookup key (store c) = Some (k, (v, t)) ->
      _is_expired now t = false ->
      exists c',
        get key now c = (c', inr (Some v))
        /\ store c' = OD.remove key (store c) ++ [(k, (v, t))])
  /\ (OD.unique_keys (store c) = true ->
      OD.contains key (store c) = true ->
      0 < max_size c ->
      exists c' front k,
        set key value now c = (c', inr tt)
        /\ key_eqb k key = true
        /\ store c' = front ++ [(k, (value, expiration c now))])
  /\ (forall c' r,
         _evict_if_needed c = (c', r) ->
         exists popped,
           store c = popped ++ store c'
           /\ evictions c' = evictions c + OD.len popped)
  /\ (exists c0 c1 : LRUCache string Z Z,
         __init__ 2 None = inr c0
         /\ run [Set_ "a" 1 0; Set_ "b" 2 0; Get "a" 0; Set_ "c" 3 0] c0
            = (c1, inr tt)
         /\ OD.keys (store c1) = ["a"; "c"]
         /\ OD.contains "b" (store c1) = false
         /\ evictions c1 = 1).
Proof.
  split; [|split; [|split]].
  - intros k v t Hl Hx.
    rewrite (EngineFacts.get_live key now c k v t Hl Hx).
    eexists. split; reflexivity.
  - intros Hu Hc Hm.
    apply ODFacts.contains_lookup in Hc as [[k e0] Hl].
    rewrite EngineFacts.set_eq, EngineFacts._evict_if_needed_eq.
    unfold store_after_assign. rewrite Hl. cbn [with_store max_size store
      ttl hits misses evictions].
    rewrite (ODFacts.setitem_last key (value, expiration c now)
               (OD.remove key (store c)) k e0
               (ODFacts.lookup_remove key (store c) Hu)
               (ODFacts.lookup_key key (store c) k e0 Hl)).
    destruct (EngineFacts.evict_loop_keeps_last (max_size c)
                (OD.remove key (store c))
                (k, (value, expiration c now)) (evictions c) Hm)
      as (front & ev & ->).
    eexists. exists front, k. split; [reflexivity|]. split.
    + exact (ODFacts.lookup_key key (store c) k e0 Hl).
    + reflexivity.
  - intros c' r. rewrite EngineFacts._evict_if_needed_eq.
    destruct (evict_loop (max_size c) (store c) (evictions c))
      as [[st ev] r0] eqn:He.
    intros [= <- _]. simpl.
    exact (EngineFacts.evict_loop_pops _ _ _ _ _ _ He).
  - do 2 eexists. repeat split; reflexivity.
Qed.

Lemma recency_order_witness :
  let c : LRUCache string Z Z :=
    mkLRUCache 2 None [("a", (1, None)); ("b", (2, None))] 0 0 0 in
  (exists c', get "a" 0 c = (c', inr (Some 1))
              /\ store c' = [("b", (2, None)); ("a", (1, None))])
  /\ (exists c' front k,
         set "a" 7 0 c = (c', inr tt)
         /\ key_eqb k "a" = true
         /\ store c' = front ++ [(k, (7, None))]).
Proof.
  intros c.
  destruct (recency_order c "a" 7 0) as (Hget & Hset & _ & _).
  split.
  - exact (Hget "a" 1 None eq_refl eq_refl).
  - apply Hset; [reflexivity | reflexivity | reflexivity].
Defined.

(** C10, as amended.  On an engine whose [max_size] is negative every
    [set] raises KeyError, and on any engine every [resize] to a negative
    capacity raises KeyError: the eviction loop has popped every entry,
    counted it, and then popped the empty store.  With a [max_size] of zero
    or more the eviction step returns, nothing raised, the store within the
    capacity; so do [set], and [resize] to such a capacity. *)
Theorem negative_capacity_raises {K V T : Type} {HK : KeyEq K} {HC : Clock T}
        (c : LRUCache K V T) (key : K) (value : V) (now : T) (n : Z) :
  (max_size c < 0 ->
   exists c',
     set key value now c = (c', inl dictionary_is_empty)
     /\ store c' = [] /\ max_size c' = max_size c
     /\ evictions c'
        = evictions c + OD.len (store_after_assign c key value now))
  /\ (n < 0 ->
      exists c',
        resize n c = (c', inl dictionary_is_empty)
        /\ store c' = [] /\ max_size c' = n
        /\ evictions c' = evictions c + current_size c)
  /\ (0 <= max_size c ->
      (exists c', _evict_if_needed c = (c', inr tt)
                  /\ current_size c' <= max_size c')
      /\ (exists c', set key value now c = (c', inr tt)
                     /\ current_size c' <= max_size c'))
  /\ (0 <= n ->
      exists c', resize n c = (c', inr tt)
                 /\ max_size c' = n /\ current_size c' <= n).
Proof.
  split; [|split; [|split]].
  - intros Hneg.
    rewrite EngineFacts.set_eq, EngineFacts._evict_if_needed_eq.
    cbn [with_store max_size store ttl hits misses evictions].
    rewrite (EngineFacts.evict_loop_raises _ _ _ Hneg).
    eexists. split; [reflexivity|]. simpl. repeat split.
  - intros Hneg.
    rewrite EngineFacts.resize_eq, EngineFacts._evict_if_needed_eq.
    cbn [max_size store ttl hits misses evictions].
    rewrite (EngineFacts.evict_loop_raises _ _ _ Hneg).
    eexists. split; [reflexivity|]. simpl. repeat split.
  - intros Hm. split.
    + destruct (EngineFacts._evict_if_needed_returns c Hm)
        as (c' & Hc' & _ & _ & _ & _ & Hle).
      exists c'. auto.
    + destruct (EngineFacts.set_returns key value now c Hm)
        as (c' & Hc' & _ & Hle).
      exists c'. auto.
  - intros Hn.
    destruct (EngineFacts.resize_returns n c Hn) as (c' & Hc' & Hmax & Hle).
    exists c'. repeat split; [exact Hc' | exact Hmax | lia].
Qed.

Lemma negative_capacity_raises_witness :
  let neg : LRUCache string Z Z :=
    mkLRUCache (-1) None [("z", (5, None))] 0 0 0 in
  let pos : LRUCache string Z Z :=
    mkLRUCache 1 None [("y", (4, None)); ("z", (5, None))] 0 0 0 in
  (max_size neg < 0
   /\ exists c',
       set "a" 1 0 neg = (c', inl dictionary_is_empty)
       /\ store c' = [] /\ max_size c' = max_size neg
       /\ evictions c'
          = evictions neg + OD.len (store_after_assign neg "a" 1 0))
  /\ (-3 < 0
      /\ exists c',
          resize (-3) pos = (c', inl dictionary_is_empty)
          /\ store c' = [] /\ max_size c' = -3
          /\ evictions c' = evictions pos + current_size pos)
  /\ (0 <= max_size pos
      /\ exists c', _evict_if_needed pos = (c', inr tt)
                    /\ current_size c' <= max_size c')
  /\ (0 <= 0
      /\ exists c', resize 0 pos = (c', inr tt)
                    /\ max_size c' = 0 /\ current_size c' <= 0).
Proof.
  intros neg pos.
  assert (Hneg : max_size neg < 0) by (simpl; lia).
  assert (Hm3 : -3 < 0) by lia.
  assert (Hpos : 0 <= max_size pos) by (simpl; lia).
  assert (H0 : 0 <= 0) by lia.
  split; [|split; [|split]].
  - split; [exact Hneg|].
    exact (proj1 (negative_capacity_raises neg "a" 1 0 0) Hneg).
  - split; [exact Hm3|].
    exact (proj1 (proj2 (negative_capacity_raises pos "a" 1 0 (-3))) Hm3).
  - split; [exact Hpos|].
    exact (proj1 (proj1 (proj2 (proj2
             (negative_capacity_raises pos "a" 1 0 0))) Hpos)).
  - split; [exact H0|].
    exact (proj2 (proj2 (proj2
             (negative_capacity_raises pos "a" 1 0 0))) H0).
Defined.

(** C10 as it is worded does not hold: an engine with a negative
    [max_size] can be resized to a capacity of zero or more, and that call
    returns. *)
Lemma resize_out_of_negative_capacity :
  let c : LRUCache string Z Z := mkLRUCache (-1) None [] 0 0 0 in
  max_size c < 0
  /\ resize 5 c = (mkLRUCache 5 None [] 0 0 0, inr tt)
  /\ ~ (exists c' e, resize 5 c = (c', inl e)).
Proof.
  intros c. split; [simpl; lia|]. split; [reflexivity|].
  intros (c' & e & Hr). discriminate Hr.
Qed.

(** C5, as amended.  Construction validates nothing: whatever [max_size]
    is, positive or not, it returns an engine with that capacity, an empty
    store and counters at zero.  [resize(0)] returns too, having evicted
    and counted every entry. *)
Theorem construction_accepts_any_capacity
        {K V T : Type} {HK : KeyEq K} {HC : Clock T}
        (capacity : Z) (lifetime : option Z) (c : LRUCache K V T) :
  @__init__ K V T capacity lifetime
  = inr (mkLRUCache capacity lifetime [] 0 0 0)
  /\ exists c',
      resize 0 c = (c', inr tt)
      /\ store c' = [] /\ max_size c' = 0
      /\ evictions c' = evictions c + current_size c.
Proof.
  split; [reflexivity|].
  rewrite EngineFacts.resize_eq, EngineFacts._evict_if_needed_eq.
  cbn [max_size store ttl hits misses evictions].
  destruct (EngineFacts.evict_loop_returns 0 (store c) (evictions c))
    as (st' & ev' & He & Hle & _); [lia|].
  destruct (EngineFacts.evict_loop_pops _ _ _ _ _ _ He) as (popped & Hst & Hev).
  assert (Hnil : st' = []).
  { destruct st'; [reflexivity|]. unfold OD.len in Hle. simpl in Hle. lia. }
  subst st'. rewrite app_nil_r in Hst. subst popped.
  rewrite He. eexists. split; [reflexivity|]. simpl. repeat split.
  exact Hev.
Qed.

(** C5 as it is worded does not hold: construction with the capacities
    [0] and [-1] returns an engine, and so does [resize(0)]. *)
Lemma nonpositive_capacity_is_accepted :
  -1 <= 0
  /\ @__init__ string Z Z (-1) None = inr (mkLRUCache (-1) None [] 0 0 0)
  /\ @__init__ string Z Z 0 None = inr (mkLRUCache 0 None [] 0 0 0)
  /\ (forall e, @__init__ string Z Z (-1) None <> inl e)
  /\ @resize string Z Z 0 (mkLRUCache 2 None [("a", (1, None))] 0 0 0)
     = (mkLRUCache 0 None [] 0 0 1, inr tt).
Proof.
  split; [lia|]. repeat split; try reflexivity.
  intros e He. discriminate He.
Qed.

(* ================================================================== *)
(** * Properties of the memoizing wrapper *)
(* ================================================================== *)

Import Memo.

(** C4, as amended.  The key of a call is derived.  When the cache holds a
    live entry under it whose value is not [None], the wrapper returns that
    value; the function has not run and the caller's state is untouched.
    When the cache holds no entry under it and the cache has a capacity of
    zero or more, the function runs exactly once, [cache.set] is called
    with its result, and the result is returned; with a positive capacity
    the result is then in the store, under the key. *)
Theorem wrapper_hit_and_miss {T U : Type} {HC : Clock T}
        (func : pyfunc U) (args : list pyobj)
        (kwargs : list (string * pyobj)) (now_get now_set : T)
        (w : world T U) (key : pyobj) :
  make_key args kwargs = inr key ->
  (forall k v t,
      OD.lookup key (store (cache w)) = Some (k, (v, t)) ->
      _is_expired now_get t = false ->
      is_None v = false ->
      exists w',
        wrapper func args kwargs now_get now_set w = (w', inr v)
        /\ user w' = user w
        /\ trace w' = trace w ++ [CacheGet key]
        /\ invocations w' = invocations w)
  /\ (forall u value,
         OD.lookup key (store (cache w)) = None ->
         func args kwargs (user w) = (u, inr value) ->
         0 <= max_size (cache w) ->
         exists w',
           wrapper func args kwargs now_get now_set w = (w', inr value)
           /\ user w' = u
           /\ trace w' = trace w ++ [CacheGet key; Invoked args kwargs;
                                     CacheSet key value]
           /\ invocations w' = S (invocations w)
           /\ (0 < max_size (cache w) ->
               OD.lookup key (store (cache w'))
               = Some (key, (value, expiration (cache w) now_set)))).
Proof.
  intros Hk. split.
  - intros k v t Hl Hx Hv.
    rewrite (MemoFacts.wrapper_hit func args kwargs now_get now_set w key
               k v t Hk Hl Hx Hv).
    eexists. split; [reflexivity|]. cbn [user trace]. repeat split.
    rewrite MemoFacts.invocations_app. simpl. lia.
  - intros u value Hl Hf Hm.
    destruct (MemoFacts.wrapper_miss func args kwargs now_get now_set w key
                u value Hk Hl Hf Hm) as (c2 & -> & _ & Hstored).
    eexists. split; [reflexivity|]. cbn [user trace cache]. repeat split.
    + rewrite MemoFacts.invocations_app. simpl. lia.
    + exact Hstored.
Qed.

Lemma wrapper_hit_and_miss_witness :
  let add : pyfunc nat :=
    fun args _ n =>
      (S n, match args with
            | [PyInt a; PyInt b] => inr (PyInt (a + b))
            | _ => inl (Raised "TypeError")
            end) in
  let key := PyTuple [PyTuple [PyInt 2; PyInt 3]; PyTuple []] in
  let empty : world Z nat := mkWorld (mkLRUCache 10 None [] 0 0 0) 0%nat [] in
  let full : world Z nat :=
    mkWorld (mkLRUCache 10 None [(key, (PyInt 5, None))] 0 1 0) 1%nat [] in
  make_key [PyInt 2; PyInt 3] [] = inr key
  /\ (exists w', wrapper add [PyInt 2; PyInt 3] [] 0 0 full = (w', inr (PyInt 5))
                 /\ user w' = user full
                 /\ trace w' = trace full ++ [CacheGet key]
                 /\ invocations w' = invocations full)
  /\ (exists w', wrapper add [PyInt 2; PyInt 3] [] 0 0 empty
                 = (w', inr (PyInt 5))
                 /\ user w' = 1%nat
                 /\ trace w' = trace empty
                               ++ [CacheGet key; Invoked [PyInt 2; PyInt 3] [];
                                   CacheSet key (PyInt 5)]
                 /\ invocations w' = S (invocations empty)
                 /\ (0 < max_size (cache empty) ->
                     OD.lookup key (store (cache w'))
                     = Some (key, (PyInt 5, expiration (cache empty) 0)))).
Proof.
  intros add key empty full.
  assert (Hk : make_key [PyInt 2; PyInt 3] [] = inr key) by reflexivity.
  split; [exact Hk|]. split.
  - exact (proj1 (wrapper_hit_and_miss add _ _ 0 0 full key Hk)
                 key (PyInt 5) None eq_refl eq_refl eq_refl).
  - refine (proj2 (wrapper_hit_and_miss add _ _ 0 0 empty key Hk)
                  1%nat (PyInt 5) eq_refl eq_refl _).
    simpl. lia.
Defined.

(** C4 as it is worded does not hold: with [None] cached under the key of
    the call, live, the function is invoked all the same; from a fresh
    cache, two calls of a function that returns [None] invoke it twice. *)
Lemma cached_None_is_not_a_hit :
  let f : pyfunc nat := fun _ _ n => (S n, inr PyNone) in
  let key := PyTuple [PyTuple [PyInt 2]; PyTuple []] in
  let w : world Z nat :=
    mkWorld (mkLRUCache 10 None [(key, (PyNone, None))] 0 0 0) 0%nat [] in
  let fresh : world Z nat := mkWorld (mkLRUCache 10 None [] 0 0 0) 0%nat [] in
  make_key [PyInt 2] [] = inr key
  /\ OD.lookup key (store (cache w)) = Some (key, (PyNone, None))
  /\ _is_expired 0 None = false
  /\ invocations w = 0%nat
  /\ invocations (fst (wrapper f [PyInt 2] [] 0 0 w)) = 1%nat
  /\ user (fst (wrapper f [PyInt 2] [] 0 0 w)) = 1%nat
  /\ invocations (fst (repeat_call f [PyInt 2] [] [(0, 0); (1, 1)] fresh))
     = 2%nat.
Proof. repeat split. Qed.

(** C6.  A positional argument or the value of a keyword argument is
    neither a tuple, list, dict or set nor an instance of [Hashable].  Then
    [make_hashable] raises its TypeError on it, the call of the wrapper
    raises a TypeError out of the key derivation, and nothing else has
    happened: the function has not run, the cache has not been asked, the
    caller's state is what it was. *)
Theorem unsupported_argument_raises {T U : Type} {HC : Clock T}
        (func : pyfunc U) (args : list pyobj)
        (kwargs : list (string * pyobj)) (now_get now_set : T)
        (w : world T U) (x : pyobj) :
  is_container x = false ->
  isinstance_Hashable x = false ->
  In x args \/ In x (map snd kwargs) ->
  make_hashable x = inl unhashable_type
  /\ exists e,
      is_TypeError e = true
      /\ make_key args kwargs = inl e
      /\ wrapper func args kwargs now_get now_set w = (w, inl e).
Proof.
  intros Hc Hh Hin.
  pose proof (MemoFacts.make_hashable_unsupported x Hc Hh) as Hx.
  split; [exact Hx|].
  destruct (MemoFacts.make_key_unsupported args kwargs x Hx Hin) as [e He].
  exists e. split; [|split].
  - exact (MemoFacts.make_key_error args kwargs e He).
  - exact He.
  - now apply MemoFacts.wrapper_no_key.
Qed.

Lemma unsupported_argument_raises_witness :
  let f : pyfunc nat := fun _ _ n => (S n, inr (PyInt 0)) in
  let bytearray := PyObject false 7 in
  let w : world Z nat := mkWorld (mkLRUCache 10 None [] 0 0 0) 0%nat [] in
  is_container bytearray = false
  /\ isinstance_Hashable bytearray = false
  /\ (In bytearray [PyInt 1; bytearray]
      \/ In bytearray (map snd [("n", PyInt 1)]))
  /\ make_hashable bytearray = inl unhashable_type
  /\ exists e,
      is_TypeError e = true
      /\ make_key [PyInt 1; bytearray] [("n", PyInt 1)] = inl e
      /\ wrapper f [PyInt 1; bytearray] [("n", PyInt 1)] 0 0 w = (w, inl e).
Proof.
  intros f bytearray w.
  assert (Hc : is_container bytearray = false) by reflexivity.
  assert (Hh : isinstance_Hashable bytearray = false) by reflexivity.
  assert (Hin : In bytearray [PyInt 1; bytearray]
                \/ In bytearray (map snd [("n", PyInt 1)])).
  { left. right. left. reflexivity. }
  split; [exact Hc|]. split; [exact Hh|]. split; [exact Hin|].
  exact (unsupported_argument_raises f _ _ 0 0 w bytearray Hc Hh Hin).
Defined.

(** C7.  Two calls give the same keyword arguments, names distinct, in
    different orders.  Then the key derivation of one succeeds exactly when
    that of the other does, and with the same key.  The canonical form of
    the keyword dict is the tuple of its (name, canonical value) pairs in
    ascending order of name.  A cache entry that the first call hits, the
    second hits too: the two calls return the same value and leave the
    same state.  And when the first call has computed and stored a value,
    the second, made while the entry is live, returns it without running
    the function. *)
Theorem keyword_order_independence {T U : Type} {HC : Clock T}
        (func : pyfunc U) (args : list pyobj)
        (kw1 kw2 : list (string * pyobj))
        (now_get now_set now_get' now_set' : T) (w : world T U) :
  Permutation kw1 kw2 ->
  NoDup (map fst kw1) ->
  (forall key, make_key args kw1 = inr key <-> make_key args kw2 = inr key)
  /\ (forall c,
         make_hashable (kwargs_dict kw1) = inr c ->
         exists hvs s,
           canon_kw kw1 = inr hvs /\ Permutation hvs s
           /\ StronglySorted name_lt s /\ c = PyTuple (map kw_pair s))
  /\ (forall key k v t,
         make_key args kw1 = inr key ->
         OD.lookup key (store (cache w)) = Some (k, (v, t)) ->
         _is_expired now_get t = false ->
         is_None v = false ->
         wrapper func args kw1 now_get now_set w
         = wrapper func args kw2 now_get now_set w
         /\ snd (wrapper func args kw2 now_get now_set w) = inr v)
  /\ (forall key u v,
         make_key args kw1 = inr key ->
         OD.lookup key (store (cache w)) = None ->
         func args kw1 (user w) = (u, inr v) ->
         is_None v = false ->
         0 < max_size (cache w) ->
         _is_expired now_get' (expiration (cache w) now_set) = false ->
         exists w1 w2,
           wrapper func args kw1 now_get now_set w = (w1, inr v)
           /\ wrapper func args kw2 now_get' now_set' w1 = (w2, inr v)
           /\ invocations w1 = S (invocations w)
           /\ invocations w2 = invocations w1
           /\ user w2 = user w1).
Proof.
  intros Hp Hnd.
  assert (Hnd2 : NoDup (map fst kw2)).
  { eapply Permutation_NoDup; [|exact Hnd]. now apply Permutation_map. }
  assert (Hkey : forall key,
             make_key args kw1 = inr key <-> make_key args kw2 = inr key).
  { intros key. unfold make_key.
    destruct (make_hashable (args_tuple args)) as [e|a]; cbn [rbind];
      [split; discriminate|].
    split.
    - destruct (make_hashable (kwargs_dict kw1)) as [e|c1] eqn:H1;
        cbn [rbind]; [discriminate|].
      intros [= <-].
      now rewrite (KwargsFacts.make_hashable_kwargs_perm kw1 kw2 c1 Hp Hnd H1).
    - destruct (make_hashable (kwargs_dict kw2)) as [e|c2] eqn:H2;
        cbn [rbind]; [discriminate|].
      intros [= <-].
      now rewrite (KwargsFacts.make_hashable_kwargs_perm kw2 kw1 c2
                     (Permutation_sym Hp) Hnd2 H2). }
  split; [exact Hkey|]. split; [|split].
  - intros c Hc. now apply KwargsFacts.make_hashable_kwargs_sorted.
  - intros key k v t Hk1 Hl Hx Hv.
    pose proof (proj1 (Hkey key) Hk1) as Hk2.
    rewrite (MemoFacts.wrapper_hit func args kw1 now_get now_set w key
               k v t Hk1 Hl Hx Hv).
    rewrite (MemoFacts.wrapper_hit func args kw2 now_get now_set w key
               k v t Hk2 Hl Hx Hv).
    split; reflexivity.
  - intros key u v Hk1 Hl Hf Hv Hm Hx.
    pose proof (proj1 (Hkey key) Hk1) as Hk2.
    destruct (MemoFacts.wrapper_miss func args kw1 now_get now_set w key
                u v Hk1 Hl Hf) as (c2 & Hw1 & _ & Hstored); [lia|].
    specialize (Hstored Hm).
    set (w1 := mkWorld c2 u (trace w ++ [CacheGet key; Invoked args kw1;
                                         CacheSet key v])) in *.
    pose proof (MemoFacts.wrapper_hit func args kw2 now_get' now_set' w1 key
                  key v _ Hk2 Hstored Hx Hv) as Hw2.
    exists w1. eexists. split; [exact Hw1|]. split; [exact Hw2|].
    cbn [user]. subst w1. rewrite !MemoFacts.invocations_app. simpl.
    repeat split; lia.
Qed.

Lemma keyword_order_independence_witness :
  let f : pyfunc nat := fun _ kw n => (S n, inr (PyInt (Z.of_nat (List.length kw)))) in
  let kw1 := [("a", PyInt 1); ("b", PyInt 2)] in
  let kw2 := [("b", PyInt 2); ("a", PyInt 1)] in
  let key := PyTuple [PyTuple [];
                      PyTuple [PyTuple [PyStr "a"; PyInt 1];
                               PyTuple [PyStr "b"; PyInt 2]]] in
  let w : world Z nat := mkWorld (mkLRUCache 10 (Some 5) [] 0 0 0) 0%nat [] in
  Permutation kw1 kw2
  /\ NoDup (map fst kw1)
  /\ (make_key [] kw1 = inr key <-> make_key [] kw2 = inr key)
  /\ make_key [] kw2 = inr key
  /\ exists w1 w2,
      wrapper f [] kw1 0 0 w = (w1, inr (PyInt 2))
      /\ wrapper f [] kw2 3 3 w1 = (w2, inr (PyInt 2))
      /\ invocations w1 = S (invocations w)
      /\ invocations w2 = invocations w1
      /\ user w2 = user w1.
Proof.
  intros f kw1 kw2 key w.
  assert (Hp : Permutation kw1 kw2) by apply perm_swap.
  assert (Hnd : NoDup (map fst kw1)).
  { simpl. constructor.
    - intros [H|[]]. discriminate H.
    - constructor; [intros [] | constructor]. }
  pose proof (keyword_order_independence f [] kw1 kw2 0 0 3 3 w Hp Hnd)
    as (Hkey & _ & _ & Hcalls).
  split; [exact Hp|]. split; [exact Hnd|]. split; [exact (Hkey key)|].
  split; [exact (proj1 (Hkey key) eq_refl)|].
  exact (Hcalls key 1%nat (PyInt 2) eq_refl eq_refl eq_refl eq_refl
                eq_refl eq_refl).
Defined.

(* ================================================================== *)
(** * More about the ordered dictionary: other keys, distinct keys *)
(* ================================================================== *)

Module StoreFacts.

Section Frame.
Context {K E : Type} {HK : KeyEq K}.
Implicit Types (d : OD.t K E) (key k : K) (e : E).

Lemma lookup_remove_none key k d :
  OD.lookup k d = None -> OD.lookup k (OD.remove key d) = None.
Proof.
  induction d as [|[k0 e0] r IH]; simpl; [trivial|].
  destruct (key_eqb k0 k) eqn:Hk; [discriminate|].
  intros Hl. destruct (key_eqb k0 key); [exact Hl|].
  simpl. rewrite Hk. now apply IH.
Qed.

Lemma unique_keys_tail d1 d2 :
  OD.unique_keys (d1 ++ d2) = true -> OD.unique_keys d2 = true.
Proof.
  induction d1 as [|[k0 e0] r IH]; simpl; [trivial|].
  intros Hu. apply andb_true_iff in Hu as [_ Hr]. now apply IH.
Qed.

Lemma unique_keys_remove key d :
  OD.unique_keys d = true -> OD.unique_keys (OD.remove key d) = true.
Proof.
  induction d as [|[k0 e0] r IH]; simpl; [trivial|].
  intros Hu. apply andb_true_iff in Hu as [Hk0 Hr].
  destruct (key_eqb k0 key); [exact Hr|].
  simpl. rewrite (IH Hr), andb_true_r.
  apply negb_true_iff, ODFacts.contains_false_lookup.
  apply lookup_remove_none.
  now apply ODFacts.contains_false_lookup, negb_true_iff.
Qed.

(** Assigning under one key does not change whether another key is there. *)
Lemma contains_setitem_other key k e d :
  key_eqb key k = false ->
  OD.contains k (OD.setitem key e d) = OD.contains k d.
Proof.
  intros Hk. unfold OD.contains.
  induction d as [|[k0 e0] r IH]; simpl.
  - now rewrite Hk.
  - destruct (key_eqb k0 key); simpl; destruct (key_eqb k0 k); auto.
Qed.

Lemma length_skipn_le (n : nat) d :
  (List.length (skipn n d) <= List.length d)%nat.
Proof. rewrite length_skipn. lia. Qed.
End Frame.

Section Laws.
Context {K E : Type} {HK : KeyEq K} {HL : KeyEqLaws K}.
Implicit Types (d : OD.t K E) (key k : K) (e : E).

Lemma key_eqb_false_sym k1 k2 : key_eqb k1 k2 = false -> key_eqb k2 k1 = false.
Proof. now rewrite (key_eqb_sym k1 k2). Qed.

(** A key that is [==] to none of the stored keys can be appended. *)
Lemma unique_keys_snoc k e d :
  OD.unique_keys d = true -> OD.lookup k d = None ->
  OD.unique_keys (d ++ [(k, e)]) = true.
Proof.
  induction d as [|[k0 e0] r IH]; simpl; [reflexivity|].
  intros Hu Hl. apply andb_true_iff in Hu as [Hk0 Hr].
  destruct (key_eqb k0 k) eqn:Hk; [discriminate|].
  rewrite (IH Hr Hl), andb_true_r.
  apply negb_true_iff, ODFacts.contains_false_lookup.
  apply negb_true_iff, ODFacts.contains_false_lookup in Hk0.
  rewrite (ODFacts.lookup_app_absent k0 r _ Hk0). simpl.
  now rewrite (key_eqb_false_sym _ _ Hk).
Qed.

Lemma unique_keys_setitem key e d :
  OD.unique_keys d = true -> OD.unique_keys (OD.setitem key e d) = true.
Proof.
  induction d as [|[k0 e0] r IH]; simpl; [reflexivity|].
  intros Hu. apply andb_true_iff in Hu as [Hk0 Hr].
  destruct (key_eqb k0 key) eqn:Hk; simpl.
  - now rewrite Hk0, Hr.
  - rewrite (IH Hr), andb_true_r.
    rewrite contains_setitem_other; [exact Hk0|].
    now apply key_eqb_false_sym.
Qed.

(** Moving an item to the end keeps the keys distinct. *)
Lemma unique_keys_moved key d kv :
  OD.unique_keys d = true -> OD.lookup key d = Some kv ->
  OD.unique_keys (OD.remove key d ++ [kv]) = true.
Proof.
  intros Hu Hl. destruct kv as [k e].
  apply unique_keys_snoc; [now apply unique_keys_remove|].
  apply (ODFacts.lookup_congr key k).
  - rewrite key_eqb_sym. exact (ODFacts.lookup_key key d k e Hl).
  - now apply ODFacts.lookup_remove.
Qed.

(** Deleting, moving or assigning under one key leaves what is stored
    under a key that is not [==] to it. *)
Lemma lookup_remove_other key k d :
  key_eqb key k = false ->
  OD.lookup k (OD.remove key d) = OD.lookup k d.
Proof.
  intros Hk. induction d as [|[k0 e0] r IH]; simpl; [reflexivity|].
  destruct (key_eqb k0 key) eqn:H0; simpl.
  - destruct (key_eqb k0 k) eqn:H1; [|reflexivity].
    exfalso. rewrite (key_eqb_sym k0 key) in H0.
    rewrite (key_eqb_trans key k0 k H0 H1) in Hk. discriminate.
  - destruct (key_eqb k0 k); [reflexivity | exact IH].
Qed.

Lemma lookup_snoc_other key k k1 e d :
  key_eqb key k = false -> key_eqb k1 key = true ->
  OD.lookup k (d ++ [(k1, e)]) = OD.lookup k d.
Proof.
  intros Hk H1. induction d as [|[k0 e0] r IH]; simpl.
  - destruct (key_eqb k1 k) eqn:H1k; [|reflexivity].
    exfalso. rewrite (key_eqb_sym k1 key) in H1.
    rewrite (key_eqb_trans key k1 k H1 H1k) in Hk. discriminate.
  - destruct (key_eqb k0 k); [reflexivity | exact IH].
Qed.

Lemma lookup_setitem_other key k e d :
  key_eqb key k = false ->
  OD.lookup k (OD.setitem key e d) = OD.lookup k d.
Proof.
  intros Hk. induction d as [|[k0 e0] r IH]; simpl.
  - now rewrite Hk.
  - destruct (key_eqb k0 key) eqn:H0; simpl.
    + destruct (key_eqb k0 k) eqn:H1; [|reflexivity].
      exfalso. rewrite (key_eqb_sym k0 key) in H0.
      rewrite (key_eqb_trans key k0 k H0 H1) in Hk. discriminate.
    + destruct (key_eqb k0 k); [reflexivity | exact IH].
Qed.

(** With distinct keys, what was assigned is found under the key. *)
Lemma lookup_setitem_moved key e d k e0 :
  OD.unique_keys d = true -> OD.lookup key d = Some (k, e0) ->
  OD.setitem key e (OD.remove key d ++ [(k, e0)])
  = OD.remove key d ++ [(k, e)].
Proof.
  intros Hu Hl. apply ODFacts.setitem_last.
  - now apply ODFacts.lookup_remove.
  - exact (ODFacts.lookup_key key d k e0 Hl).
Qed.
End Laws.

End StoreFacts.

(* ================================================================== *)
(** * More about the engine: what a call changes and what it keeps *)
(* ================================================================== *)

Module CallFacts.

Section Effects.
Context {K V T : Type} {HK : KeyEq K} {HC : Clock T}.
Implicit Types (c : LRUCache K V T) (st : OD.t K (V * option T)).
Implicit Types (key : K) (value : V) (now : T).

(** With a capacity of zero or more the loop pops the entries in excess,
    oldest first, and no more. *)
Lemma evict_loop_skipn m st ev :
  0 <= m ->
  evict_loop m st ev
  = ((skipn (Z.to_nat (OD.len st - m)) st,
      ev + Z.max 0 (OD.len st - m)), inr tt).
Proof.
  intros Hm. revert ev. induction st as [|kv rest IH]; intros ev.
  - cbn [evict_loop]. unfold OD.len. cbn [List.length Z.of_nat].
    destruct (0 >? m) eqn:Hgt; [lia|].
    rewrite skipn_nil. do 2 f_equal. lia.
  - cbn [evict_loop].
    destruct (OD.len (kv :: rest) >? m) eqn:Hgt.
    + rewrite IH. unfold OD.len in *. cbn [List.length] in *.
      rewrite Z.gtb_ltb in Hgt. apply Z.ltb_lt in Hgt.
      replace (Z.to_nat (Z.of_nat (S (List.length rest)) - m))
        with (S (Z.to_nat (Z.of_nat (List.length rest) - m))) by lia.
      cbn [skipn]. do 2 f_equal. lia.
    + unfold OD.len in *.
      rewrite Z.gtb_ltb in Hgt. apply Z.ltb_ge in Hgt.
      replace (Z.to_nat (Z.of_nat (List.length (kv :: rest)) - m))
        with 0%nat by lia.
      cbn [skipn]. do 2 f_equal. lia.
Qed.

Lemma _evict_if_needed_effects c :
  exists popped,
    store c = popped ++ store (fst (_evict_if_needed c))
    /\ evictions (fst (_evict_if_needed c)) = evictions c + OD.len popped
    /\ hits (fst (_evict_if_needed c)) = hits c
    /\ misses (fst (_evict_if_needed c)) = misses c
    /\ max_size (fst (_evict_if_needed c)) = max_size c
    /\ ttl (fst (_evict_if_needed c)) = ttl c.
Proof.
  rewrite EngineFacts._evict_if_needed_eq.
  destruct (evict_loop (max_size c) (store c) (evictions c))
    as [[st ev] r] eqn:He.
  destruct (EngineFacts.evict_loop_pops _ _ _ _ _ _ He) as (popped & Hst & Hev).
  exists popped. simpl. repeat split; assumption.
Qed.

Lemma set_effects key value now c :
  exists popped,
    store_after_assign c key value now
    = popped ++ store (fst (set key value now c))
    /\ evictions (fst (set key value now c)) = evictions c + OD.len popped
    /\ hits (fst (set key value now c)) = hits c
    /\ misses (fst (set key value now c)) = misses c
    /\ max_size (fst (set key value now c)) = max_size c
    /\ ttl (fst (set key value now c)) = ttl c.
Proof.
  rewrite EngineFacts.set_eq.
  exact (_evict_if_needed_effects
           (with_store (store_after_assign c key value now) c)).
Qed.

Lemma resize_effects n c :
  exists popped,
    store c = popped ++ store (fst (resize n c))
    /\ evictions (fst (resize n c)) = evictions c + OD.len popped
    /\ hits (fst (resize n c)) = hits c
    /\ misses (fst (resize n c)) = misses c
    /\ max_size (fst (resize n c)) = n
    /\ ttl (fst (resize n c)) = ttl c.
Proof.
  rewrite EngineFacts.resize_eq.
  exact (_evict_if_needed_effects
           (mkLRUCache n (ttl c) (store c) (hits c) (misses c) (evictions c))).
Qed.

(** The three ways through [get]. *)
Lemma get_cases key now c :
  (OD.lookup key (store c) = None
   /\ get key now c
      = (mkLRUCache (max_size c) (ttl c) (store c) (hits c) (misses c + 1)
                    (evictions c), inr None))
  \/ (exists k v t,
         OD.lookup key (store c) = Some (k, (v, t))
         /\ _is_expired now t = true
         /\ get key now c
            = (mkLRUCache (max_size c) (ttl c) (OD.remove key (store c))
                          (hits c) (misses c + 1) (evictions c), inr None))
  \/ (exists k v t,
         OD.lookup key (store c) = Some (k, (v, t))
         /\ _is_expired now t = false
         /\ get key now c
            = (mkLRUCache (max_size c) (ttl c)
                          (OD.remove key (store c) ++ [(k, (v, t))])
                          (hits c + 1) (misses c) (evictions c),
               inr (Some v))).
Proof.
  destruct (OD.lookup key (store c)) as [[k [v t]]|] eqn:Hl.
  - destruct (_is_expired now t) eqn:Hx.
    + right. left. exists k, v, t. repeat split; trivial.
      now apply EngineFacts.get_expired with (k := k) (value := v) (t := t).
    + right. right. exists k, v, t. repeat split; trivial.
      now apply EngineFacts.get_live.
  - left. split; [reflexivity|]. now apply EngineFacts.get_absent.
Qed.

(** The three ways through the membership test. *)
Lemma __contains___cases key now c :
  (OD.lookup key (store c) = None /\ __contains__ key now c = (c, inr false))
  \/ (exists k v t,
         OD.lookup key (store c) = Some (k, (v, t))
         /\ _is_expired now t = true
         /\ __contains__ key now c
            = (with_store (OD.remove key (store c)) c, inr false))
  \/ (exists k v t,
         OD.lookup key (store c) = Some (k, (v, t))
         /\ _is_expired now t = false
         /\ __contains__ key now c = (c, inr true)).
Proof.
  unfold __contains__, bind, read, lift, write_store, ret,
    OD.contains, OD.getitem, OD.delitem, OD.contains.
  destruct (OD.lookup key (store c)) as [[k [v t]]|] eqn:Hl; simpl.
  - destruct (_is_expired now t) eqn:Hx.
    + right. left. exists k, v, t. repeat split; assumption.
    + right. right. exists k, v, t. repeat split; assumption.
  - left. split; reflexivity.
Qed.

(** The two ways through [delete]. *)
Lemma delete_cases key c :
  (OD.lookup key (store c) = None /\ delete key c = (c, inr false))
  \/ (exists kv,
         OD.lookup key (store c) = Some kv
         /\ delete key c = (with_store (OD.remove key (store c)) c, inr true)).
Proof.
  unfold delete, bind, read, lift, write_store, ret, OD.delitem, OD.contains.
  destruct (OD.lookup key (store c)) as [kv|] eqn:Hl; simpl.
  - right. exists kv. split; reflexivity.
  - left. split; reflexivity.
Qed.
End Effects.

End CallFacts.

Module RunFacts.

Section Keeps.
Context {K V T : Type} {HK : KeyEq K} {HC : Clock T}.
Implicit Types (c : LRUCache K V T) (key : K) (value : V) (now : T).

Lemma grown_refl c : grown c c.
Proof. unfold grown. repeat split; lia. Qed.

Lemma grown_trans c1 c2 c3 : grown c1 c2 -> grown c2 c3 -> grown c1 c3.
Proof.
  unfold grown. intros (H1 & H2 & H3 & H4) (H5 & H6 & H7 & H8).
  repeat split; try lia. congruence.
Qed.

Lemma len_nonneg (popped : OD.t K (V * option T)) : 0 <= OD.len popped.
Proof. unfold OD.len. lia. Qed.

Lemma call_grown (o : op K V T) c : grown c (fst (call o c)).
Proof.
  unfold grown.
  destruct o as [key value now|key now|key now|key| |n| ]; cbn [call].
  - destruct (CallFacts.set_effects key value now c)
      as (popped & _ & Hev & Hh & Hm & _ & Ht).
    pose proof (len_nonneg popped). repeat split; try lia. exact Ht.
  - unfold void, bind, ret.
    destruct (CallFacts.get_cases key now c)
      as [[_ ->]|[(k & v & t & _ & _ & ->)|(k & v & t & _ & _ & ->)]];
      simpl; repeat split; lia.
  - unfold void, bind, ret.
    destruct (CallFacts.__contains___cases key now c)
      as [[_ ->]|[(k & v & t & _ & _ & ->)|(k & v & t & _ & _ & ->)]];
      simpl; repeat split; lia.
  - unfold void, bind, ret.
    destruct (CallFacts.delete_cases key c) as [[_ ->]|(kv & _ & ->)];
      simpl; repeat split; lia.
  - rewrite EngineFacts.clear_eq. simpl. repeat split; lia.
  - destruct (CallFacts.resize_effects n c)
      as (popped & _ & Hev & Hh & Hm & _ & Ht).
    pose proof (len_nonneg popped). repeat split; try lia. exact Ht.
  - unfold void, bind, ret. rewrite EngineFacts.stats_eq. simpl.
    repeat split; lia.
Qed.

Lemma run_step (o : op K V T) (rest : list (op K V T)) c :
  fst (run (o :: rest) c) = fst (call o c)
  \/ fst (run (o :: rest) c) = fst (run rest (fst (call o c))).
Proof.
  cbn [run]. unfold bind. destruct (call o c) as [c1 [e|[]]]; simpl; auto.
Qed.

Lemma run_grown (ops : list (op K V T)) c : grown c (fst (run ops c)).
Proof.
  revert c. induction ops as [|o rest IH]; intros c.
  - apply grown_refl.
  - destruct (run_step o rest c) as [-> | ->].
    + apply call_grown.
    + eapply grown_trans; [apply call_grown | apply IH].
Qed.
End Keeps.

Section DistinctKeys.
Context {K V T : Type} {HK : KeyEq K} {HL : KeyEqLaws K} {HC : Clock T}.
Implicit Types (c : LRUCache K V T) (key : K) (value : V) (now : T).

Lemma store_after_assign_unique key value now c :
  OD.unique_keys (store c) = true ->
  OD.unique_keys (store_after_assign c key value now) = true.
Proof.
  intros Hu. unfold store_after_assign.
  apply StoreFacts.unique_keys_setitem.
  destruct (OD.lookup key (store c)) as [kv|] eqn:Hl; [|exact Hu].
  now apply StoreFacts.unique_keys_moved.
Qed.

Lemma call_unique (o : op K V T) c :
  OD.unique_keys (store c) = true ->
  OD.unique_keys (store (fst (call o c))) = true.
Proof.
  intros Hu.
  destruct o as [key value now|key now|key now|key| |n| ]; cbn [call].
  - destruct (CallFacts.set_effects key value now c) as (popped & Hst & _).
    apply (StoreFacts.unique_keys_tail popped). rewrite <- Hst.
    now apply store_after_assign_unique.
  - unfold void, bind, ret.
    destruct (CallFacts.get_cases key now c)
      as [[_ ->]|[(k & v & t & Hl & _ & ->)|(k & v & t & Hl & _ & ->)]];
      simpl; trivial.
    + now apply StoreFacts.unique_keys_remove.
    + now apply StoreFacts.unique_keys_moved.
  - unfold void, bind, ret.
    destruct (CallFacts.__contains___cases key now c)
      as [[_ ->]|[(k & v & t & Hl & _ & ->)|(k & v & t & Hl & _ & ->)]];
      simpl; trivial.
    now apply StoreFacts.unique_keys_remove.
  - unfold void, bind, ret.
    destruct (CallFacts.delete_cases key c) as [[_ ->]|(kv & _ & ->)];
      simpl; trivial.
    now apply StoreFacts.unique_keys_remove.
  - reflexivity.
  - destruct (CallFacts.resize_effects n c) as (popped & Hst & _).
    apply (StoreFacts.unique_keys_tail popped). now rewrite <- Hst.
  - unfold void, bind, ret. rewrite EngineFacts.stats_eq. exact Hu.
Qed.

Lemma run_unique (ops : list (op K V T)) c :
  OD.unique_keys (store c) = true ->
  OD.unique_keys (store (fst (run ops c))) = true.
Proof.
  revert c. induction ops as [|o rest IH]; intros c Hu; [exact Hu|].
  destruct (run_step o rest c) as [-> | ->].
  - now apply call_unique.
  - apply IH. now apply call_unique.
Qed.

(** After a [set] with a positive capacity the value is under the key. *)
Lemma set_lookup key value now c :
  OD.unique_keys (store c) = true -> 0 < max_size c ->
  exists c1 k,
    set key value now c = (c1, inr tt)
    /\ OD.lookup key (store c1) = Some (k, (value, expiration c now))
    /\ hits c1 = hits c /\ misses c1 = misses c /\ ttl c1 = ttl c
    /\ max_size c1 = max_size c.
Proof.
  intros Hu Hm.
  destruct (OD.lookup key (store c)) as [[k e0]|] eqn:Hl.
  - rewrite EngineFacts.set_eq, EngineFacts._evict_if_needed_eq.
    unfold store_after_assign. rewrite Hl.
    cbn [with_store max_size store ttl hits misses evictions].
    rewrite (StoreFacts.lookup_setitem_moved key _ (store c) k e0 Hu Hl).
    destruct (EngineFacts.evict_loop_keeps_last (max_size c)
                (OD.remove key (store c))
                (k, (value, expiration c now)) (evictions c) Hm)
      as (front & ev & He).
    destruct (EngineFacts.evict_loop_pops _ _ _ _ _ _ He)
      as (popped & Hst & _).
    rewrite app_assoc in Hst. apply app_inv_tail in Hst.
    rewrite He. eexists. exists k. split; [reflexivity|].
    simpl. repeat split.
    pose proof (ODFacts.lookup_remove key (store c) Hu) as Hnone.
    rewrite Hst in Hnone. apply ODFacts.lookup_app_none in Hnone.
    rewrite (ODFacts.lookup_app_absent key front _ Hnone). simpl.
    now rewrite (ODFacts.lookup_key key (store c) k e0 Hl).
  - destruct (EngineFacts.set_stores key value now c Hl Hm (key_eqb_refl key))
      as (c1 & Hset & Hmax & Hlk).
    exists c1, key. split; [exact Hset|]. split; [exact Hlk|].
    destruct (CallFacts.set_effects key value now c)
      as (_ & _ & _ & Hh & Hmi & _ & Ht).
    rewrite Hset in Hh, Hmi, Ht. simpl in Hh, Hmi, Ht. auto.
Qed.
End DistinctKeys.

End RunFacts.

(* ================================================================== *)
(** * Further properties of the cache engine *)
(* ================================================================== *)

(** X1.  What [set] has stored, [get] returns: on a store with distinct
    keys and a positive capacity, a [get] of the key made before the new
    entry expires returns the value and counts a hit. *)
Theorem set_then_get {K V T : Type} {HK : KeyEq K} {HL : KeyEqLaws K}
        {HC : Clock T} (c : LRUCache K V T) (key : K) (value : V)
        (now now' : T) :
  OD.unique_keys (store c) = true ->
  0 < max_size c ->
  _is_expired now' (expiration c now) = false ->
  exists c1 c2,
    set key value now c = (c1, inr tt)
    /\ get key now' c1 = (c2, inr (Some value))
    /\ hits c2 = hits c + 1
    /\ misses c2 = misses c.
Proof.
  intros Hu Hm Hx.
  destruct (RunFacts.set_lookup key value now c Hu Hm)
    as (c1 & k & Hset & Hl & Hh & Hmi & _ & _).
  exists c1. eexists. split; [exact Hset|].
  rewrite (EngineFacts.get_live key now' c1 k value _ Hl Hx).
  split; [reflexivity|]. simpl. split; lia.
Qed.

Lemma set_then_get_witness :
  let c : LRUCache string Z Z :=
    mkLRUCache 2 (Some 10) [("a", (1, Some 3)); ("b", (2, Some 4))] 0 0 0 in
  OD.unique_keys (store c) = true
  /\ 0 < max_size c
  /\ _is_expired 12 (expiration c 5) = false
  /\ exists c1 c2,
      set "a" 7 5 c = (c1, inr tt)
      /\ get "a" 12 c1 = (c2, inr (Some 7))
      /\ hits c2 = hits c + 1
      /\ misses c2 = misses c.
Proof.
  intros c.
  assert (Hu : OD.unique_keys (store c) = true) by reflexivity.
  assert (Hm : 0 < max_size c) by (simpl; lia).
  assert (Hx : _is_expired 12 (expiration c 5) = false) by reflexivity.
  split; [exact Hu|]. split; [exact Hm|]. split; [exact Hx|].
  exact (set_then_get c "a" 7 5 12 Hu Hm Hx).
Defined.

(** X2.  Whatever calls are made, in whatever state, and whether or not
    one of them raises: [hits], [misses] and [evictions] never go down, and
    [ttl] stays what the constructor was given. *)
Theorem counters_never_decrease {K V T : Type} {HK : KeyEq K} {HC : Clock T}
        (ops : list (op K V T)) (c : LRUCache K V T) :
  hits c <= hits (fst (run ops c))
  /\ misses c <= misses (fst (run ops c))
  /\ evictions c <= evictions (fst (run ops c))
  /\ ttl (fst (run ops c)) = ttl c.
Proof. exact (RunFacts.run_grown ops c). Qed.

(** X3.  [get] never raises and counts every call once.  On a key whose
    entry is there and live it counts a hit and returns the stored value,
    whatever that value is, [None] included; on a key that is not there or
    whose entry has expired it counts a miss and returns [None].  It leaves
    [evictions], the capacity and the lifetime alone and never grows the
    store. *)
Theorem get_counts_once {K V T : Type} {HK : KeyEq K} {HC : Clock T}
        (c : LRUCache K V T) (key : K) (now : T) :
  exists c' o,
    get key now c = (c', inr o)
    /\ hits c' + misses c' = hits c + misses c + 1
    /\ (forall k v t,
           OD.lookup key (store c) = Some (k, (v, t)) ->
           _is_expired now t = false ->
           o = Some v /\ hits c' = hits c + 1 /\ misses c' = misses c)
    /\ (OD.lookup key (store c) = None
        \/ (exists k v t, OD.lookup key (store c) = Some (k, (v, t))
                          /\ _is_expired now t = true) ->
        o = None /\ hits c' = hits c /\ misses c' = misses c + 1)
    /\ evictions c' = evictions c
    /\ max_size c' = max_size c /\ ttl c' = ttl c
    /\ current_size c' <= current_size c.
Proof.
  destruct (EngineFacts.get_returns key now c)
    as (c' & o & Hg & Hmax & Httl & Hev & Hlen).
  exists c', o. split; [exact Hg|].
  assert (Hrest : evictions c' = evictions c
                  /\ max_size c' = max_size c /\ ttl c' = ttl c
                  /\ current_size c' <= current_size c)
    by (repeat split; assumption).
  destruct (CallFacts.get_cases key now c)
    as [[Hl Hc]|[(k & v & t & Hl & Hx & Hc)|(k & v & t & Hl & Hx & Hc)]];
    rewrite Hc in Hg; injection Hg as <- <-; cbn [hits misses].
  - split; [lia|]. split; [|split; [|exact Hrest]].
    + intros k v t Hl'. congruence.
    + intros _. repeat split; lia.
  - split; [lia|]. split; [|split; [|exact Hrest]].
    + intros k' v' t' Hl' Hx'. congruence.
    + intros _. repeat split; lia.
  - split; [lia|]. split; [|split; [|exact Hrest]].
    + intros k' v' t' Hl' _. rewrite Hl in Hl'. injection Hl' as <- <- <-.
      repeat split; lia.
    + intros [Hn|(k' & v' & t' & Hl' & Hx')]; congruence.
Qed.

Lemma get_counts_once_witness :
  let c : LRUCache string pyobj Z :=
    mkLRUCache 2 None [("n", (PyNone, None)); ("x", (PyInt 1, Some 3))]
               0 0 0 in
  (exists c', get "n" 9 c = (c', inr (Some PyNone))
              /\ hits c' = hits c + 1 /\ misses c' = misses c)
  /\ (exists c', get "x" 9 c = (c', inr None)
                 /\ hits c' = hits c /\ misses c' = misses c + 1)
  /\ (exists c', get "y" 9 c = (c', inr None)
                 /\ hits c' = hits c /\ misses c' = misses c + 1).
Proof.
  intros c. split; [|split].
  - destruct (get_counts_once c "n" 9) as (c' & o & Hg & _ & Hhit & _).
    destruct (Hhit "n" PyNone None eq_refl eq_refl) as (-> & Hh & Hm).
    exists c'. auto.
  - destruct (get_counts_once c "x" 9) as (c' & o & Hg & _ & _ & Hmiss & _).
    destruct Hmiss as (-> & Hh & Hm).
    { right. exists "x", (PyInt 1), (Some 3). split; reflexivity. }
    exists c'. auto.
  - destruct (get_counts_once c "y" 9) as (c' & o & Hg & _ & _ & Hmiss & _).
    destruct Hmiss as (-> & Hh & Hm).
    { left. reflexivity. }
    exists c'. auto.
Defined.

(** X4.  A [set] of a key that is not in the store, on an engine within
    its positive capacity.  Below the capacity the entry is appended and
    nothing is evicted.  At the capacity exactly one entry is evicted, the
    one at the head of the store, whether or not any entry has expired. *)
Theorem set_new_key {K V T : Type} {HK : KeyEq K} {HC : Clock T}
        (c : LRUCache K V T) (key : K) (value : V) (now : T) :
  OD.lookup key (store c) = None ->
  0 < max_size c ->
  current_size c <= max_size c ->
  exists c',
    set key value now c = (c', inr tt)
    /\ hits c' = hits c /\ misses c' = misses c
    /\ (current_size c < max_size c ->
        store c' = store c ++ [(key, (value, expiration c now))]
        /\ evictions c' = evictions c)
    /\ (current_size c = max_size c ->
        store c' = tl (store c) ++ [(key, (value, expiration c now))]
        /\ evictions c' = evictions c + 1
        /\ current_size c' = max_size c).
Proof.
  intros Hl Hm Hb.
  rewrite EngineFacts.set_eq, EngineFacts._evict_if_needed_eq.
  unfold store_after_assign. rewrite Hl.
  rewrite (ODFacts.setitem_absent key _ (store c) Hl).
  cbn [with_store max_size store ttl hits misses evictions].
  rewrite CallFacts.evict_loop_skipn by lia.
  eexists. split; [reflexivity|]. cbn [fst snd hits misses store evictions].
  split; [reflexivity|]. split; [reflexivity|].
  unfold current_size, OD.len in *. rewrite length_app. cbn [List.length].
  split.
  - intros Hlt.
    replace (Z.to_nat (Z.of_nat (List.length (store c) + 1) - max_size c))
      with 0%nat by lia.
    split; [reflexivity | lia].
  - intros Heq.
    replace (Z.to_nat (Z.of_nat (List.length (store c) + 1) - max_size c))
      with 1%nat by lia.
    destruct (store c) as [|oldest rest] eqn:Hst.
    + simpl in Heq. lia.
    + cbn [app skipn tl]. split; [reflexivity|]. split; [lia|].
      cbn [List.length] in Heq. simpl. rewrite length_app. simpl. lia.
Qed.

Lemma set_new_key_witness :
  let c : LRUCache string Z Z :=
    mkLRUCache 2 None [("a", (1, None)); ("b", (2, None))] 0 0 0 in
  OD.lookup "c" (store c) = None
  /\ 0 < max_size c
  /\ current_size c <= max_size c
  /\ exists c',
      set "c" 3 0 c = (c', inr tt)
      /\ hits c' = hits c /\ misses c' = misses c
      /\ (current_size c < max_size c ->
          store c' = store c ++ [("c", (3, expiration c 0))]
          /\ evictions c' = evictions c)
      /\ (current_size c = max_size c ->
          store c' = tl (store c) ++ [("c", (3, expiration c 0))]
          /\ evictions c' = evictions c + 1
          /\ current_size c' = max_size c).
Proof.
  intros c.
  assert (Hl : OD.lookup "c" (store c) = None) by reflexivity.
  assert (Hm : 0 < max_size c) by (simpl; lia).
  assert (Hb : current_size c <= max_size c)
    by (unfold current_size, OD.len; simpl; lia).
  split; [exact Hl|]. split; [exact Hm|]. split; [exact Hb|].
  exact (set_new_key c "c" 3 0 Hl Hm Hb).
Defined.

(** X5.  A [set] of a key that is in the store, on an engine within its
    capacity, evicts nothing and keeps the size: the entry moves to the
    end under the key it was stored with, with the new value and a new
    expiration time, and every other entry stays in its order. *)
Theorem set_existing_key {K V T : Type} {HK : KeyEq K} {HL : KeyEqLaws K}
        {HC : Clock T} (c : LRUCache K V T) (key k : K) (value : V)
        (old : V * option T) (now : T) :
  OD.unique_keys (store c) = true ->
  OD.lookup key (store c) = Some (k, old) ->
  0 <= max_size c ->
  current_size c <= max_size c ->
  exists c',
    set key value now c = (c', inr tt)
    /\ store c'
       = OD.remove key (store c) ++ [(k, (value, expiration c now))]
    /\ current_size c' = current_size c
    /\ evictions c' = evictions c
    /\ hits c' = hits c /\ misses c' = misses c.
Proof.
  intros Hu Hl Hm Hb.
  rewrite EngineFacts.set_eq, EngineFacts._evict_if_needed_eq.
  unfold store_after_assign. rewrite Hl.
  rewrite (StoreFacts.lookup_setitem_moved key _ (store c) k old Hu Hl).
  cbn [with_store max_size store ttl hits misses evictions].
  rewrite CallFacts.evict_loop_skipn by lia.
  assert (Hlen : OD.len (OD.remove key (store c)
                         ++ [(k, (value, expiration c now))])
                 = current_size c).
  { unfold current_size, OD.len. rewrite length_app. cbn [List.length].
    pose proof (ODFacts.length_remove key (store c) _ Hl). lia. }
  rewrite Hlen.
  replace (Z.to_nat (current_size c - max_size c)) with 0%nat by lia.
  eexists. split; [reflexivity|]. cbn [skipn fst snd store evictions hits
    misses]. split; [reflexivity|]. split; [exact Hlen|].
  repeat split; lia.
Qed.

Lemma set_existing_key_witness :
  let c : LRUCache string Z Z :=
    mkLRUCache 2 (Some 10) [("a", (1, Some 3)); ("b", (2, Some 4))] 0 0 0 in
  OD.unique_keys (store c) = true
  /\ OD.lookup "a" (store c) = Some ("a", (1, Some 3))
  /\ 0 <= max_size c
  /\ current_size c <= max_size c
  /\ exists c',
      set "a" 7 5 c = (c', inr tt)
      /\ store c' = OD.remove "a" (store c) ++ [("a", (7, expiration c 5))]
      /\ current_size c' = current_size c
      /\ evictions c' = evictions c
      /\ hits c' = hits c /\ misses c' = misses c.
Proof.
  intros c.
  assert (Hu : OD.unique_keys (store c) = true) by reflexivity.
  assert (Hl : OD.lookup "a" (store c) = Some ("a", (1, Some 3)))
    by reflexivity.
  assert (Hm : 0 <= max_size c) by (simpl; lia).
  assert (Hb : current_size c <= max_size c)
    by (unfold current_size, OD.len; simpl; lia).
  split; [exact Hu|]. split; [exact Hl|]. split; [exact Hm|].
  split; [exact Hb|].
  exact (set_existing_key c "a" "a" 7 (1, Some 3) 5 Hu Hl Hm Hb).
Defined.

(** X6.  [resize] to a capacity of zero or more returns with the most
    recently used entries, as many as the new capacity allows, in their
    order; each entry dropped is counted as an eviction, and a capacity
    that the store fits in drops nothing. *)
Theorem resize_keeps_most_recent {K V T : Type} {HK : KeyEq K} {HC : Clock T}
        (c : LRUCache K V T) (n : Z) :
  0 <= n ->
  exists c',
    resize n c = (c', inr tt)
    /\ max_size c' = n
    /\ store c' = skipn (Z.to_nat (current_size c - n)) (store c)
    /\ evictions c' = evictions c + Z.max 0 (current_size c - n)
    /\ current_size c' = Z.min n (current_size c)
    /\ hits c' = hits c /\ misses c' = misses c /\ ttl c' = ttl c.
Proof.
  intros Hn.
  rewrite EngineFacts.resize_eq, EngineFacts._evict_if_needed_eq.
  cbn [max_size store ttl hits misses evictions].
  rewrite CallFacts.evict_loop_skipn by lia.
  eexists. split; [reflexivity|].
  cbn [fst snd max_size store evictions hits misses ttl].
  repeat split.
  unfold current_size, OD.len. cbn [store]. rewrite length_skipn. lia.
Qed.

Lemma resize_keeps_most_recent_witness :
  let c : LRUCache string Z Z :=
    mkLRUCache 3 None [("a", (1, None)); ("b", (2, None)); ("c", (3, None))]
               0 0 0 in
  0 <= 1
  /\ exists c',
      resize 1 c = (c', inr tt)
      /\ max_size c' = 1
      /\ store c' = skipn (Z.to_nat (current_size c - 1)) (store c)
      /\ evictions c' = evictions c + Z.max 0 (current_size c - 1)
      /\ current_size c' = Z.min 1 (current_size c)
      /\ hits c' = hits c /\ misses c' = misses c /\ ttl c' = ttl c.
Proof.
  intros c. assert (H1 : 0 <= 1) by lia.
  split; [exact H1|]. exact (resize_keeps_most_recent c 1 H1).
Defined.

(** X7.  [delete] looks at the key only, not at the expiration time.  On a
    key that is in the store it returns [True]; the entry is gone, the
    others stay in their order and no counter moves.  On a key that is not
    in the store it returns [False] and changes nothing. *)
Theorem delete_removes_entry {K V T : Type} {HK : KeyEq K}
        {HL : KeyEqLaws K} {HC : Clock T} (c : LRUCache K V T) (key : K) :
  (forall kv,
      OD.unique_keys (store c) = true ->
      OD.lookup key (store c) = Some kv ->
      exists c',
        delete key c = (c', inr true)
        /\ store c' = OD.remove key (store c)
        /\ OD.contains key (store c') = false
        /\ current_size c' = current_size c - 1
        /\ hits c' = hits c /\ misses c' = misses c
        /\ evictions c' = evictions c)
  /\ (OD.lookup key (store c) = None -> delete key c = (c, inr false)).
Proof.
  split.
  - intros kv Hu Hl.
    destruct (CallFacts.delete_cases key c) as [[Hn _]|(kv' & _ & ->)];
      [congruence|].
    eexists. split; [reflexivity|]. simpl. repeat split.
    + apply ODFacts.contains_false_lookup. now apply ODFacts.lookup_remove.
    + unfold current_size, OD.len. simpl.
      pose proof (ODFacts.length_remove key (store c) _ Hl). lia.
  - intros Hl.
    destruct (CallFacts.delete_cases key c) as [[_ ->]|(kv' & Hl' & _)];
      [reflexivity | congruence].
Qed.

Lemma delete_removes_entry_witness :
  let c : LRUCache string Z Z :=
    mkLRUCache 2 (Some 1) [("a", (1, Some 3)); ("b", (2, Some 4))] 5 6 7 in
  (exists c',
      delete "a" c = (c', inr true)
      /\ store c' = OD.remove "a" (store c)
      /\ OD.contains "a" (store c') = false
      /\ current_size c' = current_size c - 1
      /\ hits c' = hits c /\ misses c' = misses c
      /\ evictions c' = evictions c)
  /\ delete "z" c = (c, inr false).
Proof.
  intros c. split.
  - exact (proj1 (delete_removes_entry c "a") ("a", (1, Some 3))
                 eq_refl eq_refl).
  - exact (proj2 (delete_removes_entry c "z") eq_refl).
Defined.


(** X9.  The keys of the store stay distinct through every run of calls,
    whether or not a call raises. *)
Theorem keys_stay_distinct {K V T : Type} {HK : KeyEq K} {HL : KeyEqLaws K}
        {HC : Clock T} (ops : list (op K V T)) (c : LRUCache K V T) :
  OD.unique_keys (store c) = true ->
  OD.unique_keys (store (fst (run ops c))) = true.
Proof. apply RunFacts.run_unique. Qed.

Lemma keys_stay_distinct_witness :
  let c : LRUCache string Z Z := mkLRUCache 2 (Some 3) [] 0 0 0 in
  let ops := [Set_ "a" 1 0; Set_ "b" 2 1; Set_ "a" 3 2; Get "b" 9;
              Set_ "c" 4 9; Resize (-1); Set_ "d" 5 9] in
  OD.unique_keys (store c) = true
  /\ OD.unique_keys (store (fst (run ops c))) = true.
Proof.
  intros c ops.
  assert (Hu : OD.unique_keys (store c) = true) by reflexivity.
  split; [exact Hu|]. exact (keys_stay_distinct ops c Hu).
Defined.

(** X10.  An engine of capacity zero stores nothing: a [set] on it returns
    with the store empty, the entry it had just assigned evicted and
    counted, and a [get] of the key right after is a miss. *)
Theorem zero_capacity_stores_nothing {K V T : Type} {HK : KeyEq K}
        {HC : Clock T} (c : LRUCache K V T) (key : K) (value : V)
        (now now' : T) :
  max_size c = 0 ->
  store c = [] ->
  exists c1 c2,
    set key value now c = (c1, inr tt)
    /\ store c1 = []
    /\ evictions c1 = evictions c + 1
    /\ get key now' c1 = (c2, inr None)
    /\ misses c2 = misses c + 1
    /\ hits c2 = hits c.
Proof.
  intros Hm Hst.
  rewrite EngineFacts.set_eq, EngineFacts._evict_if_needed_eq.
  unfold store_after_assign. rewrite Hst.
  cbn [OD.lookup OD.setitem with_store max_size store ttl hits misses
       evictions].
  rewrite Hm. cbn [evict_loop fst snd].
  do 2 eexists. split; [reflexivity|]. cbn [store evictions].
  split; [reflexivity|]. split; [reflexivity|].
  rewrite EngineFacts.get_absent by reflexivity.
  split; [reflexivity|]. simpl. split; reflexivity.
Qed.

Lemma zero_capacity_stores_nothing_witness :
  let c : LRUCache string Z Z := mkLRUCache 0 None [] 0 0 0 in
  max_size c = 0
  /\ store c = []
  /\ exists c1 c2,
      set "a" 1 0 c = (c1, inr tt)
      /\ store c1 = []
      /\ evictions c1 = evictions c + 1
      /\ get "a" 0 c1 = (c2, inr None)
      /\ misses c2 = misses c + 1
      /\ hits c2 = hits c.
Proof.
  intros c.
  assert (Hm : max_size c = 0) by reflexivity.
  assert (Hst : store c = []) by reflexivity.
  split; [exact Hm|]. split; [exact Hst|].
  exact (zero_capacity_stores_nothing c "a" 1 0 0 Hm Hst).
Defined.

(** X11.  [get], the membership test and [delete] on one key, and a [set]
    on it that evicts nothing, leave what is stored under every key that
    is not [==] to it. *)
Theorem other_keys_untouched {K V T : Type} {HK : KeyEq K}
        {HL : KeyEqLaws K} {HC : Clock T} (c : LRUCache K V T)
        (key other : K) (value : V) (now : T) :
  key_eqb key other = false ->
  OD.lookup other (store (fst (get key now c))) = OD.lookup other (store c)
  /\ OD.lookup other (store (fst (__contains__ key now c)))
     = OD.lookup other (store c)
  /\ OD.lookup other (store (fst (delete key c))) = OD.lookup other (store c)
  /\ (evictions (fst (set key value now c)) = evictions c ->
      OD.lookup other (store (fst (set key value now c)))
      = OD.lookup other (store c)).
Proof.
  intros Hk. split; [|split; [|split]].
  - destruct (CallFacts.get_cases key now c)
      as [[_ ->]|[(k & v & t & Hl & _ & ->)|(k & v & t & Hl & _ & ->)]];
      simpl; trivial.
    + now apply StoreFacts.lookup_remove_other.
    + rewrite (StoreFacts.lookup_snoc_other key other k _ _ Hk
                 (ODFacts.lookup_key key (store c) k _ Hl)).
      now apply StoreFacts.lookup_remove_other.
  - destruct (CallFacts.__contains___cases key now c)
      as [[_ ->]|[(k & v & t & Hl & _ & ->)|(k & v & t & Hl & _ & ->)]];
      simpl; trivial.
    now apply StoreFacts.lookup_remove_other.
  - destruct (CallFacts.delete_cases key c) as [[_ ->]|(kv & _ & ->)];
      simpl; trivial.
    now apply StoreFacts.lookup_remove_other.
  - intros Hev.
    destruct (CallFacts.set_effects key value now c)
      as (popped & Hst & Hev' & _).
    assert (Hnil : popped = []).
    { destruct popped; [reflexivity|].
      unfold OD.len in Hev'. simpl List.length in Hev'. lia. }
    subst popped. simpl in Hst. rewrite <- Hst.
    unfold store_after_assign.
    rewrite (StoreFacts.lookup_setitem_other key other _ _ Hk).
    destruct (OD.lookup key (store c)) as [[k e0]|] eqn:Hl; [|reflexivity].
    rewrite (StoreFacts.lookup_snoc_other key other k _ _ Hk
               (ODFacts.lookup_key key (store c) k _ Hl)).
    now apply StoreFacts.lookup_remove_other.
Qed.

Lemma other_keys_untouched_witness :
  let c : LRUCache string Z Z :=
    mkLRUCache 3 (Some 1) [("a", (1, Some 3)); ("b", (2, Some 4))] 0 0 0 in
  key_eqb "a" "b" = false
  /\ OD.lookup "b" (store (fst (get "a" 9 c))) = OD.lookup "b" (store c)
  /\ OD.lookup "b" (store (fst (__contains__ "a" 9 c)))
     = OD.lookup "b" (store c)
  /\ OD.lookup "b" (store (fst (delete "a" c))) = OD.lookup "b" (store c)
  /\ (evictions (fst (set "a" 5 9 c)) = evictions c ->
      OD.lookup "b" (store (fst (set "a" 5 9 c)))
      = OD.lookup "b" (store c)).
Proof.
  intros c.
  assert (Hk : key_eqb "a" "b" = false) by reflexivity.
  split; [exact Hk|]. exact (other_keys_untouched c "a" "b" 5 9 Hk).
Defined.

(* ================================================================== *)
(** * [==] on Python objects is an equivalence *)
(* ================================================================== *)

Module EqFacts.

(** [all(any(f(a, b) for b in l2) for a in l1)], as a proposition. *)
Lemma forall_exists_iff {A B : Type} (f : A -> B -> bool)
      (l1 : list A) (l2 : list B) :
  forallb (fun a => existsb (fun b => f a b) l2) l1 = true
  <-> (forall a, In a l1 -> exists b, In b l2 /\ f a b = true).
Proof.
  rewrite forallb_forall. split; intros Hall a Ha.
  - apply existsb_exists. now apply Hall.
  - apply existsb_exists. now apply Hall.
Qed.

Lemma seq_eq_sym (l1 : list pyobj) :
  Forall (fun a => forall y, py_eq a y = true -> py_eq y a = true) l1 ->
  forall l2, seq_eq py_eq l1 l2 = true -> seq_eq py_eq l2 l1 = true.
Proof.
  induction 1 as [|a r Ha _ IH]; intros [|b l2]; simpl; try discriminate;
    [reflexivity|].
  intros Hab. apply andb_true_iff in Hab as [Hab Hr].
  now rewrite (Ha b Hab), (IH l2 Hr).
Qed.

Lemma seq_eq_trans (l1 : list pyobj) :
  Forall (fun a => forall y z, py_eq a y = true -> py_eq y z = true ->
                               py_eq a z = true) l1 ->
  forall l2 l3, seq_eq py_eq l1 l2 = true -> seq_eq py_eq l2 l3 = true ->
                seq_eq py_eq l1 l3 = true.
Proof.
  induction 1 as [|a r Ha _ IH]; intros [|b l2] [|c l3]; simpl;
    try discriminate; [reflexivity|].
  intros Hab Hbc.
  apply andb_true_iff in Hab as [Hab Hr].
  apply andb_true_iff in Hbc as [Hbc Hr'].
  now rewrite (Ha b c Hab Hbc), (IH l2 l3 Hr Hr').
Qed.

(** Mutual inclusion of two sets, the other way round. *)
Lemma set_eq_sym (l1 l2 : list pyobj) :
  Forall (fun a => forall y, py_eq a y = true -> py_eq y a = true) l1 ->
  forallb (fun a => existsb (fun b => py_eq a b) l2) l1
  && forallb (fun b => existsb (fun a => py_eq a b) l1) l2 = true ->
  forallb (fun b => existsb (fun a => py_eq b a) l1) l2
  && forallb (fun a => existsb (fun b => py_eq b a) l2) l1 = true.
Proof.
  intros IH H12. rewrite Forall_forall in IH.
  apply andb_true_iff in H12 as [HA HB].
  rewrite (forall_exists_iff py_eq l1 l2) in HA.
  rewrite (forall_exists_iff (fun b a => py_eq a b) l2 l1) in HB.
  apply andb_true_iff. split.
  - apply (forall_exists_iff py_eq l2 l1). intros b Hb.
    destruct (HB b Hb) as (a & Ha & Hab). exists a. split; [exact Ha|].
    now apply IH.
  - apply (forall_exists_iff (fun a b => py_eq b a) l1 l2). intros a Ha.
    destruct (HA a Ha) as (b & Hb & Hab). exists b. split; [exact Hb|].
    now apply IH.
Qed.

Lemma set_eq_trans (l1 l2 l3 : list pyobj) :
  Forall (fun a => forall y z, py_eq a y = true -> py_eq y z = true ->
                               py_eq a z = true) l1 ->
  forallb (fun a => existsb (fun b => py_eq a b) l2) l1
  && forallb (fun b => existsb (fun a => py_eq a b) l1) l2 = true ->
  forallb (fun a => existsb (fun b => py_eq a b) l3) l2
  && forallb (fun b => existsb (fun a => py_eq a b) l2) l3 = true ->
  forallb (fun a => existsb (fun b => py_eq a b) l3) l1
  && forallb (fun b => existsb (fun a => py_eq a b) l1) l3 = true.
Proof.
  intros IH H12 H23. rewrite Forall_forall in IH.
  apply andb_true_iff in H12 as [HA HB].
  apply andb_true_iff in H23 as [HA' HB'].
  rewrite (forall_exists_iff py_eq l1 l2) in HA.
  rewrite (forall_exists_iff (fun b a => py_eq a b) l2 l1) in HB.
  rewrite (forall_exists_iff py_eq l2 l3) in HA'.
  rewrite (forall_exists_iff (fun b a => py_eq a b) l3 l2) in HB'.
  apply andb_true_iff. split.
  - apply (forall_exists_iff py_eq l1 l3). intros a Ha.
    destruct (HA a Ha) as (b & Hb & Hab).
    destruct (HA' b Hb) as (c & Hc & Hbc).
    exists c. split; [exact Hc|]. now apply (IH a Ha b c).
  - apply (forall_exists_iff (fun b a => py_eq a b) l3 l1). intros c Hc.
    destruct (HB' c Hc) as (b & Hb & Hbc).
    destruct (HB b Hb) as (a & Ha & Hab).
    exists a. split; [exact Ha|]. now apply (IH a Ha b c).
Qed.

Lemma dict_eq_iff (d1 d2 : list (pyobj * pyobj)) :
  py_eq (PyDict d1) (PyDict d2) = true
  <-> (forall kv2, In kv2 d2 ->
                   exists kv1, In kv1 d1 /\ item_eq kv1 kv2 = true)
      /\ (forall kv1, In kv1 d1 ->
                      exists kv2, In kv2 d2 /\ item_eq kv1 kv2 = true).
Proof.
  cbn [py_eq]. rewrite andb_true_iff.
  rewrite (forall_exists_iff (fun kv2 kv1 => item_eq kv1 kv2) d2 d1).
  rewrite (forall_exists_iff item_eq d1 d2).
  reflexivity.
Qed.

Lemma py_eq_sym_imp (x : pyobj) :
  forall y, py_eq x y = true -> py_eq y x = true.
Proof.
  induction x as [ | z | s | l IH | l IH | d IH | l IH | l IH | h i ]
    using PyFacts.pyobj_nested_ind; intros y; destruct y;
    try (cbn [py_eq]; discriminate).
  - reflexivity.
  - cbn [py_eq]. now rewrite Z.eqb_sym.
  - cbn [py_eq]. now rewrite String.eqb_sym.
  - cbn [py_eq]. now apply seq_eq_sym.
  - cbn [py_eq]. now apply seq_eq_sym.
  - rewrite !dict_eq_iff. intros [H21 H12].
    rewrite Forall_forall in IH. split.
    + intros kv1 H1. destruct (H12 kv1 H1) as (kv2 & H2 & He).
      exists kv2. split; [exact H2|].
      unfold item_eq in *. apply andb_true_iff in He as [Hk Hv].
      destruct (IH kv1 H1) as [IHk IHv].
      now rewrite (IHk _ Hk), (IHv _ Hv).
    + intros kv2 H2. destruct (H21 kv2 H2) as (kv1 & H1 & He).
      exists kv1. split; [exact H1|].
      unfold item_eq in *. apply andb_true_iff in He as [Hk Hv].
      destruct (IH kv1 H1) as [IHk IHv].
      now rewrite (IHk _ Hk), (IHv _ Hv).
  - cbn [py_eq]. now apply set_eq_sym.
  - cbn [py_eq]. now apply set_eq_sym.
  - cbn [py_eq]. now apply set_eq_sym.
  - cbn [py_eq]. now apply set_eq_sym.
  - cbn [py_eq]. now rewrite Nat.eqb_sym.
Qed.

Lemma py_eq_sym (x y : pyobj) : py_eq x y = py_eq y x.
Proof.
  destruct (py_eq x y) eqn:Hxy.
  - symmetry. now apply py_eq_sym_imp.
  - destruct (py_eq y x) eqn:Hyx; [|reflexivity].
    apply py_eq_sym_imp in Hyx. congruence.
Qed.

Lemma py_eq_trans (x : pyobj) :
  forall y z, py_eq x y = true -> py_eq y z = true -> py_eq x z = true.
Proof.
  induction x as [ | z0 | s | l IH | l IH | d IH | l IH | l IH | h i ]
    using PyFacts.pyobj_nested_ind; intros y z; destruct y;
    try (cbn [py_eq]; discriminate); destruct z;
    try (cbn [py_eq]; intros; discriminate).
  - reflexivity.
  - cbn [py_eq]. intros H1 H2.
    apply Z.eqb_eq in H1, H2. subst. apply Z.eqb_refl.
  - cbn [py_eq]. intros H1 H2.
    apply String.eqb_eq in H1, H2. subst. apply String.eqb_refl.
  - cbn [py_eq]. now apply seq_eq_trans.
  - cbn [py_eq]. now apply seq_eq_trans.
  - rewrite !dict_eq_iff. intros [H21 H12] [H32 H23].
    rewrite Forall_forall in IH. split.
    + intros kv3 H3. destruct (H32 kv3 H3) as (kv2 & H2 & He23).
      destruct (H21 kv2 H2) as (kv1 & H1 & He12).
      exists kv1. split; [exact H1|].
      unfold item_eq in *.
      apply andb_true_iff in He12 as [Hk12 Hv12].
      apply andb_true_iff in He23 as [Hk23 Hv23].
      destruct (IH kv1 H1) as [IHk IHv].
      now rewrite (IHk _ _ Hk12 Hk23), (IHv _ _ Hv12 Hv23).
    + intros kv1 H1. destruct (H12 kv1 H1) as (kv2 & H2 & He12).
      destruct (H23 kv2 H2) as (kv3 & H3 & He23).
      exists kv3. split; [exact H3|].
      unfold item_eq in *.
      apply andb_true_iff in He12 as [Hk12 Hv12].
      apply andb_true_iff in He23 as [Hk23 Hv23].
      destruct (IH kv1 H1) as [IHk IHv].
      now rewrite (IHk _ _ Hk12 Hk23), (IHv _ _ Hv12 Hv23).
  - cbn [py_eq]. now apply set_eq_trans.
  - cbn [py_eq]. now apply set_eq_trans.
  - cbn [py_eq]. now apply set_eq_trans.
  - cbn [py_eq]. now apply set_eq_trans.
  - cbn [py_eq]. now apply set_eq_trans.
  - cbn [py_eq]. now apply set_eq_trans.
  - cbn [py_eq]. now apply set_eq_trans.
  - cbn [py_eq]. now apply set_eq_trans.
  - cbn [py_eq]. intros H1 H2.
    apply Nat.eqb_eq in H1, H2. subst. apply Nat.eqb_refl.
Qed.

(** The keys of the wrapper's cache obey the laws of [==]. *)
#[global] Instance KeyEqLaws_pyobj : KeyEqLaws pyobj.
Proof.
  split; unfold key_eqb, KeyEq_pyobj.
  - apply PyFacts.py_eq_refl.
  - apply py_eq_sym.
  - apply py_eq_trans.
Qed.

End EqFacts.

(* ================================================================== *)
(** * More about key derivation *)
(* ================================================================== *)

Module CanonFacts.

Lemma mapM_fixed {A : Type} (f : A -> result A) (l : list A) :
  Forall (fun a => f a = inr a) l -> mapM f l = inr l.
Proof.
  induction 1 as [|a r Ha _ IH]; simpl; [reflexivity|].
  now rewrite Ha, IH.
Qed.

Lemma mapM_results {A B : Type} (f : A -> result B) (P : B -> Prop)
      (l : list A) (ys : list B) :
  mapM f l = inr ys ->
  Forall (fun a => forall y, f a = inr y -> P y) l ->
  Forall P ys.
Proof.
  intros Hm HF. apply PyFacts.mapM_ok_Forall2 in Hm.
  induction Hm as [|a y l' ys' Hay _ IH]; [constructor|].
  inversion HF as [|a' l'' Ha Hl]; subst.
  constructor; [now apply Ha | now apply IH].
Qed.

(** [sorted] returns items of its input. *)
Lemma insert_sorted_In (x : pyobj) (l l' : list pyobj) :
  insert_sorted x l = inr l' -> forall y, In y l' -> y = x \/ In y l.
Proof.
  revert l'. induction l as [|a r IH]; intros l'; simpl.
  - intros [= <-] y [<-|[]]. now left.
  - destruct (py_lt x a) as [e|[|]]; [discriminate| |].
    + intros [= <-] y [<-|Hy]; [now left | now right].
    + destruct (insert_sorted x r) as [e|r'] eqn:Hr; [discriminate|].
      intros [= <-] y [<-|Hy]; [right; now left|].
      destruct (IH r' eq_refl y Hy) as [->|Hin]; [now left | right; now right].
Qed.

Lemma sorted_onto_In (l acc s : list pyobj) :
  sorted_onto acc l = inr s -> forall y, In y s -> In y acc \/ In y l.
Proof.
  revert acc. induction l as [|x r IH]; intros acc; simpl.
  - intros [= <-] y Hy. now left.
  - destruct (insert_sorted x acc) as [e|acc'] eqn:Hins; [discriminate|].
    intros Hs y Hy. destruct (IH acc' Hs y Hy) as [Hacc|Hr].
    + destruct (insert_sorted_In x acc acc' Hins y Hacc) as [->|Hin];
        [right; now left | now left].
    + right. now right.
Qed.

Lemma sorted_In (l s : list pyobj) :
  sorted l = inr s -> forall y, In y s -> In y l.
Proof.
  intros Hs y Hy. destruct (sorted_onto_In l [] s Hs y Hy) as [[]|Hin].
  exact Hin.
Qed.

(** What holds of every canonical item and is kept by the tuple of the
    sequence branch, by the pairs and the tuple of the dict branch and by
    every frozenset holds of every canonical form. *)
Lemma make_hashable_results (P : pyobj -> Prop) :
  (forall x, is_container x = false -> isinstance_Hashable x = true -> P x) ->
  (forall l, Forall P l -> P (PyTuple l)) ->
  forall x h, make_hashable x = inr h -> P h.
Proof.
  intros Hscalar Htuple.
  induction x as [ | z | s | l IH | l IH | d IH | l IH | l IH | b i ]
    using PyFacts.pyobj_nested_ind; intros h; cbn [make_hashable].
  - intros [= <-]. now apply Hscalar.
  - intros [= <-]. now apply Hscalar.
  - intros [= <-]. now apply Hscalar.
  - destruct (mapM make_hashable l) as [e|l'] eqn:Hm; [discriminate|].
    simpl. intros [= <-]. apply Htuple.
    exact (mapM_results make_hashable P l l' Hm IH).
  - destruct (mapM make_hashable l) as [e|l'] eqn:Hm; [discriminate|].
    simpl. intros [= <-]. apply Htuple.
    exact (mapM_results make_hashable P l l' Hm IH).
  - match goal with |- rbind ?m _ = _ -> _ => destruct m as [e|ps] eqn:Hm end;
      [discriminate|].
    simpl. destruct (sorted ps) as [e|srt] eqn:Hs; [discriminate|].
    simpl. intros [= <-]. apply Htuple.
    assert (Hps : Forall P ps).
    { refine (mapM_results _ P d ps Hm _).
      eapply Forall_impl; [|exact IH].
      intros [k v] [IHk IHv] y. simpl in IHk, IHv.
      destruct (make_hashable k) as [e|hk]; [discriminate|].
      destruct (make_hashable v) as [e|hv]; [discriminate|].
      simpl. intros [= <-]. apply Htuple.
      constructor; [now apply IHk|]. constructor; [now apply IHv|].
      constructor. }
    rewrite Forall_forall in Hps. apply Forall_forall. intros y Hy.
    apply Hps. exact (sorted_In ps srt Hs y Hy).
  - destruct (mapM make_hashable l) as [e|l'] eqn:Hm; [discriminate|].
    simpl. intros [= <-]. unfold frozenset. now apply Hscalar.
  - intros [= <-]. now apply Hscalar.
  - destruct b; simpl; [|discriminate]. intros [= <-]. now apply Hscalar.
Qed.

End CanonFacts.

Module SetFacts.

Lemma frozenset_items_In (l seen : list pyobj) (a : pyobj) :
  In a (frozenset_items seen l) -> In a l.
Proof.
  revert seen. induction l as [|x r IH]; intros seen; simpl; [trivial|].
  destruct (existsb (fun s => py_eq s x) seen).
  - intros Ha. right. now apply (IH seen).
  - intros [<-|Ha]; [now left | right; now apply (IH (seen ++ [x]))].
Qed.

(** Every item offered to [frozenset] is [==] to one it has kept. *)
Lemma frozenset_items_covers (l seen : list pyobj) (x : pyobj) :
  In x l ->
  (exists s, In s seen /\ py_eq s x = true)
  \/ (exists y, In y (frozenset_items seen l) /\ py_eq y x = true).
Proof.
  revert seen. induction l as [|x0 r IH]; intros seen; simpl; [tauto|].
  destruct (existsb (fun s => py_eq s x0) seen) eqn:Hseen.
  - intros [<-|Hx]; [|now apply IH].
    left. apply existsb_exists in Hseen. exact Hseen.
  - intros [<-|Hx].
    + right. exists x0. split; [now left | apply PyFacts.py_eq_refl].
    + destruct (IH (seen ++ [x0]) Hx) as [(s & Hs & He)|(y & Hy & He)].
      * apply in_app_or in Hs as [Hs|[<-|[]]].
        -- left. eauto.
        -- right. exists x0. split; [now left | exact He].
      * right. exists y. split; [now right | exact He].
Qed.

(** Two frozensets built from the same items, in whatever order, are
    [==]. *)
Lemma frozenset_eq (m1 m2 : list pyobj) :
  (forall x, In x m1 <-> In x m2) ->
  py_eq (frozenset m1) (frozenset m2) = true.
Proof.
  intros Hsame. unfold frozenset. cbn [py_eq].
  apply andb_true_iff. split.
  - apply (EqFacts.forall_exists_iff py_eq). intros a Ha.
    apply frozenset_items_In, Hsame in Ha.
    destruct (frozenset_items_covers m2 [] a Ha)
      as [(s & [] & _)|(y & Hy & He)].
    exists y. split; [exact Hy|]. now rewrite EqFacts.py_eq_sym.
  - apply (EqFacts.forall_exists_iff (fun b a => py_eq a b)). intros b Hb.
    apply frozenset_items_In, Hsame in Hb.
    destruct (frozenset_items_covers m1 [] b Hb)
      as [(s & [] & _)|(y & Hy & He)].
    exists y. split; [exact Hy | exact He].
Qed.

Lemma make_hashable_set_reordered (a b ha : pyobj) :
  set_reordered a b -> make_hashable a = inr ha ->
  exists hb, make_hashable b = inr hb /\ py_eq ha hb = true.
Proof.
  intros [<-|(l1 & l2 & -> & -> & Hp)] Ha.
  - exists ha. split; [exact Ha | apply PyFacts.py_eq_refl].
  - cbn [make_hashable] in *.
    destruct (mapM make_hashable l1) as [e|m1] eqn:H1; [discriminate|].
    simpl in Ha. injection Ha as <-.
    destruct (PyFacts.mapM_Permutation make_hashable l1 l2 Hp m1 H1)
      as (m2 & -> & Hp12).
    simpl. eexists. split; [reflexivity|].
    apply frozenset_eq. intros x. split; apply Permutation_in;
      [exact Hp12 | now apply Permutation_sym].
Qed.

Lemma mapM_set_reordered (args1 args2 l1 : list pyobj) :
  Forall2 set_reordered args1 args2 ->
  mapM make_hashable args1 = inr l1 ->
  exists l2, mapM make_hashable args2 = inr l2
             /\ seq_eq py_eq l1 l2 = true.
Proof.
  intros HF. revert l1.
  induction HF as [|a b r1 r2 Hab _ IH]; intros l1; simpl.
  - intros [= <-]. exists []. auto.
  - destruct (make_hashable a) as [e|ha] eqn:Ha; [discriminate|].
    destruct (mapM make_hashable r1) as [e|t1] eqn:H1; [discriminate|].
    intros [= <-].
    destruct (make_hashable_set_reordered a b ha Hab Ha) as (hb & -> & He).
    destruct (IH t1 eq_refl) as (t2 & -> & Ht).
    exists (hb :: t2). split; [reflexivity|]. simpl. now rewrite He, Ht.
Qed.

Lemma make_key_set_reordered (args1 args2 : list pyobj)
      (kwargs : list (string * pyobj)) (key1 : pyobj) :
  Forall2 set_reordered args1 args2 ->
  make_key args1 kwargs = inr key1 ->
  exists key2, make_key args2 kwargs = inr key2 /\ py_eq key1 key2 = true.
Proof.
  intros HF. unfold make_key, args_tuple. cbn [make_hashable].
  destruct (mapM make_hashable args1) as [e|l1] eqn:H1; [discriminate|].
  destruct (mapM_set_reordered args1 args2 l1 HF H1) as (l2 & -> & Hl).
  cbn [rbind].
  destruct (make_hashable (kwargs_dict kwargs)) as [e|kc]; [discriminate|].
  cbn [rbind]. intros [= <-]. eexists. split; [reflexivity|].
  cbn [py_eq seq_eq]. rewrite Hl, PyFacts.py_eq_refl. reflexivity.
Qed.

End SetFacts.

Module DictFacts.











End DictFacts.

Module ProperFacts.

Section Proper.
Context {K E : Type} {HK : KeyEq K} {HL : KeyEqLaws K}.
Implicit Types (d : OD.t K E) (k : K).

Lemma key_eqb_proper k (k1 k2 : K) :
  key_eqb k1 k2 = true -> key_eqb k k1 = key_eqb k k2.
Proof.
  intros H12. destruct (key_eqb k k1) eqn:H1.
  - symmetry. exact (key_eqb_trans k k1 k2 H1 H12).
  - destruct (key_eqb k k2) eqn:H2; [|reflexivity].
    rewrite (key_eqb_sym k1 k2) in H12.
    rewrite (key_eqb_trans k k2 k1 H2 H12) in H1. discriminate.
Qed.

(** A dictionary does not tell two keys that are [==] apart. *)
Lemma lookup_proper (k1 k2 : K) d :
  key_eqb k1 k2 = true -> OD.lookup k1 d = OD.lookup k2 d.
Proof.
  intros H12. induction d as [|[k e] r IH]; simpl; [reflexivity|].
  rewrite (key_eqb_proper k k1 k2 H12), IH. reflexivity.
Qed.

Lemma remove_proper (k1 k2 : K) d :
  key_eqb k1 k2 = true -> OD.remove k1 d = OD.remove k2 d.
Proof.
  intros H12. induction d as [|[k e] r IH]; simpl; [reflexivity|].
  rewrite (key_eqb_proper k k1 k2 H12), IH. reflexivity.
Qed.
End Proper.

Lemma get_proper {K V T : Type} {HK : KeyEq K} {HL : KeyEqLaws K}
      {HC : Clock T} (k1 k2 : K) (now : T) (c : LRUCache K V T) :
  key_eqb k1 k2 = true -> get k1 now c = get k2 now c.
Proof.
  intros H12.
  unfold get, bind, read, lift, OD.contains, OD.getitem, OD.delitem,
    OD.move_to_end, OD.contains.
  rewrite (lookup_proper k1 k2 (store c) H12).
  rewrite (remove_proper k1 k2 (store c) H12).
  reflexivity.
Qed.

End ProperFacts.

(* ================================================================== *)
(** * Further properties of key derivation *)
(* ================================================================== *)

(** X12.  A canonical form is its own canonical form: what
    [make_hashable] returns, it returns unchanged when given it again. *)
Theorem make_hashable_idempotent (x h : pyobj) :
  make_hashable x = inr h -> make_hashable h = inr h.
Proof.
  apply (CanonFacts.make_hashable_results (fun h => make_hashable h = inr h)).
  - intros y Hc Hh. destruct y; simpl in *; try discriminate;
      try reflexivity. now rewrite Hh.
  - intros l Hl. cbn [make_hashable].
    now rewrite (CanonFacts.mapM_fixed make_hashable l Hl).
Qed.

Lemma make_hashable_idempotent_witness :
  let x := PyList [PyDict [(PyStr "b", PySet [PyInt 2; PyInt 2]);
                           (PyStr "a", PyList [PyInt 1])];
                   PyInt 3] in
  let h := PyTuple [PyTuple [PyTuple [PyStr "a"; PyTuple [PyInt 1]];
                             PyTuple [PyStr "b"; PyFrozenset [PyInt 2]]];
                    PyInt 3] in
  make_hashable x = inr h /\ make_hashable h = inr h.
Proof.
  intros x h.
  assert (Hx : make_hashable x = inr h) by reflexivity.
  split; [exact Hx|]. exact (make_hashable_idempotent x h Hx).
Defined.

(** X13.  What [make_hashable] returns holds no list, dict or set at any
    depth of tuples: it is a tuple of such results, a frozenset, or a value
    that has passed [isinstance(obj, Hashable)].  Whether [hash] of such a
    value returns is up to its class and is not part of this. *)
Theorem make_hashable_returns_Hashable (x h : pyobj) :
  make_hashable x = inr h -> Hashable_through_tuples h = true.
Proof.
  apply (CanonFacts.make_hashable_results
           (fun h => Hashable_through_tuples h = true)).
  - intros y Hc Hh. destruct y; simpl in *; try discriminate;
      try reflexivity. exact Hh.
  - intros l Hl. cbn [Hashable_through_tuples]. apply forallb_forall.
    rewrite Forall_forall in Hl. exact Hl.
Qed.

Lemma make_hashable_returns_Hashable_witness :
  let x := PyList [PyDict [(PyStr "b", PySet [PyInt 2; PyInt 2]);
                           (PyStr "a", PyList [PyInt 1])];
                   PyTuple [PyList [PyInt 3]]] in
  Hashable_through_tuples x = false
  /\ Hashable_through_tuples (PyTuple [PyList [PyInt 3]]) = false
  /\ exists h, make_hashable x = inr h /\ Hashable_through_tuples h = true.
Proof.
  intros x. split; [reflexivity|]. split; [reflexivity|].
  eexists. split; [reflexivity|].
  exact (make_hashable_returns_Hashable x _ eq_refl).
Defined.

(** X14.  A set argument counts for its elements, not for their order.
    Two calls whose positional arguments differ only in the iteration
    order of sets derive keys that are [==]; the cache answers a [get] of
    one as it answers a [get] of the other; and an entry that the first
    call would hit, live and not [None], the second returns without
    running the function. *)
Theorem set_order_independence {T U : Type} {HC : Clock T}
        (func : pyfunc U) (args1 args2 : list pyobj)
        (kwargs : list (string * pyobj)) (key1 : pyobj)
        (now_get now_set : T) (w : world T U) :
  Forall2 set_reordered args1 args2 ->
  make_key args1 kwargs = inr key1 ->
  exists key2,
    make_key args2 kwargs = inr key2
    /\ py_eq key1 key2 = true
    /\ (forall now (c : LRUCache pyobj pyobj T),
           get key2 now c = get key1 now c)
    /\ (forall k v t,
           OD.lookup key1 (store (cache w)) = Some (k, (v, t)) ->
           _is_expired now_get t = false ->
           is_None v = false ->
           exists w',
             wrapper func args2 kwargs now_get now_set w = (w', inr v)
             /\ user w' = user w
             /\ invocations w' = invocations w).
Proof.
  intros HF Hk1.
  destruct (SetFacts.make_key_set_reordered args1 args2 kwargs key1 HF Hk1)
    as (key2 & Hk2 & He).
  exists key2. split; [exact Hk2|]. split; [exact He|]. split.
  - intros now c. symmetry. now apply ProperFacts.get_proper.
  - intros k v t Hl Hx Hv.
    rewrite (ProperFacts.lookup_proper key1 key2 _ He) in Hl.
    rewrite (MemoFacts.wrapper_hit func args2 kwargs now_get now_set w key2
               k v t Hk2 Hl Hx Hv).
    eexists. split; [reflexivity|]. cbn [user]. split; [reflexivity|].
    rewrite MemoFacts.invocations_app. simpl. lia.
Qed.

Lemma set_order_independence_witness :
  let f : pyfunc nat := fun _ _ n => (S n, inr (PyInt 0)) in
  let args1 := [PySet [PyInt 1; PyInt 2]; PyStr "x"] in
  let args2 := [PySet [PyInt 2; PyInt 1]; PyStr "x"] in
  let key1 := PyTuple [PyTuple [PyFrozenset [PyInt 1; PyInt 2]; PyStr "x"];
                       PyTuple []] in
  let w : world Z nat :=
    mkWorld (mkLRUCache 4 None [(key1, (PyInt 0, None))] 0 0 0) 1%nat [] in
  Forall2 set_reordered args1 args2
  /\ make_key args1 [] = inr key1
  /\ exists key2,
      make_key args2 [] = inr key2
      /\ py_eq key1 key2 = true
      /\ exists w',
          wrapper f args2 [] 0 0 w = (w', inr (PyInt 0))
          /\ user w' = user w
          /\ invocations w' = invocations w.
Proof.
  intros f args1 args2 key1 w.
  assert (HF : Forall2 set_reordered args1 args2).
  { constructor.
    - right. exists [PyInt 1; PyInt 2], [PyInt 2; PyInt 1].
      split; [reflexivity|]. split; [reflexivity|]. apply perm_swap.
    - constructor; [now left | constructor]. }
  assert (Hk : make_key args1 [] = inr key1) by reflexivity.
  split; [exact HF|]. split; [exact Hk|].
  destruct (set_order_independence f args1 args2 [] key1 0 0 w HF Hk)
    as (key2 & Hk2 & He & _ & Hhit).
  exists key2. split; [exact Hk2|]. split; [exact He|].
  exact (Hhit key1 (PyInt 0) None eq_refl eq_refl eq_refl).
Defined.



(* ================================================================== *)
(** * More about the wrapper *)
(* ================================================================== *)

Module WrapperFacts.

Section Paths.
Context {T U : Type} {HC : Clock T}.
Implicit Types (w : world T U) (func : pyfunc U).
Implicit Types (args : list pyobj) (kwargs : list (string * pyobj)).
Implicit Types (c : LRUCache pyobj pyobj T).

(** The path through the body on which the function raises. *)
Lemma wrapper_raises func args kwargs (now_get now_set : T) w key c1 o u e :
  make_key args kwargs = inr key ->
  get key now_get (cache w) = (c1, inr o) ->
  is_None (of_optional o) = true ->
  func args kwargs (user w) = (u, inl e) ->
  wrapper func args kwargs now_get now_set w
  = (mkWorld c1 u (trace w ++ [CacheGet key; Invoked args kwargs]), inl e).
Proof.
  intros Hk Hg Hn Hf.
  unfold wrapper, cache_get, cache_set, on_cache, invoke, wbind, wlift, wret.
  rewrite Hk. cbv beta iota zeta. rewrite Hg. cbv beta iota zeta.
  rewrite Hn. cbn [negb]. cbv beta iota zeta. cbn [cache user trace].
  rewrite Hf. cbv beta iota zeta. cbn [cache user trace].
  now rewrite <- app_assoc.
Qed.

Lemma set_raises key value (now : T) c :
  max_size c < 0 ->
  set key value now c
  = (mkLRUCache (max_size c) (ttl c) [] (hits c) (misses c)
                (evictions c + OD.len (store_after_assign c key value now)),
     inl dictionary_is_empty).
Proof.
  intros Hneg.
  rewrite EngineFacts.set_eq, EngineFacts._evict_if_needed_eq.
  cbn [with_store max_size store ttl hits misses evictions].
  now rewrite (EngineFacts.evict_loop_raises _ _ _ Hneg).
Qed.

(** A hit leaves the entry where the next call finds it. *)
Lemma hit_again key k v t (now : T) c :
  OD.unique_keys (store c) = true ->
  OD.lookup key (store c) = Some (k, (v, t)) ->
  _is_expired now t = false ->
  OD.unique_keys (store (fst (get key now c))) = true
  /\ OD.lookup key (store (fst (get key now c))) = Some (k, (v, t)).
Proof.
  intros Hu Hl Hx.
  rewrite (EngineFacts.get_live key now c k v t Hl Hx). cbn [fst store].
  split.
  - now apply StoreFacts.unique_keys_moved.
  - rewrite (ODFacts.lookup_app_absent key _ _
               (ODFacts.lookup_remove key (store c) Hu)).
    simpl. now rewrite (ODFacts.lookup_key key (store c) k _ Hl).
Qed.

(** Calls that all hit the same live entry return its value each time and
    never run the function. *)
Lemma call_results_hits func args kwargs key k v t (clock : list (T * T)) w :
  make_key args kwargs = inr key ->
  is_None v = false ->
  Forall (fun gs => _is_expired (fst gs) t = false) clock ->
  OD.unique_keys (store (cache w)) = true ->
  OD.lookup key (store (cache w)) = Some (k, (v, t)) ->
  exists w',
    call_results func args kwargs clock w
    = (w', inr (repeat v (List.length clock)))
    /\ invocations w' = invocations w
    /\ user w' = user w.
Proof.
  intros Hk Hv Hclock. revert w.
  induction Hclock as [|[now_get now_set] rest Hx _ IH]; intros w Hu Hl.
  - exists w. split; [reflexivity|]. split; reflexivity.
  - simpl in Hx.
    pose proof (MemoFacts.wrapper_hit func args kwargs now_get now_set w key
                  k v t Hk Hl Hx Hv) as Hw.
    destruct (hit_again key k v t now_get (cache w) Hu Hl Hx) as [Hu1 Hl1].
    destruct (IH (mkWorld (fst (get key now_get (cache w))) (user w)
                          (trace w ++ [CacheGet key])) Hu1 Hl1)
      as (w' & Hr & Hi & Hus).
    exists w'. cbn [call_results]. unfold wbind at 1. rewrite Hw.
    unfold wbind at 1. rewrite Hr. unfold wret.
    split; [reflexivity|]. split.
    + rewrite Hi, MemoFacts.invocations_app. simpl. lia.
    + exact Hus.
Qed.
End Paths.

End WrapperFacts.

(* ================================================================== *)
(** * Further properties of the memoizing wrapper *)
(* ================================================================== *)

(** X16.  A call that misses and whose function raises: the wrapper raises
    the same exception, the function has run once, [cache.set] has not
    been called and the store is what it was, so the next call with these
    arguments misses again. *)
Theorem failure_is_not_cached {T U : Type} {HC : Clock T}
        (func : pyfunc U) (args : list pyobj)
        (kwargs : list (string * pyobj)) (now_get now_set : T)
        (w : world T U) (key : pyobj) (u : U) (e : exn) :
  make_key args kwargs = inr key ->
  OD.lookup key (store (cache w)) = None ->
  func args kwargs (user w) = (u, inl e) ->
  exists w',
    wrapper func args kwargs now_get now_set w = (w', inl e)
    /\ user w' = u
    /\ trace w' = trace w ++ [CacheGet key; Invoked args kwargs]
    /\ invocations w' = S (invocations w)
    /\ set_calls w' = set_calls w
    /\ store (cache w') = store (cache w)
    /\ OD.lookup key (store (cache w')) = None.
Proof.
  intros Hk Hl Hf.
  pose proof (EngineFacts.get_absent key now_get (cache w) Hl) as Hg.
  rewrite (WrapperFacts.wrapper_raises func args kwargs now_get now_set w
             key _ None u e Hk Hg eq_refl Hf).
  eexists. split; [reflexivity|]. cbn [user trace cache store].
  repeat split.
  - rewrite MemoFacts.invocations_app. simpl. lia.
  - rewrite MemoFacts.set_calls_app. simpl. lia.
  - exact Hl.
Qed.

Lemma failure_is_not_cached_witness :
  let f : pyfunc nat := fun _ _ n => (S n, inl (Raised "ValueError")) in
  let key := PyTuple [PyTuple [PyInt 1]; PyTuple []] in
  let w : world Z nat := mkWorld (mkLRUCache 4 None [] 0 0 0) 0%nat [] in
  make_key [PyInt 1] [] = inr key
  /\ OD.lookup key (store (cache w)) = None
  /\ f [PyInt 1] [] (user w) = (1%nat, inl (Raised "ValueError"))
  /\ exists w',
      wrapper f [PyInt 1] [] 0 0 w = (w', inl (Raised "ValueError"))
      /\ user w' = 1%nat
      /\ trace w' = trace w ++ [CacheGet key; Invoked [PyInt 1] []]
      /\ invocations w' = S (invocations w)
      /\ set_calls w' = set_calls w
      /\ store (cache w') = store (cache w)
      /\ OD.lookup key (store (cache w')) = None.
Proof.
  intros f key w.
  assert (Hk : make_key [PyInt 1] [] = inr key) by reflexivity.
  assert (Hl : OD.lookup key (store (cache w)) = None) by reflexivity.
  assert (Hf : f [PyInt 1] [] (user w) = (1%nat, inl (Raised "ValueError")))
    by reflexivity.
  split; [exact Hk|]. split; [exact Hl|]. split; [exact Hf|].
  exact (failure_is_not_cached f _ _ 0 0 w key 1%nat _ Hk Hl Hf).
Defined.

(** X17.  A call that finds its entry expired: the entry is dropped and
    counted as a miss, the function runs once, and with a positive
    capacity its result is stored under the key with an expiration time
    counted from the new [set]. *)
Theorem expired_entry_is_recomputed {T U : Type} {HC : Clock T}
        (func : pyfunc U) (args : list pyobj)
        (kwargs : list (string * pyobj)) (now_get now_set : T)
        (w : world T U) (key k old : pyobj) (t : option T) (u : U)
        (value : pyobj) :
  make_key args kwargs = inr key ->
  OD.unique_keys (store (cache w)) = true ->
  OD.lookup key (store (cache w)) = Some (k, (old, t)) ->
  _is_expired now_get t = true ->
  func args kwargs (user w) = (u, inr value) ->
  0 < max_size (cache w) ->
  exists w',
    wrapper func args kwargs now_get now_set w = (w', inr value)
    /\ user w' = u
    /\ invocations w' = S (invocations w)
    /\ OD.lookup key (store (cache w'))
       = Some (key, (value, expiration (cache w) now_set))
    /\ misses (cache w') = misses (cache w) + 1
    /\ hits (cache w') = hits (cache w).
Proof.
  intros Hk Hu Hl Hx Hf Hm.
  pose proof (EngineFacts.get_expired key now_get (cache w) k old t Hl Hx)
    as Hg.
  rewrite (MemoFacts.wrapper_computes func args kwargs now_get now_set w key
             _ None u value Hk Hg eq_refl Hf).
  match type of Hg with _ = (?c, _) => set (c1 := c) in * end.
  assert (Hl1 : OD.lookup key (store c1) = None)
    by (exact (ODFacts.lookup_remove key (store (cache w)) Hu)).
  destruct (EngineFacts.set_stores key value now_set c1 Hl1 Hm
              (PyFacts.py_eq_refl key)) as (c2 & Hset & _ & Hlk).
  destruct (CallFacts.set_effects key value now_set c1)
    as (_ & _ & _ & Hh & Hmi & _).
  rewrite Hset in *. cbn [fst snd] in *.
  eexists. split; [reflexivity|]. cbn [user cache].
  split; [reflexivity|]. split.
  - rewrite MemoFacts.invocations_app. simpl. lia.
  - split; [exact Hlk|]. split; [exact Hmi | exact Hh].
Qed.

Lemma expired_entry_is_recomputed_witness :
  let f : pyfunc nat := fun _ _ n => (S n, inr (PyInt 8)) in
  let key := PyTuple [PyTuple [PyInt 1]; PyTuple []] in
  let w : world Z nat :=
    mkWorld (mkLRUCache 4 (Some 10) [(key, (PyInt 7, Some 10))] 0 1 0)
            1%nat [] in
  make_key [PyInt 1] [] = inr key
  /\ OD.unique_keys (store (cache w)) = true
  /\ OD.lookup key (store (cache w)) = Some (key, (PyInt 7, Some 10))
  /\ _is_expired 11 (Some 10) = true
  /\ f [PyInt 1] [] (user w) = (2%nat, inr (PyInt 8))
  /\ 0 < max_size (cache w)
  /\ exists w',
      wrapper f [PyInt 1] [] 11 12 w = (w', inr (PyInt 8))
      /\ user w' = 2%nat
      /\ invocations w' = S (invocations w)
      /\ OD.lookup key (store (cache w'))
         = Some (key, (PyInt 8, expiration (cache w) 12))
      /\ misses (cache w') = misses (cache w) + 1
      /\ hits (cache w') = hits (cache w).
Proof.
  intros f key w.
  assert (Hk : make_key [PyInt 1] [] = inr key) by reflexivity.
  assert (Hu : OD.unique_keys (store (cache w)) = true) by reflexivity.
  assert (Hl : OD.lookup key (store (cache w))
               = Some (key, (PyInt 7, Some 10))) by reflexivity.
  assert (Hx : _is_expired 11 (Some 10) = true) by reflexivity.
  assert (Hf : f [PyInt 1] [] (user w) = (2%nat, inr (PyInt 8)))
    by reflexivity.
  assert (Hm : 0 < max_size (cache w)) by (simpl; lia).
  split; [exact Hk|]. split; [exact Hu|]. split; [exact Hl|].
  split; [exact Hx|]. split; [exact Hf|]. split; [exact Hm|].
  exact (expired_entry_is_recomputed f _ _ 11 12 w key key (PyInt 7)
           (Some 10) 2%nat (PyInt 8) Hk Hu Hl Hx Hf Hm).
Defined.

(** X18.  Memoization.  The first call misses, its function returns a
    value that is not [None], and the capacity is positive.  Then that call
    and every later one made before the entry expires return this value,
    and the function has run exactly once. *)
Theorem memoized_calls_run_once {T U : Type} {HC : Clock T}
        (func : pyfunc U) (args : list pyobj)
        (kwargs : list (string * pyobj)) (now_get now_set : T)
        (later : list (T * T)) (w : world T U) (key : pyobj) (u : U)
        (v : pyobj) :
  make_key args kwargs = inr key ->
  OD.unique_keys (store (cache w)) = true ->
  OD.lookup key (store (cache w)) = None ->
  func args kwargs (user w) = (u, inr v) ->
  is_None v = false ->
  0 < max_size (cache w) ->
  Forall (fun gs => _is_expired (fst gs) (expiration (cache w) now_set)
                    = false) later ->
  exists w',
    call_results func args kwargs ((now_get, now_set) :: later) w
    = (w', inr (v :: repeat v (List.length later)))
    /\ invocations w' = S (invocations w)
    /\ user w' = u.
Proof.
  intros Hk Hu Hl Hf Hv Hm Hlater.
  pose proof (EngineFacts.get_absent key now_get (cache w) Hl) as Hg.
  pose proof (MemoFacts.wrapper_computes func args kwargs now_get now_set w
                key _ None u v Hk Hg eq_refl Hf) as Hw.
  match type of Hg with _ = (?c, _) => set (c1 := c) in * end.
  destruct (EngineFacts.set_stores key v now_set c1 Hl Hm
              (PyFacts.py_eq_refl key)) as (c2 & Hset & _ & Hlk).
  pose proof (RunFacts.call_unique (Set_ key v now_set) c1 Hu) as Hu2.
  cbn [call] in Hu2. rewrite Hset in Hw, Hu2. cbn [fst snd] in Hw, Hu2.
  destruct (WrapperFacts.call_results_hits func args kwargs key key v
              (expiration c1 now_set) later
              (mkWorld c2 u (trace w ++ [CacheGet key; Invoked args kwargs;
                                         CacheSet key v]))
              Hk Hv Hlater Hu2 Hlk) as (w' & Hr & Hi & Hus).
  exists w'. cbn [call_results]. unfold wbind at 1. rewrite Hw.
  unfold wbind at 1. rewrite Hr. unfold wret.
  split; [reflexivity|]. split.
  - rewrite Hi, MemoFacts.invocations_app. simpl. lia.
  - exact Hus.
Qed.

Lemma memoized_calls_run_once_witness :
  let add : pyfunc nat :=
    fun args _ n =>
      (S n, match args with
            | [PyInt a; PyInt b] => inr (PyInt (a + b))
            | _ => inl (Raised "TypeError")
            end) in
  let key := PyTuple [PyTuple [PyInt 2; PyInt 3]; PyTuple []] in
  let w : world Z nat := mkWorld (mkLRUCache 10 (Some 5) [] 0 0 0) 0%nat [] in
  exists w',
    call_results add [PyInt 2; PyInt 3] [] [(0, 0); (1, 1); (5, 5)] w
    = (w', inr [PyInt 5; PyInt 5; PyInt 5])
    /\ invocations w' = S (invocations w)
    /\ user w' = 1%nat.
Proof.
  intros add key w.
  refine (memoized_calls_run_once add [PyInt 2; PyInt 3] [] 0 0
            [(1, 1); (5, 5)] w key 1%nat (PyInt 5)
            eq_refl eq_refl eq_refl eq_refl eq_refl _ _).
  - simpl. lia.
  - repeat constructor.
Defined.

(** X19.  A wrapper whose cache has capacity zero memoizes nothing: with
    the store empty, as the decorator creates it, every call runs the
    function, and the store is empty again after each. *)
Theorem zero_capacity_memoizes_nothing {T U : Type} {HC : Clock T}
        (func : pyfunc U) (args : list pyobj)
        (kwargs : list (string * pyobj)) (key : pyobj)
        (clock : list (T * T)) (w : world T U) :
  make_key args kwargs = inr key ->
  (forall u, exists u' v, func args kwargs u = (u', inr v)) ->
  max_size (cache w) = 0 ->
  store (cache w) = [] ->
  exists w',
    repeat_call func args kwargs clock w = (w', inr tt)
    /\ invocations w' = (invocations w + List.length clock)%nat
    /\ store (cache w') = []
    /\ evictions (cache w')
       = evictions (cache w) + Z.of_nat (List.length clock).
Proof.
  intros Hk Hf. revert w.
  induction clock as [|[now_get now_set] rest IH]; intros w Hm Hst.
  - exists w. simpl. unfold wret. repeat split; [lia | exact Hst | lia].
  - destruct (Hf (user w)) as (u & v & Hfu).
    assert (Hl : OD.lookup key (store (cache w)) = None)
      by (rewrite Hst; reflexivity).
    pose proof (EngineFacts.get_absent key now_get (cache w) Hl) as Hg.
    pose proof (MemoFacts.wrapper_computes func args kwargs now_get now_set w
                  key _ None u v Hk Hg eq_refl Hfu) as Hw.
    match type of Hg with _ = (?c, _) => set (c1 := c) in * end.
    assert (Hset : set key v now_set c1
                   = (mkLRUCache 0 (ttl c1) [] (hits c1) (misses c1)
                                 (evictions (cache w) + 1), inr tt)).
    { rewrite EngineFacts.set_eq, EngineFacts._evict_if_needed_eq.
      unfold store_after_assign. subst c1.
      cbn [with_store max_size store ttl hits misses evictions].
      rewrite Hst, Hm. reflexivity. }
    rewrite Hset in Hw. cbn [fst snd] in Hw.
    destruct (IH (mkWorld (mkLRUCache 0 (ttl c1) [] (hits c1) (misses c1)
                                      (evictions (cache w) + 1)) u
                          (trace w ++ [CacheGet key; Invoked args kwargs;
                                       CacheSet key v])))
      as (w' & Hr & Hi & Hs & He); [reflexivity | reflexivity |].
    exists w'. cbn [repeat_call]. unfold wbind at 1. rewrite Hw.
    split; [exact Hr|]. split; [|split; [exact Hs|]].
    + rewrite Hi, MemoFacts.invocations_app. simpl. lia.
    + rewrite He. cbn [cache evictions List.length]. lia.
Qed.

Lemma zero_capacity_memoizes_nothing_witness :
  let f : pyfunc nat := fun _ _ n => (S n, inr (PyInt 1)) in
  let key := PyTuple [PyTuple [PyInt 2]; PyTuple []] in
  let w : world Z nat := mkWorld (mkLRUCache 0 None [] 0 0 0) 0%nat [] in
  make_key [PyInt 2] [] = inr key
  /\ (forall u, exists u' v, f [PyInt 2] [] u = (u', inr v))
  /\ max_size (cache w) = 0
  /\ store (cache w) = []
  /\ exists w',
      repeat_call f [PyInt 2] [] [(0, 0); (1, 1); (2, 2)] w = (w', inr tt)
      /\ invocations w' = (invocations w + 3)%nat
      /\ store (cache w') = []
      /\ evictions (cache w') = evictions (cache w) + 3.
Proof.
  intros f key w.
  assert (Hk : make_key [PyInt 2] [] = inr key) by reflexivity.
  assert (Hf : forall u, exists u' v, f [PyInt 2] [] u = (u', inr v)).
  { intros u. exists (S u), (PyInt 1). reflexivity. }
  assert (Hm : max_size (cache w) = 0) by reflexivity.
  assert (Hst : store (cache w) = []) by reflexivity.
  split; [exact Hk|]. split; [exact Hf|]. split; [exact Hm|].
  split; [exact Hst|].
  exact (zero_capacity_memoizes_nothing f _ _ key [(0, 0); (1, 1); (2, 2)] w
           Hk Hf Hm Hst).
Defined.

(** X20.  A wrapper whose cache has a negative capacity: a call that
    misses runs the function, and then raises the KeyError of the eviction
    loop instead of returning the result.  What the function did to the
    caller's state stays done, and the store is left empty with the same
    capacity, so the next call does the same. *)
Theorem negative_capacity_loses_the_result {T U : Type} {HC : Clock T}
        (func : pyfunc U) (args : list pyobj)
        (kwargs : list (string * pyobj)) (now_get now_set : T)
        (w : world T U) (key : pyobj) (u : U) (value : pyobj) :
  make_key args kwargs = inr key ->
  OD.lookup key (store (cache w)) = None ->
  func args kwargs (user w) = (u, inr value) ->
  max_size (cache w) < 0 ->
  exists w',
    wrapper func args kwargs now_get now_set w
    = (w', inl dictionary_is_empty)
    /\ user w' = u
    /\ invocations w' = S (invocations w)
    /\ store (cache w') = []
    /\ max_size (cache w') = max_size (cache w).
Proof.
  intros Hk Hl Hf Hneg.
  pose proof (EngineFacts.get_absent key now_get (cache w) Hl) as Hg.
  rewrite (MemoFacts.wrapper_computes func args kwargs now_get now_set w key
             _ None u value Hk Hg eq_refl Hf).
  rewrite WrapperFacts.set_raises by exact Hneg.
  eexists. split; [reflexivity|]. cbn [user cache fst store max_size].
  repeat split.
  rewrite MemoFacts.invocations_app. simpl. lia.
Qed.

Lemma negative_capacity_loses_the_result_witness :
  let f : pyfunc nat := fun _ _ n => (S n, inr (PyInt 1)) in
  let key := PyTuple [PyTuple [PyInt 2]; PyTuple []] in
  let w : world Z nat := mkWorld (mkLRUCache (-1) None [] 0 0 0) 0%nat [] in
  make_key [PyInt 2] [] = inr key
  /\ OD.lookup key (store (cache w)) = None
  /\ f [PyInt 2] [] (user w) = (1%nat, inr (PyInt 1))
  /\ max_size (cache w) < 0
  /\ exists w',
      wrapper f [PyInt 2] [] 0 0 w = (w', inl dictionary_is_empty)
      /\ user w' = 1%nat
      /\ invocations w' = S (invocations w)
      /\ store (cache w') = []
      /\ max_size (cache w') = max_size (cache w).
Proof.
  intros f key w.
  assert (Hk : make_key [PyInt 2] [] = inr key) by reflexivity.
  assert (Hl : OD.lookup key (store (cache w)) = None) by reflexivity.
  assert (Hf : f [PyInt 2] [] (user w) = (1%nat, inr (PyInt 1)))
    by reflexivity.
  assert (Hneg : max_size (cache w) < 0) by (simpl; lia).
  split; [exact Hk|]. split; [exact Hl|]. split; [exact Hf|].
  split; [exact Hneg|].
  exact (negative_capacity_loses_the_result f _ _ 0 0 w key 1%nat (PyInt 1)
           Hk Hl Hf Hneg).
Defined.

(** X22.  The lifetime of an entry, with the clock counted in integer
    ticks.  An entry set at time [now] on an engine with [ttl = d] is
    returned by every [get] up to and including time [now + d], and by
    none after: the first [get] later than that removes it and counts a
    miss. *)
Theorem ttl_window {K V : Type} {HK : KeyEq K} {HL : KeyEqLaws K}
        (c : LRUCache K V Z) (key : K) (value : V) (d now now' : Z) :
  OD.unique_keys (store c) = true ->
  0 < max_size c ->
  ttl c = Some d ->
  exists c1,
    set key value now c = (c1, inr tt)
    /\ (now' <= now + d ->
        exists c2, get key now' c1 = (c2, inr (Some value))
                   /\ hits c2 = hits c + 1)
    /\ (now + d < now' ->
        exists c2, get key now' c1 = (c2, inr None)
                   /\ misses c2 = misses c + 1
                   /\ OD.contains key (store c2) = false).
Proof.
  intros Hu Hm Httl.
  destruct (RunFacts.set_lookup key value now c Hu Hm)
    as (c1 & k & Hset & Hl & Hh & Hmi & _ & _).
  pose proof (RunFacts.call_unique (Set_ key value now) c Hu) as Hu1.
  cbn [call] in Hu1. rewrite Hset in Hu1. cbn [fst] in Hu1.
  assert (Hexp : expiration c now = Some (now + d)).
  { unfold expiration. rewrite Httl. reflexivity. }
  rewrite Hexp in Hl.
  exists c1. split; [exact Hset|]. split.
  - intros Hle.
    assert (Hx : _is_expired now' (Some (now + d)) = false).
    { simpl. rewrite Z.gtb_ltb. apply Z.ltb_ge. lia. }
    rewrite (EngineFacts.get_live key now' c1 k value _ Hl Hx).
    eexists. split; [reflexivity|]. simpl. lia.
  - intros Hgt.
    assert (Hx : _is_expired now' (Some (now + d)) = true).
    { simpl. rewrite Z.gtb_ltb. apply Z.ltb_lt. lia. }
    rewrite (EngineFacts.get_expired key now' c1 k value _ Hl Hx).
    eexists. split; [reflexivity|]. simpl. split; [lia|].
    apply ODFacts.contains_false_lookup. now apply ODFacts.lookup_remove.
Qed.

Lemma ttl_window_witness :
  let c : LRUCache string Z Z := mkLRUCache 2 (Some 1) [] 0 0 0 in
  OD.unique_keys (store c) = true
  /\ 0 < max_size c
  /\ ttl c = Some 1
  /\ exists c1,
      set "x" 100 10 c = (c1, inr tt)
      /\ (11 <= 10 + 1 ->
          exists c2, get "x" 11 c1 = (c2, inr (Some 100))
                     /\ hits c2 = hits c + 1)
      /\ (10 + 1 < 11 ->
          exists c2, get "x" 11 c1 = (c2, inr None)
                     /\ misses c2 = misses c + 1
                     /\ OD.contains "x" (store c2) = false).
Proof.
  intros c.
  assert (Hu : OD.unique_keys (store c) = true) by reflexivity.
  assert (Hm : 0 < max_size c) by (simpl; lia).
  assert (Httl : ttl c = Some 1) by reflexivity.
  split; [exact Hu|]. split; [exact Hm|]. split; [exact Httl|].
  exact (ttl_window c "x" 100 1 10 11 Hu Hm Httl).
Defined.

(* ================================================================== *)
(** * A function that returns None *)
(* ================================================================== *)

Module NoneFacts.

Section CachedNone.
Context {T U : Type} {HC : Clock T}.
Implicit Types (w : world T U) (func : pyfunc U).
Implicit Types (args : list pyobj) (kwargs : list (string * pyobj)).
Implicit Types (c : LRUCache pyobj pyobj T).

(** [set(key, None)] leaves nothing but [None] under the key, whether it
    returns or raises. *)
Lemma set_None_keeps key (now : T) c :
  only_None_under key c ->
  only_None_under key (fst (set key PyNone now c)).
Proof.
  unfold only_None_under. intros Hn.
  destruct (CallFacts.set_effects key PyNone now c) as (popped & Hst & _).
  assert (Hall : Forall (fun kv : pyobj * (pyobj * option T) =>
                           key_eqb (fst kv) key = true ->
                           fst (snd kv) = PyNone)
                        (store_after_assign c key PyNone now)).
  { unfold store_after_assign. apply ODFacts.Forall_setitem.
    - intros k _. reflexivity.
    - destruct (OD.lookup key (store c)) as [kv|] eqn:Hl; [|exact Hn].
      apply Forall_app. split.
      + now apply ODFacts.Forall_remove.
      + constructor; [|constructor]. rewrite Forall_forall in Hn.
        apply Hn. exact (ODFacts.lookup_In key _ _ Hl). }
  rewrite Hst in Hall. apply Forall_app in Hall. tauto.
Qed.

(** One call of a function that returns [None]. *)
Lemma call_None func args kwargs (now_get now_set : T) w key :
  make_key args kwargs = inr key ->
  (forall u, snd (func args kwargs u) = inr PyNone) ->
  only_None_under key (cache w) ->
  wrapper func args kwargs now_get now_set w
  = (mkWorld (after_call key (now_get, now_set) (cache w))
             (fst (func args kwargs (user w)))
             (trace w ++ [CacheGet key; Invoked args kwargs;
                          CacheSet key PyNone]),
     match snd (set key PyNone now_set (fst (get key now_get (cache w)))) with
     | inl e => inl e
     | inr _ => inr PyNone
     end)
  /\ only_None_under key (after_call key (now_get, now_set) (cache w)).
Proof.
  intros Hk Hf Hn. unfold after_call. cbn [fst snd].
  destruct (MemoFacts.get_only_None key now_get (cache w) Hn)
    as (c1 & o & Hg & Ho & Hn1 & _).
  destruct (func args kwargs (user w)) as [u r] eqn:Hfu.
  pose proof (Hf (user w)) as Hr. rewrite Hfu in Hr. simpl in Hr. subst r.
  rewrite (MemoFacts.wrapper_computes func args kwargs now_get now_set w key
             c1 o u PyNone Hk Hg Ho Hfu).
  rewrite Hg. cbn [fst]. split; [reflexivity|].
  now apply set_None_keeps.
Qed.

Lemma after_call_max_size key (gs : T * T) c :
  max_size (after_call key gs c) = max_size c.
Proof.
  unfold after_call.
  destruct (CallFacts.set_effects key PyNone (snd gs)
              (fst (get key (fst gs) c))) as (_ & _ & _ & _ & _ & -> & _).
  destruct (EngineFacts.get_returns key (fst gs) c)
    as (c1 & o & -> & Hmax & _). exact Hmax.
Qed.

(** A run of such calls on a cache that [set] does not raise on. *)
Lemma run_None func args kwargs key (clock : list (T * T)) w :
  make_key args kwargs = inr key ->
  (forall u, snd (func args kwargs u) = inr PyNone) ->
  only_None_under key (cache w) ->
  0 <= max_size (cache w) ->
  exists w',
    repeat_call func args kwargs clock w = (w', inr tt)
    /\ invocations w' = (invocations w + List.length clock)%nat
    /\ set_calls w' = (set_calls w + List.length clock)%nat
    /\ user w'
       = fold_left (fun u (_ : T * T) => fst (func args kwargs u))
                   clock (user w)
    /\ cache w' = fold_left (fun c gs => after_call key gs c) clock (cache w).
Proof.
  intros Hk Hf. revert w.
  induction clock as [|[now_get now_set] rest IH]; intros w Hn Hm.
  - exists w. simpl. unfold wret. repeat split; lia.
  - destruct (call_None func args kwargs now_get now_set w key Hk Hf Hn)
      as [Hw Hn1].
    destruct (EngineFacts.get_returns key now_get (cache w))
      as (c1 & o & Hg & Hmax1 & _).
    destruct (EngineFacts.set_returns key PyNone now_set c1) as
      (c2 & Hset & _ & _); [lia|].
    rewrite Hg in Hw. cbn [fst] in Hw. rewrite Hset in Hw. cbn [snd] in Hw.
    destruct (IH (mkWorld (after_call key (now_get, now_set) (cache w))
                          (fst (func args kwargs (user w)))
                          (trace w ++ [CacheGet key; Invoked args kwargs;
                                       CacheSet key PyNone])))
      as (w' & Hr & Hi & Hs & Hus & Hc).
    + exact Hn1.
    + cbn [cache]. rewrite after_call_max_size. exact Hm.
    + exists w'. cbn [repeat_call]. unfold wbind at 1. rewrite Hw.
      split; [exact Hr|].
      rewrite Hi, Hs, MemoFacts.invocations_app, MemoFacts.set_calls_app.
      cbn [fold_left]. split; [simpl; lia|]. split; [simpl; lia|].
      split; [exact Hus | exact Hc].
Qed.
End CachedNone.

End NoneFacts.

(** C9, as amended.  The function returns [None] on the arguments of the
    call, and what the cache holds under their key, if anything, is [None]:
    no call whose arguments derive the same key has left another value
    there.  This is so in a fresh cache and stays so after every such call.
    Then a call asks the cache, runs the function on the caller's state and
    calls [cache.set(key, None)] on the cache that [get] has left, whether
    or not [set] raises; and in a run of such calls on a cache whose
    [max_size] is not negative every call does. *)
Theorem None_result_is_recomputed {T U : Type} {HC : Clock T}
        (func : pyfunc U) (args : list pyobj)
        (kwargs : list (string * pyobj)) (key : pyobj)
        (now_get now_set : T) (clock : list (T * T)) (w : world T U) :
  make_key args kwargs = inr key ->
  (forall u, snd (func args kwargs u) = inr PyNone) ->
  only_None_under key (cache w) ->
  (exists w1,
      wrapper func args kwargs now_get now_set w
      = (w1,
         match snd (set key PyNone now_set
                        (fst (get key now_get (cache w)))) with
         | inl e => inl e
         | inr _ => inr PyNone
         end)
      /\ user w1 = fst (func args kwargs (user w))
      /\ cache w1
         = fst (set key PyNone now_set (fst (get key now_get (cache w))))
      /\ trace w1 = trace w ++ [CacheGet key; Invoked args kwargs;
                                CacheSet key PyNone]
      /\ only_None_under key (cache w1))
  /\ (0 <= max_size (cache w) ->
      exists w',
        repeat_call func args kwargs clock w = (w', inr tt)
        /\ invocations w' = (invocations w + List.length clock)%nat
        /\ set_calls w' = (set_calls w + List.length clock)%nat
        /\ user w'
           = fold_left (fun u (_ : T * T) => fst (func args kwargs u))
                       clock (user w)
        /\ cache w'
           = fold_left (fun c gs =>
                          fst (set key PyNone (snd gs)
                                   (fst (get key (fst gs) c))))
                       clock (cache w)).
Proof.
  intros Hk Hf Hn. split.
  - destruct (NoneFacts.call_None func args kwargs now_get now_set w key
                Hk Hf Hn) as [Hw Hn1].
    eexists. split; [exact Hw|]. cbn [user cache trace].
    repeat split. exact Hn1.
  - intros Hm. exact (NoneFacts.run_None func args kwargs key clock w
                        Hk Hf Hn Hm).
Qed.

Lemma None_result_is_recomputed_witness :
  let log : pyfunc nat := fun _ _ n => (S n, inr PyNone) in
  let key := PyTuple [PyTuple [PyStr "msg"]; PyTuple []] in
  let w : world Z nat := mkWorld (mkLRUCache 10 None [] 0 0 0) 0%nat [] in
  make_key [PyStr "msg"] [] = inr key
  /\ (forall u, snd (log [PyStr "msg"] [] u) = inr PyNone)
  /\ only_None_under key (cache w)
  /\ 0 <= max_size (cache w)
  /\ exists w',
      repeat_call log [PyStr "msg"] [] [(0, 0); (1, 1); (2, 2)] w
      = (w', inr tt)
      /\ invocations w' = (invocations w + 3)%nat
      /\ set_calls w' = (set_calls w + 3)%nat
      /\ user w' = 3%nat
      /\ store (cache w') = [(key, (PyNone, None))]
      /\ hits (cache w') = 2 /\ misses (cache w') = 1.
Proof.
  intros log key w.
  assert (Hk : make_key [PyStr "msg"] [] = inr key) by reflexivity.
  assert (Hf : forall u, snd (log [PyStr "msg"] [] u) = inr PyNone)
    by (intros u; reflexivity).
  assert (Hn : only_None_under key (cache w)) by constructor.
  assert (Hm : 0 <= max_size (cache w)) by (simpl; lia).
  split; [exact Hk|]. split; [exact Hf|]. split; [exact Hn|].
  split; [exact Hm|].
  destruct (proj2 (None_result_is_recomputed log _ _ key 0 0
                     [(0, 0); (1, 1); (2, 2)] w Hk Hf Hn) Hm)
    as (w' & Hr & Hi & Hs & Hu & Hc).
  exists w'. split; [exact Hr|]. split; [exact Hi|]. split; [exact Hs|].
  rewrite Hu, Hc. repeat split.
Defined.

(** C9 as it is worded does not hold.  [make_hashable] gives a list and a
    tuple with the same items the same canonical form, so a function that
    returns 5 on the list [[1, 2]] and [None] on the tuple [(1, 2)] has its
    5 cached under the key of both: the call on the tuple, for which the
    function returns [None], returns the cached 5, and neither the function
    nor [cache.set] is called. *)
Lemma cached_value_shadows_a_None_result :
  let f : pyfunc nat :=
    fun args _ n =>
      (S n, match args with
            | [PyList _] => inr (PyInt 5)
            | _ => inr PyNone
            end) in
  let on_list := [PyList [PyInt 1; PyInt 2]] in
  let on_tuple := [PyTuple [PyInt 1; PyInt 2]] in
  let fresh : world Z nat := mkWorld (mkLRUCache 10 None [] 0 0 0) 0%nat [] in
  let w1 := fst (wrapper f on_list [] 0 0 fresh) in
  let w2 := fst (wrapper f on_tuple [] 1 1 w1) in
  (forall u, snd (f on_tuple [] u) = inr PyNone)
  /\ make_key on_list [] = make_key on_tuple []
  /\ snd (wrapper f on_list [] 0 0 fresh) = inr (PyInt 5)
  /\ snd (wrapper f on_tuple [] 1 1 w1) = inr (PyInt 5)
  /\ invocations w2 = invocations w1
  /\ set_calls w2 = set_calls w1
  /\ user w2 = user w1.
Proof.
  intros f on_list on_tuple fresh w1 w2.
  split; [intros u; reflexivity|]. repeat split.
Qed.
